(** * A directed weighted graph on adjacency maps

    Shallow embedding of
    [data_structures/graphs/adjacency_map_directed_weighted_graph.py]
    (class [DirectedGraph]) and the properties its specification states.

    Modelling conventions.
    - A Python [dict] keeps insertion order, and the order is observable
      through [vertices()], [edges()] and the relaxation order of
      Bellman-Ford: [outgoing_edges] and [vertex_data] are association lists
      in insertion order.  The dictionaries that are local to one algorithm
      and never iterated ([distances], [backtracks]) are finite maps.
    - A Python [set] is a finite set ([gset]).
    - [outgoing_edges] is a [defaultdict(dict)]: subscripting it with a key
      it does not hold inserts an empty inner dict under that key.  Every
      function that subscripts it therefore returns the graph it leaves
      behind.
    - A raised exception is a value of [exn]; an operation returns an
      [outcome] together with the graph at the moment it returns or raises.
    - [while] loops take fuel and return [None] when it runs out; theorems
      that say a call returns exhibit enough fuel.
    - [depth_first_search] calls itself, and the interpreter admits only so
      many nested calls: the function takes the number of activations that
      the call stack still has room for, and raises [RecursionError] when
      there is none left.
    - Weights are Python integers or [None] (the default of [add_edge]);
      [float('inf')] is the extra distance [Inf]; floating-point weights are
      not modelled.  Adding an integer to [float('inf')] converts the
      integer to a double first, which raises [OverflowError] when the
      integer is too large for one.  Generators are modelled by the list
      obtained when they are run to exhaustion.
    - [heapq] is modelled by its contract, a priority queue; this is what a
      binary heap does when [<] on vertices is a strict total order, as it
      is for [str] and [int]. *)

From stdpp Require Import gmap strings list.
From Stdlib Require Import ZArith Lia.

Local Open Scope Z_scope.

(** ** Vertices

    A vertex is any hashable Python value.  The code also takes its truth
    value ([while last_step:] in [construct_path]) and orders it (ties
    between heap entries [(distance, vertex)] in Dijkstra). *)

Class PyVertex (V : Type) `{Countable V} := {
  truthy : V → bool;
  py_lt : V → V → bool
}.

(** Python [str]: the empty string is the only false one; [<] is
    lexicographic. *)
#[export] Instance str_vertex : PyVertex string := {|
  truthy s := negb (String.eqb s "");
  py_lt := String.ltb
|}.

(** Python [int]: zero is the only false one. *)
#[export] Instance int_vertex : PyVertex Z := {|
  truthy z := negb (z =? 0);
  py_lt := Z.ltb
|}.

(** ** Insertion-ordered dictionaries *)

Module PyDict.
Section Dict.
Context {K : Type} `{EqDecision K} {A : Type}.

Definition dict := list (K * A).

(** [d.get(k)] / [d[k]]: [None] stands for the missing key. *)
Fixpoint get (k : K) (d : list (K * A)) : option A :=
  match d with
  | [] => None
  | (k', a) :: d' => if decide (k = k') then Some a else get k d'
  end.

Definition mem (k : K) (d : list (K * A)) : bool :=
  match get k d with Some _ => true | None => false end.

(** [d[k] = a]: an existing key keeps its position, a new key goes last. *)
Fixpoint set (k : K) (a : A) (d : list (K * A)) : list (K * A) :=
  match d with
  | [] => [(k, a)]
  | (k', a') :: d' =>
      if decide (k = k') then (k, a) :: d' else (k', a') :: set k a d'
  end.

(** The entries left by [del d[k]]. *)
Definition remove (k : K) (d : list (K * A)) : list (K * A) :=
  filter (λ e, e.1 ≠ k) d.

(** [del d[k]]: [None] stands for [KeyError]. *)
Definition del (k : K) (d : list (K * A)) : option (list (K * A)) :=
  if mem k d then Some (remove k d) else None.

(** [d.setdefault(k, a)], for its effect on [d]. *)
Definition setdefault (k : K) (a : A) (d : list (K * A)) : list (K * A) :=
  if mem k d then d else d ++ [(k, a)].

Definition keys (d : list (K * A)) : list K := d.*1.

(** A dictionary holds each key once. *)
Definition wf (d : list (K * A)) : Prop := NoDup (keys d).
End Dict.
End PyDict.

(** ** Exceptions and outcomes *)

Section Graph.
Context {V : Type} `{PyVertex V} {D : Type}.

(** The exceptions the class raises.  The specification calls
    [KeyError] from [remove_vertex] [VertexNotFound], [NoSuchEdge]
    [EdgeNotFound], [NoPath] [PathNotFound] and [NegativeCycles]
    [NegativeWeightCycleDetected]; the last three are [ValueError]s with
    different messages.  [TypeError], [OverflowError] and
    [RecursionError] are raised by the interpreter: for [None] as a
    summand, for an integer that no double holds, and for a call that the
    call stack has no room for. *)
Inductive exn :=
| KeyError (k : V)
| NoSuchEdge (u v : V)
| NoPath (start end_ : V)
| NegativeCycles
| TypeError
| OverflowError
| RecursionError.

Inductive outcome (A : Type) :=
| Return (a : A)
| Raise (e : exn).
Global Arguments Return {A} a.
Global Arguments Raise {A} e.

Definition obind {A B} (o : outcome A) (f : A → outcome B) : outcome B :=
  match o with
  | Return a => f a
  | Raise e => Raise e
  end.

(** ** The graph store *)

Definition weight := option Z.

Record DirectedGraph := {
  outgoing_edges : list (V * list (V * weight));
  vertex_data : list (V * option D)
}.

(** [DirectedGraph()] *)
Definition init : DirectedGraph :=
  {| outgoing_edges := []; vertex_data := [] |}.

(** The inner dict [self.outgoing_edges[v]] evaluates to. *)
Definition adj (g : DirectedGraph) (v : V) : list (V * weight) :=
  default [] (PyDict.get v (outgoing_edges g)).

(** The graph after [self.outgoing_edges[v]] has been evaluated:
    [defaultdict.__missing__] stores an empty dict under a new key. *)
Definition touch (g : DirectedGraph) (v : V) : DirectedGraph :=
  {| outgoing_edges := PyDict.setdefault v [] (outgoing_edges g);
     vertex_data := vertex_data g |}.

Definition add_vertex (v : V) (value : option D) (g : DirectedGraph)
  : DirectedGraph :=
  {| outgoing_edges := outgoing_edges g;
     vertex_data := PyDict.set v value (vertex_data g) |}.

Definition add_edge (u v : V) (w : weight) (g : DirectedGraph)
  : DirectedGraph :=
  let vd := PyDict.setdefault v None
              (PyDict.setdefault u None (vertex_data g)) in
  {| outgoing_edges :=
       PyDict.set u (PyDict.set v w (adj g u)) (outgoing_edges g);
     vertex_data := vd |}.

(** The inner loop of [remove_vertex] over one adjacency dict: it walks a
    snapshot of the keys and deletes the key equal to [v].  The [del]
    cannot raise, [destination] being a key of the dict. *)
Definition drop_incoming (v : V) (incident_vertices : list (V * weight))
  : list (V * weight) :=
  foldl (λ inc destination,
           if decide (destination = v) then PyDict.remove destination inc
           else inc)
        incident_vertices (PyDict.keys incident_vertices).

(** [remove_vertex] raises [KeyError] at its first statement when [v] has
    no adjacency entry, and at its last one, after the edges have been
    removed, when [v] has no payload entry. *)
Definition remove_vertex (v : V) (g : DirectedGraph)
  : outcome () * DirectedGraph :=
  match PyDict.del v (outgoing_edges g) with
  | None => (Raise (KeyError v), g)
  | Some oe =>
      let oe' := (λ e, (e.1, drop_incoming v e.2)) <$> oe in
      match PyDict.del v (vertex_data g) with
      | None =>
          (Raise (KeyError v),
           {| outgoing_edges := oe'; vertex_data := vertex_data g |})
      | Some vd =>
          (Return (), {| outgoing_edges := oe'; vertex_data := vd |})
      end
  end.

(** [del self.outgoing_edges[u][v]]: the outer subscript comes first and
    creates the entry of [u] when it is missing. *)
Definition remove_edge (u v : V) (g : DirectedGraph)
  : outcome () * DirectedGraph :=
  match PyDict.del v (adj g u) with
  | None => (Raise (NoSuchEdge u v), touch g u)
  | Some inc =>
      (Return (),
       {| outgoing_edges := PyDict.set u inc (outgoing_edges g);
          vertex_data := vertex_data g |})
  end.

Definition vertices (g : DirectedGraph) : list V :=
  PyDict.keys (vertex_data g).

Definition vertex_count (g : DirectedGraph) : nat :=
  length (PyDict.keys (vertex_data g)).

Definition edges (g : DirectedGraph) : list (V * V * weight) :=
  e ← outgoing_edges g; (λ dw, (e.1, dw.1, dw.2)) <$> e.2.

Definition edge_count (g : DirectedGraph) : nat :=
  foldl (λ count _, S count) 0%nat (edges g).

(** [incident_edges(v, edge_type)], run to exhaustion.  Any other
    [edge_type] yields nothing. *)
Definition incident_edges (v : V) (edge_type : string) (g : DirectedGraph)
  : list (V * V * weight) * DirectedGraph :=
  if String.eqb edge_type "outgoing" then
    ((λ dw, (v, dw.1, dw.2)) <$> adj g v, touch g v)
  else if String.eqb edge_type "incoming" then
    (filter (λ e, e.1.2 = v) (edges g), g)
  else ([], g).

Definition edge_weight (u v : V) (g : DirectedGraph)
  : outcome weight * DirectedGraph :=
  match PyDict.get v (adj g u) with
  | Some w => (Return w, touch g u)
  | None => (Raise (NoSuchEdge u v), touch g u)
  end.

(** ** Traversals *)

(** The innermost loop of [breadth_first_search]: the neighbours that are
    not visited yet are appended to [next_level]. *)
Definition bfs_scan (visited : gset V) (next_level : list V)
    (neighbors : list V) : list V :=
  foldl (λ next neighbor,
           if decide (neighbor ∈ visited) then next else next ++ [neighbor])
        next_level neighbors.

(** The body of [for node in current_level]. *)
Definition bfs_node (st : DirectedGraph * gset V * list V) (node : V)
  : DirectedGraph * gset V * list V :=
  let visited := st.1.2 ∪ {[node]} in
  (touch st.1.1 node, visited,
   bfs_scan visited st.2 (PyDict.keys (adj st.1.1 node))).

(** [while current_level:] *)
Fixpoint bfs_levels (fuel : nat) (g : DirectedGraph) (visited : gset V)
    (current_level : list V) : option (gset V * DirectedGraph) :=
  match current_level with
  | [] => Some (visited, g)
  | _ :: _ =>
      match fuel with
      | O => None
      | S fuel' =>
          let st := foldl bfs_node (g, visited, []) current_level in
          bfs_levels fuel' st.1.1 st.1.2 st.2
      end
  end.

Definition breadth_first_search (fuel : nat) (v : V) (g : DirectedGraph)
  : option (gset V * DirectedGraph) :=
  bfs_levels fuel g ∅ [v].

(** The inner loop of [breadth_first_search_queue]. *)
Definition bfsq_scan (st : gset V * list V) (neighbors : list V)
  : gset V * list V :=
  foldl (λ st neighbor,
           if decide (neighbor ∈ st.1) then st
           else (st.1 ∪ {[neighbor]}, st.2 ++ [neighbor]))
        st neighbors.

(** [while queue:]; the head of the list is the left end of the deque. *)
Fixpoint bfsq_loop (fuel : nat) (g : DirectedGraph) (visited : gset V)
    (queue : list V) : option (gset V * DirectedGraph) :=
  match queue with
  | [] => Some (visited, g)
  | node :: queue' =>
      match fuel with
      | O => None
      | S fuel' =>
          let st := bfsq_scan (visited, queue') (PyDict.keys (adj g node)) in
          bfsq_loop fuel' (touch g node) st.1 st.2
      end
  end.

Definition breadth_first_search_queue (fuel : nat) (v : V)
    (g : DirectedGraph) : option (gset V * DirectedGraph) :=
  bfsq_loop fuel g {[v]} [v].

(** The recursive function behind [depth_first_search].  [depth] is the
    number of activations of the function that the call stack has room
    for: with none left the call raises [RecursionError] at its first
    statement, before [v] is added and [outgoing_edges] subscripted, and
    the exception ends every activation below it.  The set [visited] is
    one object shared by all the calls, so it is threaded through them;
    it is lost when the call raises, the graph is not. *)
Fixpoint dfs_visit (depth : nat) (v : V) (st : gset V * DirectedGraph)
  : outcome (gset V) * DirectedGraph :=
  match depth with
  | O => (Raise RecursionError, st.2)
  | S depth' =>
      foldl (λ acc neighbor,
               match acc.1 with
               | Raise _ => acc
               | Return visited =>
                   if decide (neighbor ∈ visited) then acc
                   else dfs_visit depth' neighbor (visited, acc.2)
               end)
            (Return (st.1 ∪ {[v]}), touch st.2 v)
            (PyDict.keys (adj st.2 v))
  end.

(** [depth_first_search(v, visited=None)] *)
Definition depth_first_search (depth : nat) (v : V)
    (visited : option (gset V)) (g : DirectedGraph)
  : outcome (gset V) * DirectedGraph :=
  dfs_visit depth v (default ∅ visited, g).

(** The inner loop of [depth_first_search_iterate].  The Python list
    [stack] is held in reverse: its last element, where [pop] and [append]
    work, is the head. *)
Definition dfsi_scan (visited : gset V) (stack : list V)
    (neighbors : list V) : list V :=
  foldl (λ stack neighbor,
           if decide (neighbor ∈ visited) then stack else neighbor :: stack)
        stack neighbors.

Fixpoint dfsi_loop (fuel : nat) (g : DirectedGraph) (visited : gset V)
    (stack : list V) : option (gset V * DirectedGraph) :=
  match stack with
  | [] => Some (visited, g)
  | node :: stack' =>
      match fuel with
      | O => None
      | S fuel' =>
          let visited' := visited ∪ {[node]} in
          dfsi_loop fuel' (touch g node) visited'
            (dfsi_scan visited' stack' (PyDict.keys (adj g node)))
      end
  end.

Definition depth_first_search_iterate (fuel : nat) (v : V)
    (g : DirectedGraph) : option (gset V * DirectedGraph) :=
  dfsi_loop fuel g ∅ [v].

(** ** Path reconstruction *)

(** The [while last_step:] loop.  [path] is [backtrack_path] in reverse
    (its head is [backtrack_path[-1]]), so that the final
    [list(reversed(backtrack_path))] is [path] itself.  The loop stops at
    [None] and at any vertex that Python takes for false. *)
Fixpoint backtrack (fuel : nat) (backtracks : gmap V (option V))
    (last_step : option V) (path : list V)
  : option (outcome (list V)) :=
  match last_step with
  | None => Some (Return path)
  | Some x =>
      if truthy x then
        match fuel with
        | O => None
        | S fuel' =>
            match backtracks !! x with
            | None => Some (Raise (KeyError x))
            | Some next => backtrack fuel' backtracks next (x :: path)
            end
        end
      else Some (Return path)
  end.

Definition construct_path (fuel : nat) (backtracks : gmap V (option V))
    (start end_ : V) : option (outcome (list V)) :=
  r ← backtrack fuel backtracks (backtracks !! end_ ≫= id) [end_];
  Some (obind r (λ path,
    if decide (head path = Some start) then Return path
    else Raise (NoPath start end_))).

(** ** Shortest paths *)

(** [{v: None for v in self.vertex_data.keys()}] *)
Definition init_backtracks (g : DirectedGraph) : gmap V (option V) :=
  foldl (λ m v, <[v := None]> m) ∅ (vertices g).

(** The loop over the neighbours in [find_shortest_path_bfs]; the boolean
    is true when [NestedBreak] was raised. *)
Fixpoint spb_scan (end_ v : V) (neighbors : list V)
    (st : gset V * list V * gmap V (option V))
  : gset V * list V * gmap V (option V) * bool :=
  match neighbors with
  | [] => (st, false)
  | neighbor :: rest =>
      if decide (neighbor ∈ st.1.1) then spb_scan end_ v rest st
      else
        let st' := (st.1.1 ∪ {[neighbor]}, st.1.2 ++ [neighbor],
                    <[neighbor := Some v]> st.2) in
        if decide (neighbor = end_) then (st', true)
        else spb_scan end_ v rest st'
  end.

Fixpoint spb_loop (fuel : nat) (end_ : V) (g : DirectedGraph)
    (visited : gset V) (queue : list V) (backtracks : gmap V (option V))
  : option (gmap V (option V) * DirectedGraph) :=
  match queue with
  | [] => Some (backtracks, g)
  | v :: queue' =>
      match fuel with
      | O => None
      | S fuel' =>
          let r := spb_scan end_ v (PyDict.keys (adj g v))
                     (visited, queue', backtracks) in
          if r.2 then Some (r.1.2, touch g v)
          else spb_loop fuel' end_ (touch g v) r.1.1.1 r.1.1.2 r.1.2
      end
  end.

Definition find_shortest_path_bfs (fuel : nat) (start end_ : V)
    (g : DirectedGraph) : option (outcome (list V) * DirectedGraph) :=
  r ← spb_loop fuel end_ g {[start]} [start] (init_backtracks g);
  p ← construct_path fuel r.1 start end_;
  Some (p, r.2).

(** Distances: a Python integer or [float('inf')]. *)
Inductive dist := Fin (z : Z) | Inf.

(** The integers that [float(w)] raises [OverflowError] for: those that
    round to a magnitude of [2 ** 1024] or more; the largest double is
    [2 ** 1024 - 2 ** 971]. *)
Definition float_overflow (w : Z) : bool :=
  bool_decide (2 ^ 1024 - 2 ^ 970 ≤ Z.abs w).

(** [d + w] for a distance [d] and an integer [w]: the sum of two
    integers; [float('inf') + w] is [float('inf')] when [w] converts to a
    double and raises [OverflowError] when it does not. *)
Definition dist_add (d : dist) (w : Z) : outcome dist :=
  match d with
  | Fin z => Return (Fin (z + w))
  | Inf => if float_overflow w then Raise OverflowError else Return Inf
  end.

Definition dist_lt (a b : dist) : bool :=
  match a, b with
  | Fin x, Fin y => bool_decide (x < y)
  | Fin _, Inf => true
  | Inf, _ => false
  end.

(** The two loops that fill [distances] and [backtracks], and
    [distances[start] = 0]. *)
Definition init_distances (start : V) (g : DirectedGraph) : gmap V dist :=
  <[start := Fin 0]> (foldl (λ m v, <[v := Inf]> m) ∅ (vertices g)).

(** [heapq] on tuples [(distance, vertex)], by its contract: the heap is
    kept as a sorted list, [heappop] takes the head.  Tuples are compared
    as Python does: by the distances, and by the vertices when the
    distances are equal. *)
Definition tuple_lt (a b : Z * V) : bool :=
  if decide (a.1 = b.1) then py_lt a.2 b.2 else bool_decide (a.1 < b.1).

Fixpoint heappush (x : Z * V) (heap : list (Z * V)) : list (Z * V) :=
  match heap with
  | [] => [x]
  | y :: heap' => if tuple_lt x y then x :: heap else y :: heappush x heap'
  end.

(** The body of [for des, weight in self.outgoing_edges[src].items()]. *)
Definition dijkstra_relax (src_distance : Z) (src : V) (visited : gset V)
    (st : outcome (gmap V dist * gmap V (option V) * list (Z * V)))
    (e : V * weight)
  : outcome (gmap V dist * gmap V (option V) * list (Z * V)) :=
  obind st (λ s,
    if decide (e.1 ∈ visited) then Return s
    else
      match e.2 with
      | None => Raise TypeError
      | Some w =>
          let distance_to_des := src_distance + w in
          match s.1.1 !! e.1 with
          | None => Raise (KeyError e.1)
          | Some d =>
              if dist_lt (Fin distance_to_des) d then
                Return (<[e.1 := Fin distance_to_des]> s.1.1,
                        <[e.1 := Some src]> s.1.2,
                        heappush (distance_to_des, e.1) s.2)
              else Return s
          end
      end).

(** [while min_heap:] *)
Fixpoint dijkstra_loop (fuel : nat) (g : DirectedGraph)
    (distances : gmap V dist) (backtracks : gmap V (option V))
    (visited : gset V) (min_heap : list (Z * V))
  : option (outcome (gmap V (option V)) * DirectedGraph) :=
  match min_heap with
  | [] => Some (Return backtracks, g)
  | (src_distance, src) :: heap' =>
      match fuel with
      | O => None
      | S fuel' =>
          let visited' := visited ∪ {[src]} in
          match foldl (dijkstra_relax src_distance src visited')
                  (Return (distances, backtracks, heap')) (adj g src) with
          | Raise e => Some (Raise e, touch g src)
          | Return s =>
              dijkstra_loop fuel' (touch g src) s.1.1 s.1.2 visited' s.2
          end
      end
  end.

Definition find_shortest_path_dijkstra (fuel : nat) (start end_ : V)
    (g : DirectedGraph) : option (outcome (list V) * DirectedGraph) :=
  r ← dijkstra_loop fuel g (init_distances start g) (init_backtracks g)
        ∅ [(0, start)];
  match r.1 with
  | Raise e => Some (Raise e, r.2)
  | Return backtracks =>
      p ← construct_path fuel backtracks start end_;
      Some (p, r.2)
  end.

(** The body of [for src, des, weight in self.edges()]; [final] is
    [i == vertex_count - 1]. *)
Definition bellman_ford_relax (final : bool)
    (st : outcome (gmap V dist * gmap V (option V)))
    (e : V * V * weight)
  : outcome (gmap V dist * gmap V (option V)) :=
  obind st (λ s,
    match s.1 !! e.1.1 with
    | None => Raise (KeyError e.1.1)
    | Some d_src =>
        match e.2 with
        | None => Raise TypeError
        | Some w =>
            obind (dist_add d_src w) (λ distance_to_des,
              match s.1 !! e.1.2 with
              | None => Raise (KeyError e.1.2)
              | Some d_des =>
                  if dist_lt distance_to_des d_des then
                    if final then Raise NegativeCycles
                    else Return (<[e.1.2 := distance_to_des]> s.1,
                                 <[e.1.2 := Some e.1.1]> s.2)
                  else Return s
              end)
        end
    end).

(** The body of [for i in range(vertex_count)]. *)
Definition bellman_ford_pass (g : DirectedGraph)
    (st : outcome (gmap V dist * gmap V (option V))) (i : nat)
  : outcome (gmap V dist * gmap V (option V)) :=
  foldl (bellman_ford_relax (bool_decide (i = (vertex_count g - 1)%nat)))
        st (edges g).

Definition bellman_ford_passes (start : V) (g : DirectedGraph)
  : outcome (gmap V dist * gmap V (option V)) :=
  foldl (bellman_ford_pass g)
        (Return (init_distances start g, init_backtracks g))
        (seq 0 (vertex_count g)).

(** Bellman-Ford subscripts [outgoing_edges] nowhere: the graph is left
    as it is. *)
Definition find_shortest_path_bellman_ford (fuel : nat) (start end_ : V)
    (g : DirectedGraph) : option (outcome (list V) * DirectedGraph) :=
  match bellman_ford_passes start g with
  | Raise e => Some (Raise e, g)
  | Return s =>
      p ← construct_path fuel s.2 start end_;
      Some (p, g)
  end.

End Graph.

Global Arguments exn V : clear implicits.
Global Arguments DirectedGraph V D : clear implicits.

(** ** Calls, and the notions the specification speaks of *)

Section Spec.
Context {V : Type} `{PyVertex V} {D : Type}.
Implicit Types g : DirectedGraph V D.

(** The operations that the specification describes as reading only. *)
Inductive read_op :=
| BreadthFirstSearch (v : V)
| BreadthFirstSearchQueue (v : V)
| DepthFirstSearch (v : V) (visited : option (gset V))
| DepthFirstSearchIterate (v : V)
| FindShortestPathBfs (start end_ : V)
| FindShortestPathDijkstra (start end_ : V)
| FindShortestPathBellmanFord (start end_ : V)
| IncidentEdges (v : V) (edge_type : string)
| EdgeWeight (u v : V)
| Edges
| Vertices
| VertexCount
| EdgeCount.

(** The graph a read operation leaves behind, whether it returns or
    raises; [None] when the fuel does not suffice.  For
    [depth_first_search], [fuel] is the room on the call stack. *)
Definition run_read (fuel : nat) (op : read_op) g
  : option (DirectedGraph V D) :=
  match op with
  | BreadthFirstSearch v => snd <$> breadth_first_search fuel v g
  | BreadthFirstSearchQueue v => snd <$> breadth_first_search_queue fuel v g
  | DepthFirstSearch v visited =>
      Some (depth_first_search fuel v visited g).2
  | DepthFirstSearchIterate v => snd <$> depth_first_search_iterate fuel v g
  | FindShortestPathBfs s e => snd <$> find_shortest_path_bfs fuel s e g
  | FindShortestPathDijkstra s e =>
      snd <$> find_shortest_path_dijkstra fuel s e g
  | FindShortestPathBellmanFord s e =>
      snd <$> find_shortest_path_bellman_ford fuel s e g
  | IncidentEdges v edge_type => Some (incident_edges v edge_type g).2
  | EdgeWeight u v => Some (edge_weight u v g).2
  | Edges | Vertices | VertexCount | EdgeCount => Some g
  end.

Inductive call :=
| AddVertex (v : V) (value : option D)
| AddEdge (u v : V) (w : weight)
| RemoveVertex (v : V)
| RemoveEdge (u v : V)
| Read (op : read_op).

(** The graph after a call.  A caller may catch the exception of a failed
    call and go on, so the graph a raising call leaves is a state too. *)
Definition run_call (fuel : nat) (c : call) g : option (DirectedGraph V D) :=
  match c with
  | AddVertex v value => Some (add_vertex v value g)
  | AddEdge u v w => Some (add_edge u v w g)
  | RemoveVertex v => Some (remove_vertex v g).2
  | RemoveEdge u v => Some (remove_edge u v g).2
  | Read op => run_read fuel op g
  end.

(** A sequence of calls, each with the fuel it is given. *)
Fixpoint run_calls (cs : list (nat * call)) g : option (DirectedGraph V D) :=
  match cs with
  | [] => Some g
  | (fuel, c) :: cs' => g' ← run_call fuel c g; run_calls cs' g'
  end.

(** The graphs that calls can build from the empty graph. *)
Definition built g : Prop := ∃ cs, run_calls cs init = Some g.

(** Python dictionaries hold each key once. *)
Definition dicts_wf g : Prop :=
  PyDict.wf (outgoing_edges g) ∧ PyDict.wf (vertex_data g) ∧
  Forall (λ e, PyDict.wf e.2) (outgoing_edges g).

(** Both ends of every edge are in the vertex set. *)
Definition edges_closed g : Prop :=
  ∀ s d w, (s, d, w) ∈ edges g → s ∈ vertices g ∧ d ∈ vertices g.

(** [g'] is [g] with empty adjacency entries added for the keys [ks]. *)
Definition only_touched g g' : Prop :=
  vertex_data g' = vertex_data g ∧
  ∃ ks : list V,
    outgoing_edges g' = outgoing_edges g ++ ((λ k, (k, [])) <$> ks).

(** [g'] is [g] after some subscriptings of [outgoing_edges]. *)
Definition touched g g' : Prop := rtc (λ a b, ∃ u : V, b = touch a u) g g'.

Definition has_edge g (u v : V) : Prop := ∃ w, (u, v, w) ∈ edges g.

(** The vertices a traversal from [v] can meet: [v] and every key of an
    inner dict. *)
Definition universe g (v : V) : gset V :=
  {[v]} ∪ list_to_set (e ← outgoing_edges g; PyDict.keys e.2).

(** [v] is reachable from [u] along directed edges. *)
Definition reachable g : V → V → Prop := rtc (has_edge g).

(** Tables of Bellman-Ford in which every vertex has a distance, and a
    finite one only when it can be reached from [s]. *)
Definition tame g (s : V) (st : gmap V dist * gmap V (option V)) : Prop :=
  (∀ x, x ∈ vertices g → is_Some (st.1 !! x)) ∧
  (∀ x z, st.1 !! x = Some (Fin z) → reachable g s x).

Definition numeric_weights g : Prop :=
  ∀ s d w, (s, d, w) ∈ edges g → is_Some w.

Definition nonneg_weights g : Prop :=
  ∀ s d w, (s, d, w) ∈ edges g → ∃ z, w = Some z ∧ 0 ≤ z.

(** [walk g u p v z]: from [u], the edges of [g] lead through the vertices
    [p], one after the other, to [v], the last of them; the weights of the
    edges add up to [z]. *)
Inductive walk g : V → list V → V → Z → Prop :=
| walk_nil u : walk g u [] u 0
| walk_snoc u p v x z w :
    walk g u p v z → (v, x, Some w) ∈ edges g →
    walk g u (p ++ [x]) x (z + w).

(** No cycle of negative weight can be reached from [s]; a cycle passes
    through no vertex twice. *)
Definition no_negative_cycle g (s : V) : Prop :=
  ∀ p u z c zc,
    walk g s p u z → walk g u c u zc → NoDup c → 0 ≤ zc.

(** The total weight of the edges along a list of vertices; [None] when
    an edge is missing or carries no number. *)
Fixpoint path_weight g (path : list V) : option Z :=
  match path with
  | [] | [_] => Some 0
  | u :: (v :: _) as rest =>
      w ← PyDict.get v (adj g u) ≫= id;
      z ← path_weight g rest;
      Some (w + z)
  end.

(** The weights are integers that convert to a double: no sum with
    [float('inf')] overflows. *)
Definition float_weights g : Prop :=
  ∀ s d w, (s, d, w) ∈ edges g → ∃ z, w = Some z ∧ float_overflow z = false.

(** The sum of a distance and a weight, where there is one. *)
Definition dist_plus (d : dist) (w : Z) : dist :=
  match d with Fin z => Fin (z + w) | Inf => Inf end.

(** An edge that can still be relaxed under [distances]. *)
Definition relaxable (distances : gmap V dist) (e : V * V * weight) : Prop :=
  ∃ d_src w d_des,
    distances !! e.1.1 = Some d_src ∧ e.2 = Some w ∧
    distances !! e.1.2 = Some d_des ∧
    dist_lt (dist_plus d_src w) d_des = true.

(** The order on distances, and on tables of distances. *)
Definition dist_le (a b : dist) : Prop := dist_lt b a = false.

Definition dists_le (d1 d2 : gmap V dist) : Prop :=
  ∀ v x, d2 !! v = Some x → ∃ y, d1 !! v = Some y ∧ dist_le y x.

(** One pass of Bellman-Ford that is not the last one. *)
Definition relax_all g (st : outcome (gmap V dist * gmap V (option V)))
  : outcome (gmap V dist * gmap V (option V)) :=
  foldl (bellman_ford_relax false) st (edges g).

(** Every vertex of [path] but the first has the vertex before it as its
    recorded predecessor. *)
Fixpoint linked (backtracks : gmap V (option V)) (path : list V) : Prop :=
  match path with
  | [] | [_] => True
  | a :: (b :: _) as rest =>
      backtracks !! b = Some (Some a) ∧ linked backtracks rest
  end.

(** Every vertex of [path] but the last has an edge to the next one. *)
Fixpoint path_in g (path : list V) : Prop :=
  match path with
  | [] | [_] => True
  | a :: (b :: _) as rest => has_edge g a b ∧ path_in g rest
  end.

(** [path] leads from [s] to [e] along edges of [g]. *)
Definition path_from_to g (s e : V) (path : list V) : Prop :=
  head path = Some s ∧ last path = Some e ∧ path_in g path.

(** [n] edges lead from [u] to [v]. *)
Inductive hops g : V → V → nat → Prop :=
| hops_nil u : hops g u u 0
| hops_snoc u v x n : hops g u v n → has_edge g v x → hops g u x (S n).

(** [n] is the least number of edges that lead from [s] to [v]. *)
Definition depth g (s v : V) (n : nat) : Prop :=
  hops g s v n ∧ ∀ m, hops g s v m → (n ≤ m)%nat.

(** The invariant of the [while queue:] loop of [find_shortest_path_bfs].
    The queue holds vertices of depth [k] followed by vertices of depth
    [k + 1]; every vertex up to depth [k] has been visited; a visited
    vertex that has left the queue has all its neighbours visited, save
    [cur], the vertex whose neighbours are being scanned; [backtracks]
    holds, for a visited vertex other than [s], a visited vertex one
    level above it, and is as it was at the start elsewhere. *)
Definition spb_inv g (s : V) (k : nat) (cur : option V)
    (visited : gset V) (queue : list V) (backtracks : gmap V (option V))
  : Prop :=
  s ∈ visited ∧
  (∃ q1 q2, queue = q1 ++ q2 ∧
     Forall (λ v, depth g s v k) q1 ∧ Forall (λ v, depth g s v (S k)) q2) ∧
  (∀ v, v ∈ queue → v ∈ visited) ∧
  (∀ v m, hops g s v m → (m ≤ k)%nat → v ∈ visited) ∧
  (∀ u, u ∈ visited → u ∉ queue → cur ≠ Some u →
     ∀ x, has_edge g u x → x ∈ visited) ∧
  (∀ x, x ∈ visited → x ≠ s →
     ∃ y n, backtracks !! x = Some (Some y) ∧ y ∈ visited ∧
            has_edge g y x ∧ depth g s y n ∧ depth g s x (S n)) ∧
  (∀ x, x ∉ visited ∨ x = s → backtracks !! x = init_backtracks g !! x).

(** [backtracks] is a tree of predecessors with root [s] that
    [distances] respects: [s] has distance 0 and its first entry of
    [backtracks]; a recorded predecessor [y] of [x] has an edge to [x],
    and the distance of [x] is at least that of [y] plus the weight;
    every vertex with a finite distance is the end of a chain of
    recorded predecessors that starts at [s].  Bellman-Ford's relaxations
    keep it where no negative cycle can be reached, Dijkstra's where no
    weight is negative. *)
Definition pred_tree g (s : V) (st : gmap V dist * gmap V (option V)) : Prop :=
  (st.1 !! s = Some (Fin 0) ∧ st.2 !! s = init_backtracks g !! s) ∧
  (∀ x y, st.2 !! x = Some (Some y) →
     ∃ w dy dx, (y, x, Some w) ∈ edges g ∧
                st.1 !! y = Some (Fin dy) ∧ st.1 !! x = Some (Fin dx) ∧
                dy + w ≤ dx) ∧
  (∀ x dx, st.1 !! x = Some (Fin dx) →
     ∃ p, head p = Some s ∧ last p = Some x ∧ linked st.2 p).



End Spec.

Global Arguments read_op V {_ _}.
Global Arguments call V {_ _} D.

(** ** The graphs of the scenarios *)

(** A vertex that was added and has no edge. *)
Definition isolated_vertex : DirectedGraph string () :=
  add_vertex "A"%string None init.

(** One edge, added with the default weight. *)
Definition one_edge : DirectedGraph string () :=
  add_edge "A"%string "B"%string None init.

(** The cycle A -> B (-3), B -> A (1). *)
Definition negative_cycle : DirectedGraph string () :=
  add_edge "B"%string "A"%string (Some 1)
    (add_edge "A"%string "B"%string (Some (-3)) init).

(** Vertices A, B, C, D; edges A -> B (1), B -> C (2), A -> C (4),
    C -> D (1). *)
Definition four_vertices : DirectedGraph string () :=
  add_edge "C"%string "D"%string (Some 1)
    (add_edge "A"%string "C"%string (Some 4)
       (add_edge "B"%string "C"%string (Some 2)
          (add_edge "A"%string "B"%string (Some 1)
             (add_vertex "D"%string None
                (add_vertex "C"%string None
                   (add_vertex "B"%string None
                      (add_vertex "A"%string None init))))))).

(** Integer vertices: one edge that leaves vertex 0. *)
Definition from_zero : DirectedGraph Z () :=
  add_edge 0 1 (Some 1) init.

(** Integer vertices: two paths of weight 2 from 1 to 3, one through 2 and
    one through 0. *)
Definition through_zero : DirectedGraph Z () :=
  add_edge 0 3 (Some 1)
    (add_edge 1 0 (Some 1)
       (add_edge 2 3 (Some 1)
          (add_edge 1 2 (Some 1) init))).

(** Integer vertices: the chain 0 -> 1 -> ... -> n, every edge of
    weight 1. *)
Fixpoint chain (n : nat) : DirectedGraph Z () :=
  match n with
  | O => add_vertex 0 None init
  | S k => add_edge (Z.of_nat k) (Z.of_nat (S k)) (Some 1) (chain k)
  end.

(** Two edges that do not meet, A -> B (1) and C -> D (10 ** 400); the
    second weight does not fit a float. *)
Definition huge_weight : DirectedGraph string () :=
  add_edge "C"%string "D"%string (Some (10 ^ 400))
    (add_edge "A"%string "B"%string (Some 1) init).

(** * Properties *)

(** ** Dictionaries *)

Module PyDictFacts.
Import PyDict.
Section Facts.
Context {K : Type} `{EqDecision K} {A : Type}.
Implicit Types (d : list (K * A)) (k : K) (a : A).

Lemma get_Some_elem k a d : get k d = Some a → (k, a) ∈ d.
Proof.
  induction d as [|[k' a'] d IH]; simpl; [done|].
  case_decide; subst.
  - intros [= ->]. left.
  - intros. right. auto.
Qed.

Lemma get_None_keys k d : get k d = None ↔ k ∉ keys d.
Proof.
  unfold keys. induction d as [|[k' a'] d IH]; simpl.
  - split; [intros _; apply not_elem_of_nil | done].
  - rewrite not_elem_of_cons. case_decide; subst; split; try done.
    + intros [? _]; done.
    + intros. split; [done | by apply IH].
    + intros [_ ?]. by apply IH.
Qed.

Lemma mem_keys k d : mem k d = true ↔ k ∈ keys d.
Proof.
  unfold mem. destruct (get k d) eqn:E.
  - split; [|done]. intros _.
    destruct (decide (k ∈ keys d)) as [|Hn]; [done|].
    apply get_None_keys in Hn. congruence.
  - split; [done|]. intros Hin. by apply get_None_keys in E.
Qed.

Lemma mem_false_keys k d : mem k d = false ↔ k ∉ keys d.
Proof.
  rewrite <- mem_keys. destruct (mem k d); split; congruence.
Qed.

Lemma elem_get k a d : wf d → (k, a) ∈ d → get k d = Some a.
Proof.
  unfold wf, keys. induction d as [|[k' a'] d IH]; simpl.
  - intros _ Hin. by apply elem_of_nil in Hin.
  - rewrite NoDup_cons. intros [Hk Hd] Hin.
    apply elem_of_cons in Hin as [[= -> ->]|Hin].
    + by rewrite decide_True.
    + rewrite decide_False; [by apply IH|].
      intros ->. apply Hk. apply list_elem_of_fmap. by exists (k', a).
Qed.

Lemma get_elem_iff k a d : wf d → get k d = Some a ↔ (k, a) ∈ d.
Proof. intros. split; [apply get_Some_elem | by apply elem_get]. Qed.

Lemma elem_keys k a d : (k, a) ∈ d → k ∈ keys d.
Proof. intros. apply list_elem_of_fmap. by exists (k, a). Qed.

Lemma keys_elem k d : k ∈ keys d → ∃ a, (k, a) ∈ d.
Proof.
  intros ([k' a] & -> & Hin)%list_elem_of_fmap. by exists a.
Qed.

(** *** [set] *)

Lemma get_set_eq k a d : get k (set k a d) = Some a.
Proof.
  induction d as [|[k' a'] d IH]; simpl.
  - by rewrite decide_True.
  - case_decide; subst; simpl.
    + by rewrite decide_True.
    + by rewrite decide_False.
Qed.

Lemma get_set_ne k k' a d : k ≠ k' → get k' (set k a d) = get k' d.
Proof.
  intros Hne. induction d as [|[k0 a0] d IH]; simpl.
  - by rewrite decide_False.
  - case_decide; subst; simpl.
    + by rewrite !decide_False.
    + case_decide; [done | apply IH].
Qed.

Lemma elem_set k a d e :
  e ∈ set k a d → e = (k, a) ∨ (e.1 ≠ k ∧ e ∈ d) ∨ (e ∈ d ∧ ¬ wf d).
Proof.
  induction d as [|[k0 a0] d IH]; simpl.
  - intros ->%list_elem_of_singleton. by left.
  - case_decide; subst.
    + intros [->|Hin]%elem_of_cons; [by left|].
      destruct (decide (e.1 = k0)) as [<-|].
      * right; right. split; [by right|].
        unfold wf, keys. simpl. rewrite NoDup_cons. intros [Hk _].
        apply Hk. destruct e. by eapply elem_keys.
      * right; left. split; [done | by right].
    + intros [->|Hin]%elem_of_cons.
      * right; left. split; [simpl; congruence | left].
      * destruct (IH Hin) as [->|[[? ?]|[? Hw]]]; [by left| |].
        -- right; left. split; [done | by right].
        -- right; right. split; [by right|].
           unfold wf, keys in *. simpl. rewrite NoDup_cons. tauto.
Qed.

Lemma elem_set_inv k a d e : e ∈ set k a d → e = (k, a) ∨ e ∈ d.
Proof. intros Hin. apply elem_set in Hin. tauto. Qed.

Lemma keys_set k a d :
  keys (set k a d) = if mem k d then keys d else keys d ++ [k].
Proof.
  unfold mem, keys. induction d as [|[k0 a0] d IH]; csimpl; [done|].
  case_decide; subst; csimpl; [done|].
  rewrite IH. by destruct (get k d).
Qed.

Lemma elem_keys_set k k' a d : k' ∈ keys (set k a d) ↔ k' = k ∨ k' ∈ keys d.
Proof.
  rewrite keys_set. destruct (mem k d) eqn:E.
  - apply mem_keys in E. split; [by right | intros [->|]; done].
  - rewrite elem_of_app, list_elem_of_singleton. tauto.
Qed.

Lemma wf_set k a d : wf d → wf (set k a d).
Proof.
  unfold wf. rewrite keys_set. destruct (mem k d) eqn:E; [done|].
  apply mem_false_keys in E. intros Hd.
  apply NoDup_app. split; [done|]. split; [|apply NoDup_singleton].
  intros x Hx ->%list_elem_of_singleton. done.
Qed.

Lemma set_elem_other k a d e : e ∈ d → e.1 ≠ k → e ∈ set k a d.
Proof.
  intros Hin Hne. induction d as [|[k0 a0] d IH]; simpl.
  - by apply elem_of_nil in Hin.
  - apply elem_of_cons in Hin as [->|Hin].
    + simpl in Hne. rewrite decide_False by congruence. left.
    + case_decide; subst; right; auto.
Qed.

Lemma set_elem_new k a d : (k, a) ∈ set k a d.
Proof. apply get_Some_elem, get_set_eq. Qed.

(** *** [remove] and [del] *)

Lemma keys_remove k d : keys (remove k d) = filter (λ x, x ≠ k) (keys d).
Proof.
  unfold keys, remove. induction d as [|[k0 a0] d IH]; [done|].
  rewrite fmap_cons, !filter_cons. csimpl.
  case_decide; csimpl; by rewrite IH.
Qed.

Lemma elem_remove k d e : e ∈ remove k d ↔ e ∈ d ∧ e.1 ≠ k.
Proof. unfold remove. rewrite list_elem_of_filter. tauto. Qed.

Lemma elem_keys_remove k k' d : k' ∈ keys (remove k d) ↔ k' ∈ keys d ∧ k' ≠ k.
Proof. rewrite keys_remove, list_elem_of_filter. tauto. Qed.

Lemma wf_remove k d : wf d → wf (remove k d).
Proof. unfold wf. rewrite keys_remove. apply NoDup_filter. Qed.

Lemma remove_absent k d : k ∉ keys d → remove k d = d.
Proof.
  unfold remove, keys. induction d as [|[k0 a0] d IH]; [done|].
  rewrite fmap_cons, not_elem_of_cons. intros [Hne Hd].
  rewrite filter_cons. simpl. rewrite decide_True by done. by rewrite IH.
Qed.

Lemma get_remove_ne k k' d : k ≠ k' → get k' (remove k d) = get k' d.
Proof.
  intros Hne. unfold remove. induction d as [|[k0 a0] d IH]; [done|].
  rewrite filter_cons. simpl. case_decide; simpl.
  - case_decide; [done | apply IH].
  - subst. rewrite decide_False by done. apply IH.
Qed.

Lemma get_remove_eq k d : get k (remove k d) = None.
Proof. apply get_None_keys. rewrite elem_keys_remove. tauto. Qed.

Lemma del_Some k d d' : del k d = Some d' ↔ k ∈ keys d ∧ d' = remove k d.
Proof.
  unfold del. destruct (mem k d) eqn:E.
  - apply mem_keys in E. split; [intros [= <-]; done | intros [_ ->]; done].
  - apply mem_false_keys in E. split; [done | tauto].
Qed.

Lemma del_None k d : del k d = None ↔ k ∉ keys d.
Proof.
  unfold del. destruct (mem k d) eqn:E.
  - apply mem_keys in E. split; [done | tauto].
  - apply mem_false_keys in E. tauto.
Qed.

(** *** [setdefault] *)

Lemma setdefault_present k a d : k ∈ keys d → setdefault k a d = d.
Proof. intros Hk%mem_keys. unfold setdefault. by rewrite Hk. Qed.

Lemma setdefault_absent k a d : k ∉ keys d → setdefault k a d = d ++ [(k, a)].
Proof. intros Hk%mem_false_keys. unfold setdefault. by rewrite Hk. Qed.

Lemma elem_keys_setdefault k k' a d :
  k' ∈ keys (setdefault k a d) ↔ k' = k ∨ k' ∈ keys d.
Proof.
  destruct (decide (k ∈ keys d)) as [Hk|Hk].
  - rewrite setdefault_present by done. split; [by right | intros [->|]; done].
  - rewrite setdefault_absent by done. unfold keys.
    rewrite fmap_app, elem_of_app. simpl. rewrite list_elem_of_singleton. tauto.
Qed.

Lemma get_app_l k d d' : k ∈ keys d → get k (d ++ d') = get k d.
Proof.
  unfold keys. induction d as [|[k0 a0] d IH]; simpl.
  - intros Hin. by apply elem_of_nil in Hin.
  - intros Hin. case_decide; [done|].
    apply elem_of_cons in Hin as [?|?]; [done | by apply IH].
Qed.

Lemma get_app_r k d d' : k ∉ keys d → get k (d ++ d') = get k d'.
Proof.
  unfold keys. induction d as [|[k0 a0] d IH]; simpl; [done|].
  rewrite not_elem_of_cons. intros [? ?]. rewrite decide_False by done. auto.
Qed.

Lemma get_setdefault k k' a d :
  get k' (setdefault k a d) =
    match get k' d with
    | Some x => Some x
    | None => if decide (k' = k) then Some a else None
    end.
Proof.
  destruct (decide (k ∈ keys d)) as [Hk|Hk].
  - rewrite setdefault_present by done.
    destruct (get k' d) eqn:E; [done|].
    rewrite decide_False; [done|]. intros ->.
    by apply get_None_keys in E.
  - rewrite setdefault_absent by done.
    destruct (get k' d) eqn:E.
    + rewrite get_app_l, E; [done|]. apply get_Some_elem in E.
      by eapply elem_keys.
    + rewrite get_app_r by (by apply get_None_keys). simpl.
      by destruct (decide (k' = k)).
Qed.

Lemma wf_setdefault k a d : wf d → wf (setdefault k a d).
Proof.
  intros Hd. destruct (decide (k ∈ keys d)) as [Hk|Hk].
  - by rewrite setdefault_present.
  - rewrite setdefault_absent by done. unfold wf, keys in *.
    rewrite fmap_app. apply NoDup_app. split; [done|].
    split; [|apply NoDup_singleton].
    intros x Hx ->%list_elem_of_singleton. done.
Qed.
End Facts.
End PyDictFacts.

(** ** The graph store *)

Section Store.
Context {V : Type} `{PyVertex V} {D : Type}.
Implicit Types (g : DirectedGraph V D) (u v s d : V) (w : weight).

Import PyDictFacts.

Lemma elem_edges g s d w :
  (s, d, w) ∈ edges g ↔
  ∃ inc, (s, inc) ∈ outgoing_edges g ∧ (d, w) ∈ inc.
Proof.
  unfold edges. rewrite list_elem_of_bind. split.
  - intros ([s' inc] & Hin & Hs). simpl in Hin.
    apply list_elem_of_fmap in Hin as ([d' w'] & [= -> -> ->] & Hin).
    eauto.
  - intros (inc & Hs & Hin). exists (s, inc). split; [|done].
    simpl. apply list_elem_of_fmap. by exists (d, w).
Qed.

Lemma edges_app (oe1 oe2 : list (V * list (V * weight))) (vd vd' vd'' : list (V * option D)) :
  edges {| outgoing_edges := oe1 ++ oe2; vertex_data := vd |} =
  edges {| outgoing_edges := oe1; vertex_data := vd' |} ++
  edges {| outgoing_edges := oe2; vertex_data := vd'' |}.
Proof. unfold edges. simpl. apply bind_app. Qed.

Lemma edges_adj g s d w :
  dicts_wf g → (s, d, w) ∈ edges g ↔ PyDict.get d (adj g s) = Some w.
Proof.
  intros (Hoe & _ & Hinc). rewrite elem_edges. unfold adj. split.
  - intros (inc & Hs & Hin).
    rewrite (elem_get _ _ _ Hoe Hs). simpl.
    apply elem_get; [|done].
    rewrite Forall_forall in Hinc. apply (Hinc _ Hs).
  - destruct (PyDict.get s (outgoing_edges g)) as [inc|] eqn:E; simpl; [|done].
    intros Hin. exists inc. split; by apply get_Some_elem.
Qed.

Lemma has_edge_adj g u v :
  dicts_wf g → has_edge g u v ↔ v ∈ PyDict.keys (adj g u).
Proof.
  intros Hwf. unfold has_edge. split.
  - intros [w Hw]. apply (edges_adj _ _ _ _ Hwf) in Hw.
    apply get_Some_elem in Hw. by eapply elem_keys.
  - intros [w Hw]%keys_elem. exists w. apply edges_adj; [done|].
    apply elem_get; [|done].
    destruct Hwf as (_ & _ & Hinc). unfold adj.
    destruct (PyDict.get u (outgoing_edges g)) as [inc|] eqn:E; simpl.
    + rewrite Forall_forall in Hinc. apply (Hinc (u, inc)).
      by apply get_Some_elem.
    + apply NoDup_nil_2.
Qed.

(** *** Subscripting the [defaultdict] *)

Lemma adj_touch g u v : adj (touch g u) v = adj g v.
Proof.
  unfold adj, touch. simpl. rewrite get_setdefault.
  destruct (PyDict.get v (outgoing_edges g)); [done|].
  by case_decide.
Qed.

Lemma only_touched_refl g : only_touched g g.
Proof. split; [done|]. exists []. by rewrite app_nil_r. Qed.

Lemma only_touched_trans g1 g2 g3 :
  only_touched g1 g2 → only_touched g2 g3 → only_touched g1 g3.
Proof.
  intros [Hv1 [ks1 H1]] [Hv2 [ks2 H2]]. split; [congruence|].
  exists (ks1 ++ ks2). rewrite H2, H1, fmap_app. by rewrite app_assoc.
Qed.

Lemma only_touched_touch g u : only_touched g (touch g u).
Proof.
  split; [done|]. unfold touch. simpl.
  destruct (decide (u ∈ PyDict.keys (outgoing_edges g))).
  - rewrite setdefault_present by done. exists []. by rewrite app_nil_r.
  - rewrite setdefault_absent by done. by exists [u].
Qed.

Lemma only_touched_step g1 g2 u :
  only_touched g1 g2 → only_touched g1 (touch g2 u).
Proof. intros. eapply only_touched_trans; [done | apply only_touched_touch]. Qed.

Lemma only_touched_edges g g' : only_touched g g' → edges g' = edges g.
Proof.
  intros [_ [ks Hks]]. unfold edges. rewrite Hks, bind_app.
  rewrite <- (app_nil_r (_ ≫= _)) at 2. f_equal.
  clear. induction ks as [|k ks IH]; [done|]. by csimpl.
Qed.

Lemma only_touched_vertices g g' : only_touched g g' → vertices g' = vertices g.
Proof. intros [Hv _]. unfold vertices. by rewrite Hv. Qed.

Lemma only_touched_adj g g' v : only_touched g g' → adj g' v = adj g v.
Proof.
  intros [_ [ks Hks]]. unfold adj. rewrite Hks.
  destruct (decide (v ∈ PyDict.keys (outgoing_edges g))) as [Hin|Hin].
  - by rewrite get_app_l.
  - rewrite get_app_r by done.
    apply get_None_keys in Hin. rewrite Hin. simpl.
    clear. induction ks as [|k ks IH]; [done|]. csimpl.
    by case_decide.
Qed.

Lemma dicts_wf_touch g u : dicts_wf g → dicts_wf (touch g u).
Proof.
  intros (Hoe & Hvd & Hinc). split_and!; simpl; [by apply wf_setdefault|done|].
  destruct (decide (u ∈ PyDict.keys (outgoing_edges g))).
  - by rewrite setdefault_present.
  - rewrite setdefault_absent by done. apply Forall_app. split; [done|].
    apply Forall_singleton. apply NoDup_nil_2.
Qed.

(** *** [add_vertex] and [add_edge] *)

Lemma edges_add_vertex v value g : edges (add_vertex v value g) = edges g.
Proof. done. Qed.

Lemma vertices_add_vertex v value g u :
  u ∈ vertices (add_vertex v value g) ↔ u = v ∨ u ∈ vertices g.
Proof. unfold vertices, add_vertex. simpl. apply elem_keys_set. Qed.

Lemma vertices_add_edge u v w g x :
  x ∈ vertices (add_edge u v w g) ↔ x = u ∨ x = v ∨ x ∈ vertices g.
Proof.
  unfold vertices, add_edge. simpl.
  rewrite !elem_keys_setdefault. tauto.
Qed.

Lemma elem_edges_add_edge u v w g s d w' :
  (s, d, w') ∈ edges (add_edge u v w g) →
  (s, d, w') = (u, v, w) ∨ (s, d, w') ∈ edges g.
Proof.
  rewrite elem_edges. unfold add_edge. simpl.
  intros (inc & Hs & Hin).
  apply elem_set_inv in Hs as [[= -> ->]|Hs].
  - apply elem_set_inv in Hin as [[= -> ->]|Hin]; [by left|].
    right. apply elem_edges. unfold adj in Hin.
    destruct (PyDict.get u (outgoing_edges g)) as [inc|] eqn:E; simpl in Hin.
    + exists inc. split; [by apply get_Some_elem | done].
    + by apply elem_of_nil in Hin.
  - right. apply elem_edges. eauto.
Qed.

Lemma add_edge_payload u v w g x :
  PyDict.get x (vertex_data (add_edge u v w g)) =
    match PyDict.get x (vertex_data g) with
    | Some value => Some value
    | None => if decide (x = u ∨ x = v) then Some None else None
    end.
Proof.
  unfold add_edge. simpl. rewrite !get_setdefault.
  destruct (PyDict.get x (vertex_data g)); [done|].
  repeat case_decide; try done; tauto.
Qed.

Lemma dicts_wf_add_vertex v value g : dicts_wf g → dicts_wf (add_vertex v value g).
Proof. intros (? & ? & ?). split_and!; simpl; [done| by apply wf_set | done]. Qed.

Lemma Forall_set {A} (P : V * A → Prop) k a (l : list (V * A)) :
  Forall P l → P (k, a) → Forall P (PyDict.set k a l).
Proof.
  rewrite !Forall_forall. intros Hl Hk e [->|He]%elem_set_inv; auto.
Qed.

Lemma wf_adj g u : dicts_wf g → PyDict.wf (adj g u).
Proof.
  intros (_ & _ & Hinc). unfold adj.
  destruct (PyDict.get u (outgoing_edges g)) as [inc|] eqn:E; simpl.
  - rewrite Forall_forall in Hinc. apply (Hinc (u, inc)).
    by apply get_Some_elem.
  - apply NoDup_nil_2.
Qed.

Lemma dicts_wf_add_edge u v w g : dicts_wf g → dicts_wf (add_edge u v w g).
Proof.
  intros Hwf. pose proof (wf_adj g u Hwf). destruct Hwf as (? & ? & ?).
  split_and!; simpl.
  - by apply wf_set.
  - by do 2 apply wf_setdefault.
  - apply Forall_set; [done|]. simpl. by apply wf_set.
Qed.

(** *** [remove_vertex] *)

Lemma drop_incoming_remove v (inc : list (V * weight)) :
  drop_incoming v inc = PyDict.remove v inc.
Proof.
  unfold drop_incoming.
  assert (Hgen : ∀ ks (acc : list (V * weight)),
    foldl (λ inc0 destination,
             if decide (destination = v) then PyDict.remove destination inc0
             else inc0) acc ks =
    if decide (v ∈ ks) then PyDict.remove v acc else acc).
  { induction ks as [|k ks IH]; intros acc; cbn [foldl].
    - rewrite decide_False; [done | apply not_elem_of_nil].
    - rewrite IH. destruct (decide (k = v)) as [->|Hne].
      + rewrite (decide_True (P := v ∈ v :: ks)) by left.
        case_decide; [|done].
        apply remove_absent. rewrite elem_keys_remove. tauto.
      + destruct (decide (v ∈ ks)).
        * rewrite decide_True; [done | by right].
        * rewrite decide_False; [done|].
          intros [?|?]%elem_of_cons; congruence. }
  rewrite Hgen. case_decide as Hin; [done|].
  symmetry. by apply remove_absent.
Qed.

(** [remove_vertex] returns exactly when [v] has an adjacency entry and
    a payload entry. *)
Lemma remove_vertex_returns v g :
  (remove_vertex v g).1 = Return tt ↔
  v ∈ PyDict.keys (outgoing_edges g) ∧ v ∈ vertices g.
Proof.
  unfold remove_vertex, vertices.
  destruct (PyDict.del v (outgoing_edges g)) eqn:E1.
  - apply del_Some in E1 as [? _].
    destruct (PyDict.del v (vertex_data g)) eqn:E2; simpl.
    + apply del_Some in E2 as [? _]. tauto.
    + apply del_None in E2. split; [done | tauto].
  - apply del_None in E1. simpl. split; [done | tauto].
Qed.

Lemma remove_vertex_raises v g :
  (remove_vertex v g).1 = Raise (KeyError v) ↔
  ¬ (v ∈ PyDict.keys (outgoing_edges g) ∧ v ∈ vertices g).
Proof.
  rewrite <- remove_vertex_returns. unfold remove_vertex.
  destruct (PyDict.del v (outgoing_edges g)); [|done].
  by destruct (PyDict.del v (vertex_data g)).
Qed.

(** The edges that [remove_vertex] leaves, whether it returns or raises,
    are edges of [g] that do not touch [v], unless it raises at once. *)
Lemma remove_vertex_edges v g s d w :
  (s, d, w) ∈ edges (remove_vertex v g).2 →
  (s, d, w) ∈ edges g ∧
  (v ∈ PyDict.keys (outgoing_edges g) → s ≠ v ∧ d ≠ v).
Proof.
  unfold remove_vertex.
  destruct (PyDict.del v (outgoing_edges g)) as [oe|] eqn:E1.
  - apply del_Some in E1 as [Hv ->].
    assert (Hgoal : ∀ vd : list (V * option D),
      (s, d, w) ∈ edges {| outgoing_edges :=
          (λ e, (e.1, drop_incoming v e.2)) <$> PyDict.remove v (outgoing_edges g);
          vertex_data := vd |} →
      (s, d, w) ∈ edges g ∧ s ≠ v ∧ d ≠ v).
    { intros vd. rewrite !elem_edges. simpl.
      intros (inc & Hs & Hin).
      apply list_elem_of_fmap in Hs as ([s' inc'] & [= -> ->] & Hs).
      simpl in *. rewrite drop_incoming_remove in Hin.
      apply elem_remove in Hs as [Hs Hne]. apply elem_remove in Hin as [Hin Hne'].
      simpl in *. split; [eauto | done]. }
    destruct (PyDict.del v (vertex_data g)); simpl; intros Hin;
      apply Hgoal in Hin; tauto.
  - apply del_None in E1. simpl. tauto.
Qed.

Lemma remove_vertex_vertices v g u :
  u ∈ vertices (remove_vertex v g).2 ↔
  u ∈ vertices g ∧ ((remove_vertex v g).1 = Return tt → u ≠ v).
Proof.
  unfold remove_vertex, vertices.
  destruct (PyDict.del v (outgoing_edges g)) as [oe|] eqn:E1; simpl.
  - destruct (PyDict.del v (vertex_data g)) as [vd|] eqn:E2; simpl.
    + apply del_Some in E2 as [? ->]. rewrite elem_keys_remove. tauto.
    + split; [|tauto]. intros; split; [done | congruence].
  - split; [|tauto]. intros; split; [done | congruence].
Qed.

(** What a successful [remove_vertex] establishes. *)
Lemma remove_vertex_spec v g :
  v ∈ PyDict.keys (outgoing_edges g) → v ∈ vertices g →
  (remove_vertex v g).1 = Return tt ∧
  (v ∉ vertices (remove_vertex v g).2) ∧
  (∀ s d w, (s, d, w) ∈ edges (remove_vertex v g).2 → s ≠ v ∧ d ≠ v).
Proof.
  intros Hoe Hvd.
  assert (Hret : (remove_vertex v g).1 = Return tt)
    by (by apply remove_vertex_returns).
  split_and!; [done | |].
  - rewrite remove_vertex_vertices. tauto.
  - intros s d w Hin. apply remove_vertex_edges in Hin. tauto.
Qed.

(** *** [remove_edge] *)

Lemma remove_edge_raises u v g :
  (remove_edge u v g).1 = Raise (NoSuchEdge u v) ↔
  v ∉ PyDict.keys (adj g u).
Proof.
  unfold remove_edge. destruct (PyDict.del v (adj g u)) eqn:E; simpl.
  - apply del_Some in E as [? _]. split; [done | tauto].
  - apply del_None in E. tauto.
Qed.

Lemma remove_edge_returns u v g :
  (remove_edge u v g).1 = Return tt ↔ v ∈ PyDict.keys (adj g u).
Proof.
  unfold remove_edge. destruct (PyDict.del v (adj g u)) eqn:E; simpl.
  - apply del_Some in E as [? _]. tauto.
  - apply del_None in E. split; [done | tauto].
Qed.

Lemma remove_edge_failed u v g :
  v ∉ PyDict.keys (adj g u) → (remove_edge u v g).2 = touch g u.
Proof.
  intros Hv%del_None. unfold remove_edge. by rewrite Hv.
Qed.

Lemma elem_edges_remove_edge u v g s d w :
  (s, d, w) ∈ edges (remove_edge u v g).2 → (s, d, w) ∈ edges g.
Proof.
  unfold remove_edge. destruct (PyDict.del v (adj g u)) as [inc|] eqn:E; simpl.
  - apply del_Some in E as [Hv ->]. rewrite !elem_edges. simpl.
    intros (inc & Hs & Hin).
    apply elem_set_inv in Hs as [[= -> ->]|Hs]; [|eauto].
    apply elem_remove in Hin as [Hin _]. unfold adj in Hin.
    destruct (PyDict.get u (outgoing_edges g)) as [inc|] eqn:E; simpl in Hin.
    + exists inc. split; [by apply get_Some_elem | done].
    + by apply elem_of_nil in Hin.
  - by rewrite (only_touched_edges _ _ (only_touched_touch g u)).
Qed.

Lemma vertices_remove_edge u v g : vertices (remove_edge u v g).2 = vertices g.
Proof. unfold remove_edge. by destruct (PyDict.del v (adj g u)). Qed.

End Store.

(** ** What the reading operations leave behind *)

Create HintDb touched.

Section Frame.
Context {V : Type} `{PyVertex V} {D : Type}.
Implicit Types (g : DirectedGraph V D) (u v : V).

Lemma touched_refl g : touched g g.
Proof. apply rtc_refl. Qed.

Lemma touched_trans g1 g2 g3 : touched g1 g2 → touched g2 g3 → touched g1 g3.
Proof. unfold touched. intros. by etrans. Qed.

Lemma touched_touch g u : touched g (touch g u).
Proof. apply rtc_once. by exists u. Qed.

Lemma touched_step g1 g2 u : touched g1 g2 → touched g1 (touch g2 u).
Proof. intros. eapply rtc_r; [done | by exists u]. Qed.

Lemma touched_only_touched g g' : touched g g' → only_touched g g'.
Proof.
  induction 1 as [|g1 g2 g3 [u ->] _ IH]; [apply only_touched_refl|].
  eapply only_touched_trans; [apply only_touched_touch | done].
Qed.

Lemma touched_dicts_wf g g' : touched g g' → dicts_wf g → dicts_wf g'.
Proof.
  induction 1 as [|g1 g2 g3 [u ->] _ IH]; [done|].
  intros Hwf. by apply IH, dicts_wf_touch.
Qed.

Local Hint Resolve touched_refl touched_touch touched_step : touched.

Lemma bfs_node_touches g (visited : gset V) next current :
  touched g (foldl bfs_node (g, visited, next) current).1.1.
Proof.
  assert (Hgen : ∀ st : DirectedGraph V D * gset V * list V,
            touched g st.1.1 →
            touched g (foldl bfs_node st current).1.1).
  { induction current as [|x current IH]; intros st Hst; [done|].
    simpl. apply IH. simpl. auto with touched. }
  apply Hgen. simpl. auto with touched.
Qed.

Lemma bfs_levels_touches fuel g visited current r :
  bfs_levels fuel g visited current = Some r → touched g r.2.
Proof.
  revert g visited current.
  induction fuel as [|fuel IH]; intros g visited current;
    destruct current as [|x current]; simpl; try done.
  - intros [= <-]. auto with touched.
  - intros [= <-]. auto with touched.
  - intros Hr. apply IH in Hr.
    eapply touched_trans; [|exact Hr].
    apply (bfs_node_touches g visited [] (x :: current)).
Qed.

Lemma bfsq_loop_touches fuel g visited queue r :
  bfsq_loop fuel g visited queue = Some r → touched g r.2.
Proof.
  revert g visited queue.
  induction fuel as [|fuel IH]; intros g visited queue;
    destruct queue as [|x queue]; simpl; try done.
  - intros [= <-]. auto with touched.
  - intros [= <-]. auto with touched.
  - intros Hr. apply IH in Hr.
    eapply touched_trans; [|exact Hr]. auto with touched.
Qed.

Lemma dfsi_loop_touches fuel g visited stack r :
  dfsi_loop fuel g visited stack = Some r → touched g r.2.
Proof.
  revert g visited stack.
  induction fuel as [|fuel IH]; intros g visited stack;
    destruct stack as [|x stack]; simpl; try done.
  - intros [= <-]. auto with touched.
  - intros [= <-]. auto with touched.
  - intros Hr. apply IH in Hr.
    eapply touched_trans; [|exact Hr]. auto with touched.
Qed.

Lemma dfs_visit_touches depth v (st : gset V * DirectedGraph V D) :
  touched st.2 (dfs_visit depth v st).2.
Proof.
  revert v st. induction depth as [|depth IH]; intros v st; simpl;
    [auto with touched|].
  assert (Hgen : ∀ nbrs (acc : outcome (gset V) * DirectedGraph V D),
    touched st.2 acc.2 →
    touched st.2
      (foldl (λ acc neighbor,
                match acc.1 with
                | Raise _ => acc
                | Return visited =>
                    if decide (neighbor ∈ visited) then acc
                    else dfs_visit depth neighbor (visited, acc.2)
                end) acc nbrs).2).
  { induction nbrs as [|y nbrs IHn]; intros acc Hacc; simpl; [done|].
    apply IHn. destruct acc.1 as [visited|]; [|done].
    case_decide; [done|].
    eapply touched_trans; [exact Hacc|]. apply (IH y (visited, acc.2)). }
  apply Hgen. simpl. auto with touched.
Qed.

Lemma spb_loop_touches fuel end_ g visited queue backtracks r :
  spb_loop fuel end_ g visited queue backtracks = Some r →
  touched g r.2.
Proof.
  revert g visited queue backtracks.
  induction fuel as [|fuel IH]; intros g visited queue backtracks;
    destruct queue as [|x queue]; simpl; try done.
  - intros [= <-]. auto with touched.
  - intros [= <-]. auto with touched.
  - destruct (spb_scan _ _ _ _) as [[[visited' queue'] backtracks'] []]; simpl.
    + intros [= <-]. simpl. auto with touched.
    + intros Hr. apply IH in Hr.
      eapply touched_trans; [|exact Hr]. auto with touched.
Qed.

Lemma dijkstra_loop_touches fuel g distances backtracks visited min_heap r :
  dijkstra_loop fuel g distances backtracks visited min_heap = Some r →
  touched g r.2.
Proof.
  revert g distances backtracks visited min_heap.
  induction fuel as [|fuel IH]; intros g distances backtracks visited min_heap;
    destruct min_heap as [|[sd src] min_heap]; simpl; try done.
  - intros [= <-]. auto with touched.
  - intros [= <-]. auto with touched.
  - destruct (foldl _ _ _) as [s|e].
    + intros Hr. apply IH in Hr.
      eapply touched_trans; [|exact Hr]. auto with touched.
    + intros [= <-]. simpl. auto with touched.
Qed.

(** Every reading operation leaves the graph it found, up to empty
    adjacency entries appended to [outgoing_edges]. *)
Lemma run_read_touches fuel (op : read_op V) g g' :
  run_read fuel op g = Some g' → touched g g'.
Proof.
  destruct op; simpl.
  - unfold breadth_first_search.
    destruct (bfs_levels _ _ _ _) as [r|] eqn:E; [|done].
    intros [= <-]. by eapply bfs_levels_touches.
  - unfold breadth_first_search_queue.
    destruct (bfsq_loop _ _ _ _) as [r|] eqn:E; [|done].
    intros [= <-]. by eapply bfsq_loop_touches.
  - intros [= <-]. unfold depth_first_search.
    apply (dfs_visit_touches fuel v (default ∅ visited, g)).
  - unfold depth_first_search_iterate.
    destruct (dfsi_loop _ _ _ _) as [r|] eqn:E; [|done].
    intros [= <-]. by eapply dfsi_loop_touches.
  - unfold find_shortest_path_bfs.
    destruct (spb_loop _ _ _ _ _ _) as [r|] eqn:E; [|done]. simpl.
    destruct (construct_path _ _ _ _); [|done].
    intros [= <-]. by eapply spb_loop_touches.
  - unfold find_shortest_path_dijkstra.
    destruct (dijkstra_loop _ _ _ _ _ _) as [r|] eqn:E; [|done]. simpl.
    apply dijkstra_loop_touches in E.
    destruct r.1; [|by intros [= <-]].
    destruct (construct_path _ _ _ _); [|done].
    by intros [= <-].
  - unfold find_shortest_path_bellman_ford.
    destruct (bellman_ford_passes _ _).
    + destruct (construct_path _ _ _ _); [|done].
      intros [= <-]. auto with touched.
    + intros [= <-]. auto with touched.
  - intros [= <-]. unfold incident_edges.
    repeat case_match; simpl; auto with touched.
  - intros [= <-]. unfold edge_weight.
    case_match; simpl; auto with touched.
  - intros [= <-]. auto with touched.
  - intros [= <-]. auto with touched.
  - intros [= <-]. auto with touched.
  - intros [= <-]. auto with touched.
Qed.

(** The same, by what the graph holds. *)
Lemma run_read_touched fuel (op : read_op V) g g' :
  run_read fuel op g = Some g' → only_touched g g'.
Proof. intros. by eapply touched_only_touched, run_read_touches. Qed.

Lemma bfs_node_touched g (visited : gset V) next current :
  only_touched g (foldl bfs_node (g, visited, next) current).1.1.
Proof. apply touched_only_touched, bfs_node_touches. Qed.

Lemma dfs_visit_touched depth v (st : gset V * DirectedGraph V D) :
  only_touched st.2 (dfs_visit depth v st).2.
Proof. apply touched_only_touched, dfs_visit_touches. Qed.

End Frame.

(** ** The four traversals compute the reachable set *)

Section Traversal.
Context {V : Type} `{PyVertex V} {D : Type}.
Variable g0 : DirectedGraph V D.
Variable v0 : V.

Import PyDictFacts.

Local Abbreviation nb x := (PyDict.keys (adj g0 x)).
Local Abbreviation R := (rtc (λ a b : V, b ∈ nb a) v0).
Local Abbreviation U := (universe g0 v0).

Lemma nb_universe x y : y ∈ nb x → y ∈ U.
Proof.
  unfold adj, universe. intros Hy. apply elem_of_union_r, elem_of_list_to_set.
  destruct (PyDict.get x (outgoing_edges g0)) as [inc|] eqn:E; simpl in Hy.
  - apply list_elem_of_bind. exists (x, inc). split; [done|].
    by apply get_Some_elem.
  - by apply elem_of_nil in Hy.
Qed.

Lemma v0_universe : v0 ∈ U.
Proof. unfold universe. set_solver. Qed.

(** A set that holds [v0] and is closed under the edges holds every
    reachable vertex. *)
Lemma closed_reach (S : gset V) :
  v0 ∈ S → (∀ x y, x ∈ S → y ∈ nb x → y ∈ S) → ∀ x, R x → x ∈ S.
Proof.
  intros Hv Hcl. apply (rtc_ind_r (λ x, x ∈ S)); [done|]. eauto.
Qed.

Lemma size_universe_step (X : gset V) y :
  y ∈ U → y ∉ X → (size (U ∖ (X ∪ {[y]})) < size (U ∖ X))%nat.
Proof.
  intros HU HX. apply subset_size. split; [set_solver|].
  intros Hsub. specialize (Hsub y). set_solver.
Qed.

Lemma size_universe_mono (X Y : gset V) :
  X ⊆ Y → (size (U ∖ Y) ≤ size (U ∖ X))%nat.
Proof. intros. apply subseteq_size. set_solver. Qed.

(** *** [breadth_first_search_queue] *)

Lemma bfsq_scan_spec nbrs (visited : gset V) (queue : list V) :
  (∀ y, y ∈ nbrs → y ∈ U) →
  let st := bfsq_scan (visited, queue) nbrs in
  (∀ x, x ∈ st.1 ↔ x ∈ visited ∨ x ∈ nbrs) ∧
  (∀ x, x ∈ st.2 → x ∈ queue ∨ (x ∈ nbrs ∧ x ∉ visited)) ∧
  (∀ x, x ∈ st.1 → x ∈ visited ∨ x ∈ st.2) ∧
  (∀ x, x ∈ queue → x ∈ st.2) ∧
  (2 * size (U ∖ st.1) + length st.2 ≤
     2 * size (U ∖ visited) + length queue)%nat.
Proof.
  unfold bfsq_scan. revert visited queue.
  induction nbrs as [|y nbrs IH]; intros visited queue HU; simpl.
  - split_and!; [set_solver.. | lia].
  - assert (HU' : ∀ y, y ∈ nbrs → y ∈ U) by (intros; apply HU; by right).
    case_decide as Hy; simpl.
    + destruct (IH visited queue HU') as (I1 & I2 & I3 & I4 & I5).
      split_and!; [| | done | done | done].
      * intros x. rewrite I1. set_solver.
      * intros x [?|[? ?]]%I2; set_solver.
    + destruct (IH (visited ∪ {[y]}) (queue ++ [y]) HU')
        as (I1 & I2 & I3 & I4 & I5).
      split_and!.
      * intros x. rewrite I1. set_solver.
      * intros x [?|[? ?]]%I2; set_solver.
      * intros x [[?|?]%elem_of_union|?]%I3; [by left| |by right].
        right. apply I4. set_solver.
      * intros x Hx. apply I4. set_solver.
      * pose proof (size_universe_step visited y (HU y ltac:(left)) Hy).
        rewrite length_app in I5. simpl in I5. lia.
Qed.

Lemma bfsq_loop_spec n : ∀ g (visited : gset V) (queue : list V),
  only_touched g0 g →
  v0 ∈ visited →
  (∀ x, x ∈ queue → x ∈ visited) →
  (∀ x, x ∈ visited → R x) →
  (∀ x y, x ∈ visited → y ∈ nb x → x ∈ queue ∨ y ∈ visited) →
  (2 * size (U ∖ visited) + length queue ≤ n)%nat →
  ∃ r, bfsq_loop n g visited queue = Some r ∧ ∀ x, x ∈ r.1 ↔ R x.
Proof.
  induction n as [|n IH]; intros g visited queue Hg Hv Hq Hr Hcl Hn;
    destruct queue as [|node queue]; simpl in *; try lia.
  - exists (visited, g). split; [done|]. simpl. intros x. split; [auto|].
    apply closed_reach; [done|]. intros a b Ha Hb.
    destruct (Hcl a b Ha Hb) as [Hnil|]; [|done]. by apply elem_of_nil in Hnil.
  - exists (visited, g). split; [done|]. simpl. intros x. split; [auto|].
    apply closed_reach; [done|]. intros a b Ha Hb.
    destruct (Hcl a b Ha Hb) as [Hnil|]; [|done]. by apply elem_of_nil in Hnil.
  - rewrite (only_touched_adj _ _ node Hg).
    destruct (bfsq_scan_spec (nb node) visited queue)
      as (I1 & I2 & I3 & I4 & I5); [apply nb_universe|].
    apply IH.
    + by apply only_touched_step.
    + apply I1. by left.
    + intros x [?|[? ?]]%I2; apply I1; [|by right].
      left. apply Hq. by right.
    + intros x [?|?]%I1; [auto|].
      eapply rtc_r; [apply (Hr node), Hq; left | done].
    + intros x y [Hx|Hx]%I1 Hy.
      * destruct (Hcl x y Hx Hy) as [[->|?]%elem_of_cons|?].
        -- right. apply I1. by right.
        -- left. by apply I4.
        -- right. apply I1. by left.
      * destruct (decide (x ∈ visited)) as [Hxv|Hxv].
        -- destruct (Hcl x y Hxv Hy) as [[->|?]%elem_of_cons|?].
           ++ right. apply I1. by right.
           ++ left. by apply I4.
           ++ right. apply I1. by left.
        -- left. destruct (I3 x) as [?|?]; [apply I1; by right|done|done].
    + lia.
Qed.

Lemma reach_universe x : R x → x ∈ U.
Proof.
  intros Hx. destruct (rtc_inv_r _ _ Hx) as [<-|(y & _ & Hy)].
  - apply v0_universe.
  - by eapply nb_universe.
Qed.

Lemma size_universe_lt (P Y : gset V) x :
  P ⊆ Y → x ∈ Y → x ∈ U → x ∉ P → (size (U ∖ Y) < size (U ∖ P))%nat.
Proof.
  intros HPY HxY HxU HxP. apply subset_size. split; [set_solver|].
  intros Hsub. specialize (Hsub x). set_solver.
Qed.

(** *** [breadth_first_search] *)

Lemma bfs_scan_spec nbrs (visited : gset V) (next : list V) x :
  x ∈ bfs_scan visited next nbrs ↔ x ∈ next ∨ (x ∈ nbrs ∧ x ∉ visited).
Proof.
  unfold bfs_scan. revert next.
  induction nbrs as [|y nbrs IH]; intros next; simpl.
  - set_solver.
  - rewrite IH. case_decide; set_solver.
Qed.

Lemma bfs_node_spec current : ∀ (st : DirectedGraph V D * gset V * list V),
  only_touched g0 st.1.1 →
  let st' := foldl bfs_node st current in
  (∀ x, x ∈ st'.1.2 ↔ x ∈ st.1.2 ∨ x ∈ current) ∧
  (∀ y, y ∈ st'.2 →
     y ∈ st.2 ∨ ∃ x, x ∈ current ∧ y ∈ nb x ∧ y ∉ st.1.2) ∧
  (∀ y, y ∈ st.2 → y ∈ st'.2) ∧
  (∀ x y, x ∈ current → y ∈ nb x → y ∈ st'.1.2 ∨ y ∈ st'.2).
Proof.
  induction current as [|node current IH]; intros st Hg; simpl.
  - split_and!; [set_solver.. |].
    intros x y Hx. by apply elem_of_nil in Hx.
  - destruct (IH (bfs_node st node)) as (I1 & I2 & I3 & I4).
    { simpl. by apply only_touched_step. }
    assert (E1 : (bfs_node st node).1.2 = st.1.2 ∪ {[node]}) by done.
    assert (E2 : (bfs_node st node).2 =
                 bfs_scan (st.1.2 ∪ {[node]}) st.2 (nb node)).
    { unfold bfs_node. simpl. by rewrite (only_touched_adj _ _ node Hg). }
    cbv zeta in I1, I2, I3, I4. rewrite E1 in I1, I2. rewrite E2 in I2, I3.
    split_and!.
    + intros x. rewrite I1. set_solver.
    + intros y [Hy|(x & Hx & Hy & Hn)]%I2.
      * apply bfs_scan_spec in Hy as [?|[? ?]]; [by left|].
        right. exists node. split_and!; [left | done | set_solver].
      * right. exists x. split_and!; [by right | done | set_solver].
    + intros y Hy. apply I3, bfs_scan_spec. by left.
    + intros x y [->|Hx]%elem_of_cons Hy; [|by eapply I4].
      destruct (decide (y ∈ st.1.2 ∪ {[node]})) as [Hin|Hin].
      * left. apply I1. by left.
      * right. apply I3, bfs_scan_spec. by right.
Qed.

Lemma bfs_levels_spec n : ∀ g (visited : gset V) (current : list V)
    (P : gset V),
  only_touched g0 g →
  v0 ∈ visited ∨ v0 ∈ current →
  (∀ x, x ∈ visited ∨ x ∈ current → R x) →
  (∀ x y, x ∈ visited → y ∈ nb x → y ∈ visited ∨ y ∈ current) →
  P ⊆ visited →
  (∀ x, x ∈ current → x ∉ P) →
  (size (U ∖ P) + size (U ∖ visited) ≤ n)%nat →
  ∃ r, bfs_levels n g visited current = Some r ∧ ∀ x, x ∈ r.1 ↔ R x.
Proof.
  assert (Hdone : ∀ (g : DirectedGraph V D) (visited : gset V),
    v0 ∈ visited ∨ v0 ∈ [] →
    (∀ x, x ∈ visited ∨ x ∈ [] → R x) →
    (∀ x y, x ∈ visited → y ∈ nb x → y ∈ visited ∨ y ∈ []) →
    ∀ x, x ∈ (visited, g).1 ↔ R x).
  { intros g visited Hv Hr Hcl x. simpl. split; [auto|].
    apply closed_reach.
    - destruct Hv as [|Hnil]; [done | by apply elem_of_nil in Hnil].
    - intros a b Ha Hb.
      destruct (Hcl a b Ha Hb) as [|Hnil]; [done | by apply elem_of_nil in Hnil]. }
  induction n as [|n IH]; intros g visited current P Hg Hv Hr Hcl HP Hcur Hn;
    destruct current as [|node current].
  - exists (visited, g). split; [done | by apply Hdone].
  - exfalso.
    assert (size (U ∖ visited) < size (U ∖ P))%nat; [|lia].
    assert (node ∈ U) by (apply reach_universe, Hr; right; left).
    assert (size (U ∖ P) ≠ 0)%nat; [|lia].
    intros Hz%size_empty_inv. specialize (Hcur node ltac:(left)).
    specialize (Hz node). set_solver.
  - exists (visited, g). split; [done | by apply Hdone].
  - cbn [bfs_levels].
    destruct (bfs_node_spec (node :: current) (g, visited, []) Hg)
      as (I1 & I2 & I3 & I4).
    simpl in I1, I2, I3, I4.
    apply (IH _ _ _ visited).
    + apply (only_touched_trans _ g); [done|].
      apply (bfs_node_touched g visited [] (node :: current)).
    + left. apply I1. destruct Hv; [by left | by right].
    + intros x [Hx%I1|Hx%I2]; [by apply Hr|].
      destruct Hx as [Hnil|(a & Ha & Hx & _)]; [by apply elem_of_nil in Hnil|].
      eapply rtc_r; [apply (Hr a); by right | done].
    + intros x y [Hx|Hx]%I1 Hy; [|by eapply I4].
      left. apply I1. destruct (Hcl x y Hx Hy); [by left | by right].
    + intros x Hx. apply I1. by left.
    + intros y [Hnil|(a & _ & _ & Hy)]%I2; [by apply elem_of_nil in Hnil | done].
    + assert (size (U ∖ (foldl bfs_node (g, visited, []) (node :: current)).1.2)
              < size (U ∖ P))%nat; [|simpl in *; lia].
      apply (size_universe_lt _ _ node).
      * intros x Hx. apply I1. left. by apply HP.
      * apply I1. right. left.
      * apply reach_universe, Hr. right. left.
      * apply Hcur. left.
Qed.

(** *** [depth_first_search_iterate] *)

Lemma dfsi_scan_spec nbrs (visited : gset V) (stack : list V) x :
  x ∈ dfsi_scan visited stack nbrs ↔ x ∈ stack ∨ (x ∈ nbrs ∧ x ∉ visited).
Proof.
  unfold dfsi_scan. revert stack.
  induction nbrs as [|y nbrs IH]; intros stack; simpl.
  - set_solver.
  - rewrite IH. case_decide; set_solver.
Qed.

Lemma dfsi_scan_count nbrs (visited : gset V) (stack : list V) :
  length (filter (λ x, x ∈ visited) (dfsi_scan visited stack nbrs)) =
  length (filter (λ x, x ∈ visited) stack).
Proof.
  unfold dfsi_scan. revert stack.
  induction nbrs as [|y nbrs IH]; intros stack; simpl; [done|].
  rewrite IH. case_decide; [done|].
  rewrite filter_cons. by rewrite decide_False.
Qed.

Lemma dfsi_loop_spec a : ∀ b g (visited : gset V) (stack : list V),
  only_touched g0 g →
  v0 ∈ visited ∨ v0 ∈ stack →
  (∀ x, x ∈ visited ∨ x ∈ stack → R x) →
  (∀ x y, x ∈ visited → y ∈ nb x → y ∈ visited ∨ y ∈ stack) →
  size (U ∖ visited) = a →
  length (filter (λ x, x ∈ visited) stack) = b →
  ∃ n, ∀ fuel, (n ≤ fuel)%nat →
    ∃ r, dfsi_loop fuel g visited stack = Some r ∧ ∀ x, x ∈ r.1 ↔ R x.
Proof.
  induction a as [a IHa] using lt_wf_ind.
  induction b as [b IHb] using lt_wf_ind.
  intros g visited stack Hg Hv Hr Hcl Ha Hb.
  destruct stack as [|node stack].
  { exists 0%nat. intros fuel _. exists (visited, g).
    split; [by destruct fuel|]. simpl. intros x. split; [auto|].
    apply closed_reach.
    - destruct Hv as [|Hnil]; [done | by apply elem_of_nil in Hnil].
    - intros c d Hc Hd.
      destruct (Hcl c d Hc Hd) as [|Hnil]; [done | by apply elem_of_nil in Hnil]. }
  assert (Hnode : R node) by (apply Hr; right; left).
  assert (Hnext : ∃ n, ∀ fuel, (n ≤ fuel)%nat →
    ∃ r, dfsi_loop fuel (touch g node) (visited ∪ {[node]})
           (dfsi_scan (visited ∪ {[node]}) stack (nb node)) = Some r ∧
         ∀ x, x ∈ r.1 ↔ R x).
  { assert (Hv' : v0 ∈ visited ∪ {[node]} ∨
                  v0 ∈ dfsi_scan (visited ∪ {[node]}) stack (nb node)).
    { destruct Hv as [?|[->|?]%elem_of_cons].
      - left. set_solver.
      - left. set_solver.
      - right. apply dfsi_scan_spec. by left. }
    assert (Hr' : ∀ x, x ∈ visited ∪ {[node]} ∨
                  x ∈ dfsi_scan (visited ∪ {[node]}) stack (nb node) → R x).
    { intros x [[?| ->%elem_of_singleton]%elem_of_union|Hx]; [auto|done|].
      apply dfsi_scan_spec in Hx as [?|[? _]].
      - apply Hr. right. by right.
      - by eapply rtc_r. }
    assert (Hcl' : ∀ x y, x ∈ visited ∪ {[node]} → y ∈ nb x →
              y ∈ visited ∪ {[node]} ∨
              y ∈ dfsi_scan (visited ∪ {[node]}) stack (nb node)).
    { intros x y Hx Hy.
      destruct (decide (y ∈ visited ∪ {[node]})) as [|Hny]; [by left|].
      right. apply dfsi_scan_spec.
      apply elem_of_union in Hx as [Hx| ->%elem_of_singleton]; [|by right].
      destruct (Hcl x y Hx Hy) as [?|[->|?]%elem_of_cons];
        [set_solver | set_solver | by left]. }
    destruct (decide (node ∈ visited)) as [Hin|Hin].
    - assert (Heq : visited ∪ {[node]} = visited) by set_solver.
      rewrite Heq in *.
      apply (IHb (length (filter (λ x, x ∈ visited)
                    (dfsi_scan visited stack (nb node)))));
        [|by apply only_touched_step|done..].
      rewrite dfsi_scan_count. rewrite filter_cons in Hb.
      rewrite decide_True in Hb by done. simpl in Hb. lia.
    - eapply (IHa (size (U ∖ (visited ∪ {[node]}))));
        [|by apply only_touched_step|done..].
      subst a. apply size_universe_step; [|done].
      by apply reach_universe. }
  destruct Hnext as [n Hn]. exists (S n). intros [|fuel] Hfuel; [lia|].
  cbn [dfsi_loop]. rewrite (only_touched_adj _ _ node Hg).
  apply Hn. lia.
Qed.

(** *** [depth_first_search] *)

Lemma size_lt_in (T P Y : gset V) x :
  P ⊆ Y → x ∈ Y → x ∈ T → x ∉ P → (size (T ∖ Y) < size (T ∖ P))%nat.
Proof.
  intros HPY HxY HxT HxP. apply subset_size. split; [set_solver|].
  intros Hsub. specialize (Hsub x). set_solver.
Qed.

(** [T] holds the vertices that can be reached.  A call either raises
    [RecursionError], and then the call stack has room for fewer
    activations than [T] has vertices that are not visited yet, or it
    returns the vertices visited before and those that can be reached. *)
Lemma dfs_visit_spec (T : gset V) n :
  (∀ x, R x → x ∈ T) →
  ∀ v (S : gset V) g,
  only_touched g0 g →
  v ∉ S → R v →
  ((dfs_visit n v (S, g)).1 = Raise RecursionError ∧
   (n < size (T ∖ S))%nat) ∨
  ∃ r, (dfs_visit n v (S, g)).1 = Return r ∧
       S ⊆ r ∧ v ∈ r ∧
       (∀ x, x ∈ r → x ∈ S ∨ R x) ∧
       (∀ x y, x ∈ r → x ∉ S → y ∈ nb x → y ∈ r).
Proof.
  intros HT. induction n as [|n IH]; intros v S g Hg Hv Hr.
  { left. split; [done|].
    assert (size (T ∖ S) ≠ 0)%nat; [|lia].
    intros Hz%size_empty_inv. apply HT in Hr.
    specialize (Hz v). set_solver. }
  cbn [dfs_visit]. simpl. rewrite (only_touched_adj _ _ v Hg).
  assert (Hfold : ∀ nbrs (Sa : gset V) (ga : DirectedGraph V D),
    only_touched g0 ga →
    S ∪ {[v]} ⊆ Sa →
    (∀ x, x ∈ Sa → x ∈ S ∨ R x) →
    (∀ x y, x ∈ Sa → x ∉ S ∪ {[v]} → y ∈ nb x → y ∈ Sa) →
    (∀ y, y ∈ nbrs → R y) →
    let res := foldl (λ acc neighbor,
                   match acc.1 with
                   | Raise _ => acc
                   | Return visited =>
                       if decide (neighbor ∈ visited) then acc
                       else dfs_visit n neighbor (visited, acc.2)
                   end) (Return Sa, ga) nbrs in
    (res.1 = Raise RecursionError ∧ (n + 1 < size (T ∖ S))%nat) ∨
    ∃ r, res.1 = Return r ∧
         Sa ⊆ r ∧
         (∀ x, x ∈ r → x ∈ S ∨ R x) ∧
         (∀ x y, x ∈ r → x ∉ S ∪ {[v]} → y ∈ nb x → y ∈ r) ∧
         (∀ y, y ∈ nbrs → y ∈ r)).
  { induction nbrs as [|y nbrs IHn]; intros Sa ga Hacc Hsub Hsnd Hcl Hnb.
    - right. exists Sa. split_and!; [done..|].
      intros y Hy. by apply elem_of_nil in Hy.
    - cbn [foldl]. simpl.
      assert (Hnb' : ∀ y, y ∈ nbrs → R y) by (intros; apply Hnb; by right).
      case_decide as Hy.
      + destruct (IHn Sa ga) as [?|(r & Hfr & I1 & I2 & I3 & I4)];
          [done..|by left|].
        right. exists r. split_and!; [done..|].
        intros z [->|?]%elem_of_cons; [by apply I1 | by apply I4].
      + assert (Hlt : (size (T ∖ Sa) < size (T ∖ S))%nat).
        { apply (size_lt_in _ _ _ v); [set_solver | set_solver | | done].
          by apply HT. }
        pose proof (dfs_visit_touched n y (Sa, ga)) as Ht.
        destruct (IH y Sa ga) as [[Hraise Hsize]|(r1 & Hr1 & J1 & J2 & J3 & J4)];
          [done | done | apply Hnb; left | |].
        { left. destruct (dfs_visit n y (Sa, ga)) as [o1 g1].
          simpl in *. subst o1. split; [|lia].
          clear. induction nbrs as [|z nbrs IHz]; [done|]. apply IHz. }
        destruct (dfs_visit n y (Sa, ga)) as [o1 g1]. simpl in *.
        subst o1.
        destruct (IHn r1 g1) as [?|(r & Hfr & I1 & I2 & I3 & I4)].
        * by apply (only_touched_trans _ ga).
        * set_solver.
        * intros x [?|?]%J3; auto.
        * intros x z Hx Hnx Hz. destruct (decide (x ∈ Sa)).
          -- apply J1. by eapply Hcl.
          -- by eapply J4.
        * done.
        * by left.
        * right. exists r. split_and!; [done | set_solver | done | done |].
          intros z [->|?]%elem_of_cons; [by apply I1 | by apply I4]. }
  destruct (Hfold (nb v) (S ∪ {[v]}) (touch g v))
    as [[Hraise Hsize]|(r & Hfr & I1 & I2 & I3 & I4)].
  - by apply only_touched_step.
  - done.
  - intros x [?| ->%elem_of_singleton]%elem_of_union; [by left | by right].
  - intros x y Hx Hnx. done.
  - intros y Hy. by eapply rtc_r.
  - left. split; [done|lia].
  - right. exists r. split_and!; [done | set_solver | set_solver | done |].
    intros x y Hx Hnx Hy. destruct (decide (x = v)) as [->|Hne].
    + by apply I4.
    + eapply I3; [done | set_solver | done].
Qed.

End Traversal.

(** ** Shortest paths from a vertex to itself: BFS and Dijkstra *)

Section Self.
Context {V : Type} `{PyVertex V} {D : Type}.
Implicit Types (g : DirectedGraph V D) (u v s : V).

Import PyDictFacts.

Lemma foldl_insert_lookup {A} (a : A) (l : list V) (m : gmap V A) v :
  foldl (λ m v, <[v := a]> m) m l !! v =
    if decide (v ∈ l) then Some a else m !! v.
Proof.
  revert m. induction l as [|x l IH]; intros m; cbn [foldl].
  - rewrite decide_False; [done | apply not_elem_of_nil].
  - rewrite IH. destruct (decide (v ∈ l)).
    + rewrite decide_True; [done | by right].
    + destruct (decide (v = x)) as [->|].
      * rewrite lookup_insert_eq. rewrite decide_True; [done | left].
      * rewrite lookup_insert_ne by done. rewrite decide_False; [done|].
        intros [?|?]%elem_of_cons; done.
Qed.

Lemma init_backtracks_lookup g v :
  init_backtracks g !! v = if decide (v ∈ vertices g) then Some None else None.
Proof. unfold init_backtracks. by rewrite foldl_insert_lookup, lookup_empty. Qed.

Lemma init_backtracks_get g v : init_backtracks g !! v ≫= id = None.
Proof. rewrite init_backtracks_lookup. by case_decide. Qed.

Lemma init_distances_lookup g s v :
  init_distances s g !! v =
    if decide (v = s) then Some (Fin 0)
    else if decide (v ∈ vertices g) then Some Inf else None.
Proof.
  unfold init_distances. case_decide as Hv.
  - subst. by rewrite lookup_insert_eq.
  - rewrite lookup_insert_ne by done.
    by rewrite foldl_insert_lookup, lookup_empty.
Qed.


(** The chain stops at a predecessor that Python takes for false, and
    the path is not found. *)
Lemma construct_path_falsy_predecessor fuel (backtracks : gmap V (option V))
    start end_ x :
  backtracks !! end_ = Some (Some x) → truthy x = false → end_ ≠ start →
  construct_path fuel backtracks start end_ = Some (Raise (NoPath start end_)).
Proof.
  intros Hx Hf Hne. unfold construct_path. rewrite Hx. simpl.
  destruct fuel; simpl; rewrite Hf; simpl; rewrite decide_False; congruence.
Qed.

Section Loops.
Variable g0 : DirectedGraph V D.
Variable s : V.

Local Abbreviation nb x := (PyDict.keys (adj g0 x)).
Local Abbreviation U := (universe g0 s).

(** *** [find_shortest_path_bfs] *)

Lemma spb_scan_spec end_ v nbrs :
  ∀ (st : gset V * list V * gmap V (option V)),
  (∀ y, y ∈ nbrs → y ∈ U) →
  s ∈ st.1.1 →
  let r := spb_scan end_ v nbrs st in
  s ∈ r.1.1.1 ∧
  r.1.2 !! s = st.2 !! s ∧
  (2 * size (U ∖ r.1.1.1) + length r.1.1.2 ≤
     2 * size (U ∖ st.1.1) + length st.1.2)%nat.
Proof.
  induction nbrs as [|y nbrs IH]; intros st HU Hs; simpl.
  - split_and!; [done | done | lia].
  - assert (HU' : ∀ y, y ∈ nbrs → y ∈ U) by (intros; apply HU; by right).
    case_decide as Hy; [by apply IH|].
    assert (Hys : y ≠ s) by (by intros ->).
    pose proof (size_universe_step g0 s st.1.1 y (HU y ltac:(left)) Hy).
    case_decide; simpl.
    + split_and!; [set_solver | by rewrite lookup_insert_ne |].
      rewrite length_app. simpl. lia.
    + destruct (IH (st.1.1 ∪ {[y]}, st.1.2 ++ [y], <[y:=Some v]> st.2))
        as (I1 & I2 & I3); [done | set_solver |].
      simpl in *. split_and!; [done | by rewrite I2, lookup_insert_ne |].
      rewrite length_app in I3. simpl in I3. lia.
Qed.

Lemma spb_loop_spec end_ n :
  ∀ g (visited : gset V) (queue : list V) (backtracks : gmap V (option V)),
  only_touched g0 g →
  s ∈ visited →
  (2 * size (U ∖ visited) + length queue ≤ n)%nat →
  ∃ r, spb_loop n end_ g visited queue backtracks = Some r ∧
       r.1 !! s = backtracks !! s.
Proof.
  induction n as [|n IH]; intros g visited queue backtracks Hg Hs Hn;
    destruct queue as [|v queue]; simpl in *; try lia.
  - by exists (backtracks, g).
  - by exists (backtracks, g).
  - rewrite (only_touched_adj _ _ v Hg).
    destruct (spb_scan_spec end_ v (nb v) (visited, queue, backtracks))
      as (I1 & I2 & I3); [apply nb_universe | done |].
    simpl in *.
    destruct (spb_scan end_ v (nb v) (visited, queue, backtracks))
      as [[[visited' queue'] backtracks'] found]; simpl in *.
    destruct found.
    + by exists (backtracks', touch g v).
    + destruct (IH (touch g v) visited' queue' backtracks')
        as (r & Hr & Hrs); [by apply only_touched_step | done | lia |].
      exists r. split; [done | congruence].
Qed.


(** *** [find_shortest_path_dijkstra] *)





End Loops.
End Self.

(** ** Walks and cycles *)

Section Walk.
Context {V : Type} `{PyVertex V} {D : Type}.
Implicit Types (g : DirectedGraph V D) (u v s x : V) (p c : list V) (z : Z).

Lemma walk_nil_inv g u v z : walk g u [] v z → v = u ∧ z = 0.
Proof.
  intros Hw. remember [] as q eqn:Hq.
  destruct Hw as [|u p y x z' w Hw He]; [done|].
  by destruct p.
Qed.

Lemma walk_snoc_inv g u p x v z :
  walk g u (p ++ [x]) v z →
  v = x ∧ ∃ y z' w,
    walk g u p y z' ∧ (y, x, Some w) ∈ edges g ∧ z = z' + w.
Proof.
  intros Hw. remember (p ++ [x]) as q eqn:Hq.
  destruct Hw as [|u p' y x' z' w Hw He].
  - by destruct p.
  - apply app_inj_tail in Hq as [-> ->]. split; [done|]. eauto 6.
Qed.

Lemma walk_app g u p1 v z1 p2 x z2 :
  walk g u p1 v z1 → walk g v p2 x z2 → walk g u (p1 ++ p2) x (z1 + z2).
Proof.
  intros H1 H2. revert H1.
  induction H2 as [|v p2 y x z2 w H2 IH He]; intros H1.
  - by rewrite app_nil_r, Z.add_0_r.
  - rewrite app_assoc, Z.add_assoc. econstructor; [by apply IH | done].
Qed.

Lemma walk_split g u p1 p2 x z :
  walk g u (p1 ++ p2) x z →
  ∃ v z1 z2, walk g u p1 v z1 ∧ walk g v p2 x z2 ∧ z = z1 + z2.
Proof.
  revert x z. induction p2 as [|y p2 IH] using rev_ind; intros x z Hw.
  - rewrite app_nil_r in Hw. exists x, z, 0.
    split_and!; [done | constructor | lia].
  - rewrite app_assoc in Hw.
    apply walk_snoc_inv in Hw as (-> & y' & z' & w & Hw & He & ->).
    apply IH in Hw as (v & z1 & z2 & H1 & H2 & ->).
    exists v, z1, (z2 + w). split_and!; [done | by econstructor | lia].
Qed.

Lemma walk_edge g u x w : (u, x, Some w) ∈ edges g → walk g u [x] x w.
Proof.
  intros He. apply (walk_snoc g u [] u x 0 w); [constructor | done].
Qed.

Lemma walk_vertices g u p v z :
  edges_closed g → walk g u p v z → ∀ x, x ∈ p → x ∈ vertices g.
Proof.
  intros Hcl. induction 1 as [|u p y x z w Hw IH He]; intros a Ha.
  - by apply elem_of_nil in Ha.
  - apply elem_of_app in Ha as [?| ->%list_elem_of_singleton]; [auto|].
    by apply Hcl in He as [_ ?].
Qed.

Lemma not_NoDup_split (l : list V) :
  ¬ NoDup l → ∃ x l1 l2 l3, l = l1 ++ x :: l2 ++ x :: l3.
Proof.
  induction l as [|a l IH]; intros Hl.
  - destruct Hl. constructor.
  - destruct (decide (a ∈ l)) as [Hin|Hin].
    + apply list_elem_of_split in Hin as (l2 & l3 & ->).
      by exists a, [], l2, l3.
    + destruct IH as (x & l1 & l2 & l3 & ->).
      { intros Hnd. apply Hl. by constructor. }
      by exists x, (a :: l1), l2, l3.
Qed.

(** A walk that passes twice through [x] splits into a walk to [x], a
    closed walk at [x] and a walk from [x]. *)
Lemma walk_split_cycle g u l1 x l2 l3 v z :
  walk g u (l1 ++ x :: l2 ++ x :: l3) v z →
  ∃ z1 z2 z3,
    walk g u (l1 ++ [x]) x z1 ∧ walk g x (l2 ++ [x]) x z2 ∧
    walk g x l3 v z3 ∧ z = z1 + z2 + z3.
Proof.
  intros Hw.
  replace (l1 ++ x :: l2 ++ x :: l3)
    with ((l1 ++ [x]) ++ (l2 ++ [x]) ++ l3) in Hw
    by (by rewrite <- !app_assoc).
  apply walk_split in Hw as (a & z1 & z23 & H1 & H23 & ->).
  apply walk_split in H23 as (b & z2 & z3 & H2 & H3 & ->).
  pose proof (walk_snoc_inv _ _ _ _ _ _ H1) as [-> _].
  pose proof (walk_snoc_inv _ _ _ _ _ _ H2) as [-> _].
  exists z1, z2, z3. split_and!; [done..|lia].
Qed.

(** If no simple cycle that can be reached from [s] is negative, no
    closed walk that can be reached from [s] is. *)
Lemma no_negative_closed_walk_len g s :
  no_negative_cycle g s →
  ∀ n c p u z zc,
    length c = n → walk g s p u z → walk g u c u zc → 0 ≤ zc.
Proof.
  intros Hnnc n. induction n as [n IH] using lt_wf_ind.
  intros c p u z zc Hlen Hp Hc.
  destruct (decide (NoDup c)) as [Hnd|Hnd]; [by eapply Hnnc|].
  apply not_NoDup_split in Hnd as (x & l1 & l2 & l3 & ->).
  apply walk_split_cycle in Hc as (z1 & z2 & z3 & H1 & H2 & H3 & ->).
  assert (0 ≤ z2).
  { eapply (IH (length (l2 ++ [x]))); [|done| |exact H2].
    - subst n. repeat (rewrite length_app || rewrite length_cons); simpl; lia.
    - exact (walk_app _ _ _ _ _ _ _ _ Hp H1). }
  assert (0 ≤ z1 + z3).
  { eapply (IH (length ((l1 ++ [x]) ++ l3))); [|done|exact Hp|].
    - subst n. repeat (rewrite length_app || rewrite length_cons); simpl; lia.
    - exact (walk_app _ _ _ _ _ _ _ _ H1 H3). }
  lia.
Qed.

Lemma no_negative_closed_walk g s p u z c zc :
  no_negative_cycle g s → walk g s p u z → walk g u c u zc → 0 ≤ zc.
Proof. intros. by eapply no_negative_closed_walk_len. Qed.

(** Without negative cycles, a walk can be replaced by one that is not
    heavier and passes through no vertex twice. *)
Lemma walk_shorten_len g s :
  no_negative_cycle g s →
  ∀ n p v z, length p = n → walk g s p v z →
    ∃ p' z', walk g s p' v z' ∧ NoDup (s :: p') ∧ z' ≤ z.
Proof.
  intros Hnnc n. induction n as [n IH] using lt_wf_ind.
  intros p v z Hlen Hw.
  destruct (decide (NoDup (s :: p))) as [Hnd|Hnd].
  { exists p, z. split_and!; [done | done | lia]. }
  apply not_NoDup_split in Hnd as (x & l1 & l2 & l3 & Heq).
  destruct l1 as [|a l1]; simpl in Heq; injection Heq as <- ->.
  - replace (l2 ++ s :: l3) with ((l2 ++ [s]) ++ l3) in Hw
      by (by rewrite <- app_assoc).
    apply walk_split in Hw as (a & z1 & z2 & H1 & H2 & ->).
    pose proof (walk_snoc_inv _ _ _ _ _ _ H1) as [-> _].
    assert (0 ≤ z1)
      by (eapply (no_negative_closed_walk g s []); [done | constructor | done]).
    destruct (IH (length l3)) with (p := l3) (v := v) (z := z2)
      as (p' & z' & Hw' & Hnd' & Hz'); [|done|done|].
    + subst n. repeat (rewrite length_app || rewrite length_cons); simpl; lia.
    + exists p', z'. split_and!; [done | done | lia].
  - apply walk_split_cycle in Hw as (z1 & z2 & z3 & H1 & H2 & H3 & ->).
    assert (0 ≤ z2) by (by eapply (no_negative_closed_walk g s)).
    destruct (IH (length ((l1 ++ [x]) ++ l3))) with
      (p := (l1 ++ [x]) ++ l3) (v := v) (z := z1 + z3)
      as (p' & z' & Hw' & Hnd' & Hz'); [|done| |].
    + subst n. repeat (rewrite length_app || rewrite length_cons); simpl; lia.
    + exact (walk_app _ _ _ _ _ _ _ _ H1 H3).
    + exists p', z'. split_and!; [done | done | lia].
Qed.

(** A walk through distinct vertices has fewer edges than the graph has
    vertices. *)
Lemma simple_walk_length g s p v z :
  edges_closed g → s ∈ vertices g → walk g s p v z → NoDup (s :: p) →
  (S (length p) ≤ vertex_count g)%nat.
Proof.
  intros Hcl Hs Hw Hnd. unfold vertex_count.
  change (S (length p)) with (length (s :: p)).
  apply submseteq_length, NoDup_submseteq; [done|].
  intros x [->|?]%elem_of_cons; [done | by eapply walk_vertices].
Qed.

Lemma walk_shorten g s p v z :
  edges_closed g → s ∈ vertices g → no_negative_cycle g s →
  walk g s p v z →
  ∃ p' z', walk g s p' v z' ∧ (S (length p') ≤ vertex_count g)%nat ∧ z' ≤ z.
Proof.
  intros Hcl Hs Hnnc Hw.
  destruct (walk_shorten_len g s Hnnc (length p) p v z eq_refl Hw)
    as (p' & z' & Hw' & Hnd & Hz).
  exists p', z'. split_and!; [done | by eapply simple_walk_length | done].
Qed.

End Walk.

(** ** Bellman-Ford *)

Section BellmanFord.
Context {V : Type} `{PyVertex V} {D : Type}.
Implicit Types (g : DirectedGraph V D) (u v s x : V) (z : Z)
  (st : gmap V dist * gmap V (option V)) (e : V * V * weight).

(** *** Distances *)

Lemma dist_le_refl (a : dist) : dist_le a a.
Proof. destruct a; simpl; [|done]. unfold dist_le. simpl. case_bool_decide; [lia | done]. Qed.

Lemma dist_le_trans (a b c : dist) : dist_le a b → dist_le b c → dist_le a c.
Proof.
  unfold dist_le. destruct a, b, c; simpl; try done.
  repeat case_bool_decide; try done; lia.
Qed.

Lemma dist_lt_le (a b : dist) : dist_lt a b = true → dist_le a b.
Proof.
  unfold dist_le. destruct a, b; simpl; try done.
  repeat case_bool_decide; try done; lia.
Qed.

Lemma dist_plus_mono (a b : dist) w :
  dist_le a b → dist_le (dist_plus a w) (dist_plus b w).
Proof.
  unfold dist_le. destruct a, b; simpl; try done.
  repeat case_bool_decide; try done; lia.
Qed.

Lemma dist_add_fits (a : dist) w :
  float_overflow w = false →
  @dist_add V a w = Return (dist_plus a w).
Proof. intros Hw. destruct a; simpl; [done|]. by rewrite Hw. Qed.

Lemma float_numeric g : float_weights g → numeric_weights g.
Proof. intros Hf s d w Hin. destruct (Hf s d w Hin) as (z & -> & _). eauto. Qed.

Lemma dist_le_Fin (a : dist) z : dist_le a (Fin z) ↔ ∃ y, a = Fin y ∧ y ≤ z.
Proof.
  unfold dist_le. destruct a as [y|]; simpl.
  - case_bool_decide; split; try done.
    + intros (? & [= <-] & ?). lia.
    + intros _. exists y. split; [done | lia].
  - split; [done | by intros (? & ? & ?)].
Qed.

Lemma dists_le_refl (d : gmap V dist) : dists_le d d.
Proof. intros v x Hx. exists x. split; [done | apply dist_le_refl]. Qed.

Lemma dists_le_trans (d1 d2 d3 : gmap V dist) :
  dists_le d1 d2 → dists_le d2 d3 → dists_le d1 d3.
Proof.
  intros H12 H23 v x Hx.
  destruct (H23 v x Hx) as (y & Hy & Hyx).
  destruct (H12 v y Hy) as (y' & Hy' & Hyy).
  exists y'. split; [done | by eapply dist_le_trans].
Qed.

(** *** One relaxation *)

Lemma bellman_ford_relax_eq final st e d_src w d_des :
  st.1 !! e.1.1 = Some d_src → e.2 = Some w → float_overflow w = false →
  st.1 !! e.1.2 = Some d_des →
  bellman_ford_relax final (Return st) e =
    if dist_lt (dist_plus d_src w) d_des then
      if final then Raise NegativeCycles
      else Return (<[e.1.2 := dist_plus d_src w]> st.1,
                   <[e.1.2 := Some e.1.1]> st.2)
    else Return st.
Proof.
  intros Hs Hw Hf Hd. unfold bellman_ford_relax, obind.
  by rewrite Hs, Hw, (dist_add_fits d_src w Hf), Hd.
Qed.

Lemma bellman_ford_relax_raise final (ex : exn V) (es : list (V * V * weight)) :
  foldl (bellman_ford_relax final) (Raise ex) es = Raise ex.
Proof. induction es as [|e es IH]; [done | apply IH]. Qed.

(** *** The last pass *)

Lemma final_pass_spec st (es : list (V * V * weight)) :
  (∀ e, e ∈ es →
     is_Some (st.1 !! e.1.1) ∧
     (∃ w, e.2 = Some w ∧ float_overflow w = false) ∧
     is_Some (st.1 !! e.1.2)) →
  ((∃ e, e ∈ es ∧ relaxable st.1 e) →
     foldl (bellman_ford_relax true) (Return st) es = Raise NegativeCycles) ∧
  ((∀ e, e ∈ es → ¬ relaxable st.1 e) →
     foldl (bellman_ford_relax true) (Return st) es = Return st).
Proof.
  induction es as [|e es IH]; intros Hev.
  - split; [|done]. intros (e & He & _). by apply elem_of_nil in He.
  - destruct (Hev e ltac:(left)) as ([ds Hs] & (w & Hw & Hf) & [dd Hd]).
    destruct IH as [IH1 IH2]; [intros; apply Hev; by right|].
    cbn [foldl]. rewrite (bellman_ford_relax_eq true st e ds w dd) by done.
    destruct (dist_lt (dist_plus ds w) dd) eqn:Hlt.
    + split; [intros _; apply bellman_ford_relax_raise|].
      intros Hno. destruct (Hno e ltac:(left)). by exists ds, w, dd.
    + split.
      * intros (e' & [->|He']%elem_of_cons & Hrel); [|eauto].
        destruct Hrel as (ds' & w' & dd' & Hs' & Hw' & Hd' & Hlt').
        congruence.
      * intros Hno. apply IH2. intros e' He'. apply Hno. by right.
Qed.

(** *** The passes that relax *)

Section Passes.
Variable g : DirectedGraph V D.
Variable s : V.
Hypothesis Hclosed : edges_closed g.
Hypothesis Hfloat : float_weights g.

Lemma relax_step_spec st e :
  e ∈ edges g →
  (∀ v, v ∈ vertices g → is_Some (st.1 !! v)) →
  ∃ st' w,
    e.2 = Some w ∧
    bellman_ford_relax false (Return st) e = Return st' ∧
    (∀ v, v ∈ vertices g → is_Some (st'.1 !! v)) ∧
    dists_le st'.1 st.1 ∧
    (∀ d_src, st.1 !! e.1.1 = Some d_src →
       ∃ d_des, st'.1 !! e.1.2 = Some d_des ∧
                dist_le d_des (dist_plus d_src w)) ∧
    ((∀ v z, st.1 !! v = Some (Fin z) → ∃ p, walk g s p v z) →
     (∀ v z, st'.1 !! v = Some (Fin z) → ∃ p, walk g s p v z)) ∧
    (no_negative_cycle g s →
     (∀ v z, st.1 !! v = Some (Fin z) → ∃ p, walk g s p v z) →
     st.1 !! s = Some (Fin 0) ∧ st.2 !! s ≫= id = None →
     st'.1 !! s = Some (Fin 0) ∧ st'.2 !! s ≫= id = None).
Proof.
  intros He Hdom. destruct e as [[u x] w'].
  destruct (Hfloat u x w' He) as (w & -> & Hf).
  destruct (Hclosed u x (Some w) He) as [Hu Hx].
  destruct (Hdom u Hu) as [ds Hs]. destruct (Hdom x Hx) as [dd Hd].
  rewrite (bellman_ford_relax_eq false st _ ds w dd) by done.
  simpl. destruct (dist_lt (dist_plus ds w) dd) eqn:Hlt.
  - eexists _, w. split; [done|]. split; [done|]. simpl. split_and!.
    + intros v Hv. destruct (decide (v = x)) as [->|].
      * rewrite lookup_insert_eq. eauto.
      * rewrite lookup_insert_ne by done. auto.
    + intros v a. destruct (decide (v = x)) as [->|].
      * rewrite lookup_insert_eq. intros Ha.
        assert (a = dd) as -> by congruence.
        eexists. split; [done | by apply dist_lt_le].
      * rewrite lookup_insert_ne by done. intros Ha.
        exists a. split; [done | apply dist_le_refl].
    + intros d_src Hsrc. rewrite lookup_insert_eq.
      eexists. split; [done|].
      assert (d_src = ds) as -> by congruence. apply dist_le_refl.
    + intros Hsound v z. destruct (decide (v = x)) as [->|].
      * rewrite lookup_insert_eq. intros [= Hz].
        destruct ds as [a|]; simpl in Hz; [|done].
        injection Hz as <-.
        destruct (Hsound u a Hs) as [p Hp].
        exists (p ++ [x]). by econstructor.
      * rewrite lookup_insert_ne by done. apply Hsound.
    + intros Hnnc Hsound [Hs0 Hb0].
      destruct (decide (s = x)) as [<-|Hne].
      * exfalso. destruct ds as [a|]; simpl in Hlt; [|done].
        assert (dd = Fin 0) as -> by congruence. simpl in Hlt.
        apply bool_decide_eq_true in Hlt.
        destruct (Hsound u a Hs) as [p Hp].
        assert (0 ≤ a + w); [|lia].
        eapply (no_negative_closed_walk g s [] s 0 (p ++ [s]));
          [done | constructor | by econstructor].
      * by rewrite !lookup_insert_ne.
  - exists st, w. split; [done|]. split; [done|].
    split_and!; [done | apply dists_le_refl | | done | done].
    intros d_src Hsrc. exists dd. split; [done|].
    assert (d_src = ds) as -> by congruence.
    exact Hlt.
Qed.

Lemma relax_pass_spec (es : list (V * V * weight)) : ∀ st,
  (∀ e, e ∈ es → e ∈ edges g) →
  (∀ v, v ∈ vertices g → is_Some (st.1 !! v)) →
  ∃ st',
    foldl (bellman_ford_relax false) (Return st) es = Return st' ∧
    (∀ v, v ∈ vertices g → is_Some (st'.1 !! v)) ∧
    dists_le st'.1 st.1 ∧
    (∀ e w d_src, e ∈ es → e.2 = Some w → st.1 !! e.1.1 = Some d_src →
       ∃ d_des, st'.1 !! e.1.2 = Some d_des ∧
                dist_le d_des (dist_plus d_src w)) ∧
    ((∀ v z, st.1 !! v = Some (Fin z) → ∃ p, walk g s p v z) →
     (∀ v z, st'.1 !! v = Some (Fin z) → ∃ p, walk g s p v z)) ∧
    (no_negative_cycle g s →
     (∀ v z, st.1 !! v = Some (Fin z) → ∃ p, walk g s p v z) →
     st.1 !! s = Some (Fin 0) ∧ st.2 !! s ≫= id = None →
     st'.1 !! s = Some (Fin 0) ∧ st'.2 !! s ≫= id = None).
Proof.
  induction es as [|e es IH]; intros st Hes Hdom.
  - exists st. split_and!; [done | done | apply dists_le_refl | | done | done].
    intros e w d_src He. by apply elem_of_nil in He.
  - destruct (relax_step_spec st e) as (st1 & w1 & Hw1 & Hst1 & S1 & S2 & S3 & S4 & S5);
      [apply Hes; left | done |].
    destruct (IH st1) as (st' & Hst' & I1 & I2 & I3 & I4 & I5);
      [intros; apply Hes; by right | done |].
    exists st'. cbn [foldl]. rewrite Hst1. split_and!.
    + done.
    + done.
    + by eapply dists_le_trans.
    + intros e' w d_src [->|He']%elem_of_cons Hw Hsrc.
      * assert (w = w1) as -> by congruence.
        destruct (S3 d_src Hsrc) as (d1 & Hd1 & Hle1).
        destruct (I2 _ _ Hd1) as (d' & Hd' & Hle').
        exists d'. split; [done | by eapply dist_le_trans].
      * destruct (S2 _ _ Hsrc) as (d1 & Hd1 & Hle1).
        destruct (I3 e' w d1 He' Hw Hd1) as (d' & Hd' & Hle').
        exists d'. split; [done|].
        eapply dist_le_trans; [done | by apply dist_plus_mono].
    + auto.
    + auto.
Qed.

Lemma relax_passes_spec (k : nat) :
  ∃ st,
    Nat.iter k (relax_all g)
      (Return (init_distances s g, init_backtracks g)) = Return st ∧
    (∀ v, v ∈ vertices g → is_Some (st.1 !! v)) ∧
    (∀ v z, st.1 !! v = Some (Fin z) → ∃ p, walk g s p v z) ∧
    (∀ p v z, walk g s p v z → (length p ≤ k)%nat →
       ∃ y, st.1 !! v = Some (Fin y) ∧ y ≤ z) ∧
    (no_negative_cycle g s →
     st.1 !! s = Some (Fin 0) ∧ st.2 !! s ≫= id = None).
Proof.
  induction k as [|k IH].
  - eexists. split; [done|]. simpl. split_and!.
    + intros v Hv. rewrite init_distances_lookup.
      case_decide; [eauto|]. rewrite decide_True by done. eauto.
    + intros v z. rewrite init_distances_lookup.
      case_decide as Hv; [|by case_decide].
      intros [= <-]. subst v. exists []. constructor.
    + intros p v z Hw Hlen. destruct p; [|simpl in Hlen; lia].
      apply walk_nil_inv in Hw as [-> ->].
      exists 0. rewrite init_distances_lookup, decide_True by done.
      split; [done | lia].
    + intros _. rewrite init_distances_lookup, decide_True by done.
      split; [done | apply init_backtracks_get].
  - destruct IH as (st & Hst & I1 & I2 & I3 & I4).
    destruct (relax_pass_spec (edges g) st) as (st' & Hst' & P1 & P2 & P3 & P4 & P5);
      [done | done |].
    exists st'. split; [simpl; rewrite Hst; exact Hst'|].
    split_and!; [done | by auto | | by auto].
    intros p v z Hw Hlen.
    destruct p as [|x p _] using rev_ind.
    + destruct (I3 [] v z Hw) as (y & Hy & Hyz); [simpl; lia|].
      destruct (P2 _ _ Hy) as (y' & Hy' & Hle).
      apply dist_le_Fin in Hle as (y'' & -> & ?).
      exists y''. split; [done | lia].
    + apply walk_snoc_inv in Hw as (-> & u & z' & w & Hw & He & ->).
      rewrite length_app in Hlen. simpl in Hlen.
      destruct (I3 p u z' Hw) as (y & Hy & Hyz); [lia|].
      destruct (P3 _ w (Fin y) He eq_refl Hy)
        as (d' & Hd' & Hle).
      simpl in Hle. apply dist_le_Fin in Hle as (y' & -> & ?).
      exists y'. split; [done | lia].
Qed.
End Passes.

(** *** The structure of the loop *)

Lemma relaxing_passes g (k a : nat) :
  ∀ (o : outcome (gmap V dist * gmap V (option V))),
  (a + k < vertex_count g)%nat →
  foldl (bellman_ford_pass g) o (seq a k) = Nat.iter k (relax_all g) o.
Proof.
  revert a. induction k as [|k IH]; intros a o Hk; [done|].
  rewrite Nat.iter_succ_r. cbn [seq foldl].
  rewrite IH by lia. f_equal.
  unfold bellman_ford_pass, relax_all.
  rewrite bool_decide_eq_false_2; [done | lia].
Qed.

Lemma bellman_ford_passes_eq g s :
  (1 ≤ vertex_count g)%nat →
  bellman_ford_passes s g =
    foldl (bellman_ford_relax true)
      (Nat.iter (vertex_count g - 1) (relax_all g)
         (Return (init_distances s g, init_backtracks g)))
      (edges g).
Proof.
  intros Hn. unfold bellman_ford_passes.
  destruct (vertex_count g) as [|m] eqn:Hm; [lia|].
  rewrite seq_S, foldl_app. cbn [foldl].
  replace (S m - 1)%nat with m by lia.
  unfold bellman_ford_pass at 1.
  rewrite Hm, bool_decide_eq_true_2 by lia.
  f_equal. apply relaxing_passes. lia.
Qed.

Lemma vertex_count_pos g s : s ∈ vertices g → (1 ≤ vertex_count g)%nat.
Proof.
  unfold vertices, vertex_count. intros Hs.
  destruct (PyDict.keys (vertex_data g)); [by apply elem_of_nil in Hs|].
  simpl. lia.
Qed.

(** What [find_shortest_path_bellman_ford] does, by the distances that
    the first [vertex_count - 1] passes leave. *)
Lemma bellman_ford_outcome g s :
  edges_closed g → float_weights g → (1 ≤ vertex_count g)%nat →
  ∃ st,
    Nat.iter (vertex_count g - 1) (relax_all g)
      (Return (init_distances s g, init_backtracks g)) = Return st ∧
    ((∃ e, e ∈ edges g ∧ relaxable st.1 e) →
       bellman_ford_passes s g = Raise NegativeCycles) ∧
    ((∀ e, e ∈ edges g → ¬ relaxable st.1 e) →
       bellman_ford_passes s g = Return st ∧
       relax_all g (Return st) = Return st).
Proof.
  intros Hcl Hnum Hn.
  destruct (relax_passes_spec g s Hcl Hnum (vertex_count g - 1))
    as (st & Hst & I1 & _).
  exists st. split; [done|].
  rewrite bellman_ford_passes_eq, Hst by done.
  assert (Hev : ∀ e, e ∈ edges g →
    is_Some (st.1 !! e.1.1) ∧
    (∃ w, e.2 = Some w ∧ float_overflow w = false) ∧
    is_Some (st.1 !! e.1.2)).
  { intros [[u x] w] He. destruct (Hcl u x w He). simpl.
    split_and!; [by apply I1 | by eapply Hnum | by apply I1]. }
  destruct (final_pass_spec st (edges g) Hev) as [F1 F2].
  split; [done|]. intros Hno. split; [by apply F2|].
  unfold relax_all. clear F1 F2 Hst.
  assert (Hgen : ∀ es : list (V * V * weight),
    (∀ e, e ∈ es → e ∈ edges g) →
    foldl (bellman_ford_relax false) (Return st) es = Return st).
  { induction es as [|e es IH]; intros Hes; [done|].
    cbn [foldl].
    destruct (Hev e) as ([ds Hs] & (w & Hw & Hf) & [dd Hd]);
      [apply Hes; left|].
    rewrite (bellman_ford_relax_eq false st e ds w dd) by done.
    destruct (dist_lt (dist_plus ds w) dd) eqn:Hlt.
    - destruct (Hno e); [apply Hes; left|]. by exists ds, w, dd.
    - apply IH. intros; apply Hes; by right. }
  by apply Hgen.
Qed.

Lemma no_vertices_no_edges g :
  edges_closed g → vertex_count g = 0%nat → edges g = [].
Proof.
  intros Hcl Hn. destruct (edges g) as [|[[u x] w] es] eqn:E; [done|].
  destruct (Hcl u x w) as [Hu _]; [rewrite E; left|].
  unfold vertices, vertex_count in *.
  destruct (PyDict.keys (vertex_data g)); [by apply elem_of_nil in Hu | done].
Qed.

(** The same for the graph without vertices, which has no edges. *)
Lemma bellman_ford_outcome_all g s :
  edges_closed g → float_weights g →
  ∃ st,
    Nat.iter (vertex_count g - 1) (relax_all g)
      (Return (init_distances s g, init_backtracks g)) = Return st ∧
    ((∃ e, e ∈ edges g ∧ relaxable st.1 e) →
       bellman_ford_passes s g = Raise NegativeCycles) ∧
    ((∀ e, e ∈ edges g → ¬ relaxable st.1 e) →
       bellman_ford_passes s g = Return st ∧
       Nat.iter (vertex_count g) (relax_all g)
         (Return (init_distances s g, init_backtracks g)) = Return st).
Proof.
  intros Hcl Hnum. destruct (vertex_count g) as [|m] eqn:Hm.
  - pose proof (no_vertices_no_edges g Hcl Hm) as He.
    eexists. split; [done|]. rewrite He. split.
    + intros (e & Hin & _). by apply elem_of_nil in Hin.
    + intros _. split; [|done].
      unfold bellman_ford_passes. by rewrite Hm.
  - destruct (bellman_ford_outcome g s Hcl Hnum) as (st & Hst & H1 & H2); [lia|].
    rewrite Hm in Hst. exists st. split; [done|]. split; [done|].
    intros Hno. destruct (H2 Hno) as [Hp Hr]. split; [done|].
    replace (S m - 1)%nat with m in Hst by lia.
    simpl. by rewrite Hst.
Qed.

(** The last pass never updates: it leaves the tables as they are, or it
    raises. *)
Lemma final_pass_no_update st (es : list (V * V * weight)) :
  foldl (bellman_ford_relax true) (Return st) es = Return st ∨
  ∃ ex, foldl (bellman_ford_relax true) (Return st) es = Raise ex.
Proof.
  induction es as [|e es IH]; [by left|]. cbn [foldl].
  assert (Hstep : bellman_ford_relax true (Return st) e = Return st ∨
                  ∃ ex, bellman_ford_relax true (Return st) e = Raise ex).
  { unfold bellman_ford_relax, obind. repeat case_match; eauto. }
  destruct Hstep as [->|[ex ->]]; [done|].
  right. exists ex. apply bellman_ford_relax_raise.
Qed.

(** [vertex_count - 1] passes that relax, then one pass that checks. *)
Lemma bellman_ford_passes_structure g s :
  edges_closed g →
  bellman_ford_passes s g =
    foldl (bellman_ford_relax true)
      (Nat.iter (vertex_count g - 1) (relax_all g)
         (Return (init_distances s g, init_backtracks g)))
      (edges g).
Proof.
  intros Hcl. destruct (vertex_count g) as [|m] eqn:Hm.
  - rewrite (no_vertices_no_edges g Hcl Hm).
    unfold bellman_ford_passes. by rewrite Hm.
  - rewrite <- Hm. apply bellman_ford_passes_eq. lia.
Qed.

(** *** From a vertex to itself *)

Lemma no_relaxable_edge g s :
  edges_closed g → float_weights g → s ∈ vertices g →
  no_negative_cycle g s →
  ∃ st,
    Nat.iter (vertex_count g - 1) (relax_all g)
      (Return (init_distances s g, init_backtracks g)) = Return st ∧
    (∀ e, e ∈ edges g → ¬ relaxable st.1 e) ∧
    st.2 !! s ≫= id = None.
Proof.
  intros Hcl Hnum Hs Hnnc.
  destruct (relax_passes_spec g s Hcl Hnum (vertex_count g - 1))
    as (st & Hst & I1 & I2 & I3 & I4).
  exists st. split; [done|]. split; [|by apply I4].
  intros [[u x] w'] He (ds & w & dd & Hds & Hw & Hdd & Hlt).
  simpl in *. subst w'.
  destruct ds as [a|]; simpl in Hlt; [|done].
  destruct (I2 u a Hds) as [p Hp].
  assert (Hpx : walk g s (p ++ [x]) x (a + w)) by (by econstructor).
  destruct (walk_shorten g s _ _ _ Hcl Hs Hnnc Hpx)
    as (p' & z' & Hp' & Hlen & Hz').
  destruct (I3 p' x z' Hp') as (y & Hy & Hyz); [lia|].
  assert (dd = Fin y) as -> by congruence.
  simpl in Hlt. apply bool_decide_eq_true in Hlt. lia.
Qed.


End BellmanFord.

(** ** Sequences of calls *)

Section Calls.
Context {V : Type} `{PyVertex V} {D : Type}.
Implicit Types (g : DirectedGraph V D) (u v s d : V) (w : weight).

Import PyDictFacts.

Lemma dicts_wf_remove_vertex v g : dicts_wf g → dicts_wf (remove_vertex v g).2.
Proof.
  intros Hwf. pose proof Hwf as (Hoe & Hvd & Hinc). unfold remove_vertex.
  destruct (PyDict.del v (outgoing_edges g)) as [oe|] eqn:E1; [|exact Hwf].
  apply del_Some in E1 as [_ ->].
  assert (Hoe' : PyDict.wf ((λ e : V * list (V * weight),
                    (e.1, drop_incoming v e.2)) <$> PyDict.remove v (outgoing_edges g))).
  { unfold PyDict.wf, PyDict.keys. rewrite <- list_fmap_compose.
    apply (wf_remove v) in Hoe. unfold PyDict.wf, PyDict.keys in Hoe.
    erewrite list_fmap_ext; [exact Hoe|]. by intros ? []. }
  assert (Hinc' : Forall (λ e, PyDict.wf e.2) ((λ e : V * list (V * weight),
                    (e.1, drop_incoming v e.2)) <$> PyDict.remove v (outgoing_edges g))).
  { apply Forall_fmap. unfold PyDict.remove.
    apply Forall_forall. intros e [_ He]%list_elem_of_filter. simpl.
    rewrite drop_incoming_remove. apply wf_remove.
    rewrite Forall_forall in Hinc. by apply Hinc. }
  destruct (PyDict.del v (vertex_data g)) as [vd|] eqn:E2; simpl.
  - apply del_Some in E2 as [_ ->]. split_and!; [done | by apply wf_remove | done].
  - done.
Qed.

Lemma dicts_wf_remove_edge u v g : dicts_wf g → dicts_wf (remove_edge u v g).2.
Proof.
  intros Hwf. unfold remove_edge.
  destruct (PyDict.del v (adj g u)) as [inc|] eqn:E; simpl.
  - apply del_Some in E as [_ ->].
    pose proof (wf_adj g u Hwf). destruct Hwf as (? & ? & ?).
    split_and!; simpl; [by apply wf_set | done |].
    apply Forall_set; [done|]. simpl. by apply wf_remove.
  - by apply dicts_wf_touch.
Qed.

Lemma edges_closed_init : edges_closed (init : DirectedGraph V D).
Proof. intros s d w Hin. by apply elem_of_nil in Hin. Qed.

Lemma dicts_wf_init : dicts_wf (init : DirectedGraph V D).
Proof. split_and!; [apply NoDup_nil_2 | apply NoDup_nil_2 | constructor]. Qed.

Lemma run_call_dicts_wf fuel (c : call V D) g g' :
  run_call fuel c g = Some g' → dicts_wf g → dicts_wf g'.
Proof.
  destruct c; simpl.
  - intros [= <-]. apply dicts_wf_add_vertex.
  - intros [= <-]. apply dicts_wf_add_edge.
  - intros [= <-]. apply dicts_wf_remove_vertex.
  - intros [= <-]. apply dicts_wf_remove_edge.
  - intros Hr. by eapply touched_dicts_wf, run_read_touches.
Qed.

Lemma run_call_edges_closed fuel (c : call V D) g g' :
  run_call fuel c g = Some g' → edges_closed g → edges_closed g'.
Proof.
  destruct c as [v value|u v w|v|u v|op]; simpl.
  - intros [= <-] Hcl s d w Hin. rewrite edges_add_vertex in Hin.
    rewrite !vertices_add_vertex. destruct (Hcl s d w Hin). tauto.
  - intros [= <-] Hcl s d w' Hin. rewrite !vertices_add_edge.
    apply elem_edges_add_edge in Hin as [[= -> -> ->]|Hin]; [tauto|].
    destruct (Hcl s d w' Hin). tauto.
  - intros [= <-] Hcl s d w Hin.
    apply remove_vertex_edges in Hin as [Hin Hne].
    destruct (Hcl s d w Hin). rewrite !remove_vertex_vertices.
    split; (split; [done|]); intros [Hoe _]%remove_vertex_returns;
      by destruct (Hne Hoe).
  - intros [= <-] Hcl s d w Hin. rewrite vertices_remove_edge.
    apply elem_edges_remove_edge in Hin. exact (Hcl s d w Hin).
  - intros Hr%run_read_touched Hcl s d w.
    rewrite (only_touched_edges _ _ Hr), (only_touched_vertices _ _ Hr).
    apply (Hcl s d w).
Qed.

Lemma run_calls_wf (cs : list (nat * call V D)) : ∀ g g',
  run_calls cs g = Some g' →
  dicts_wf g ∧ edges_closed g → dicts_wf g' ∧ edges_closed g'.
Proof.
  induction cs as [|[fuel c] cs IH]; intros g g'; simpl.
  - by intros [= <-].
  - destruct (run_call fuel c g) as [g1|] eqn:E; simpl; [|done].
    intros Hr [Hwf Hcl]. apply (IH _ _ Hr). split.
    + by eapply run_call_dicts_wf.
    + by eapply run_call_edges_closed.
Qed.

(** Every graph that calls can build has well-formed dictionaries and
    edges between vertices of the vertex set. *)
Lemma built_wf g : built g → dicts_wf g ∧ edges_closed g.
Proof.
  intros [cs Hcs]. apply (run_calls_wf cs _ _ Hcs).
  split; [apply dicts_wf_init | apply edges_closed_init].
Qed.

(** *** What a successful [remove_edge] leaves *)

Lemma filter_all {A} (P : A → Prop) `{∀ x, Decision (P x)} (l : list A) :
  (∀ x, x ∈ l → P x) → filter P l = l.
Proof.
  induction l as [|a l IH]; intros Hl; [done|].
  rewrite filter_cons_True by (apply Hl; left).
  f_equal. apply IH. intros; apply Hl; by right.
Qed.

Lemma edges_cons (k : V) (inc : list (V * weight)) oe
    (vd vd' : list (V * option D)) :
  edges {| outgoing_edges := (k, inc) :: oe; vertex_data := vd |} =
  ((λ dw, (k, dw.1, dw.2)) <$> inc) ++
  edges {| outgoing_edges := oe; vertex_data := vd' |}.
Proof. done. Qed.

Lemma filter_edges_other u v (oe : list (V * list (V * weight)))
    (vd : list (V * option D)) :
  u ∉ PyDict.keys oe →
  filter (λ e : V * V * weight, e.1 ≠ (u, v))
    (edges {| outgoing_edges := oe; vertex_data := vd |}) =
  edges {| outgoing_edges := oe; vertex_data := vd |}.
Proof.
  intros Hu. apply filter_all.
  intros [[s d] w] (inc & Hin & _)%elem_edges. simpl in *.
  intros [= -> ->]. apply Hu. by eapply elem_keys.
Qed.

Lemma edges_remove_edge u v g :
  dicts_wf g → v ∈ PyDict.keys (adj g u) →
  edges (remove_edge u v g).2 =
  filter (λ e : V * V * weight, e.1 ≠ (u, v)) (edges g).
Proof.
  intros (Hoe & _ & _) Hv. unfold remove_edge.
  assert (Hdel : PyDict.del v (adj g u) = Some (PyDict.remove v (adj g u)))
    by (by apply del_Some).
  rewrite Hdel. simpl. clear Hv Hdel. unfold adj. destruct g as [oe vd]. simpl in *.
  induction oe as [|[k inc] oe IH]; simpl; [done|].
  apply NoDup_cons in Hoe as [Hk Hoe].
  case_decide as Hku; simpl.
  - subst k. rewrite !(edges_cons _ _ _ vd vd).
    rewrite filter_app, filter_edges_other by done. f_equal.
    unfold PyDict.remove. clear.
    induction inc as [|[d w] inc IH]; [done|].
    rewrite fmap_cons, !filter_cons. simpl.
    destruct (decide (d ≠ v)) as [Hd|Hd].
    + rewrite decide_True by congruence. by rewrite fmap_cons, IH.
    + rewrite decide_False; [done|]. intros Hne. apply Hd. intros ->. done.
  - rewrite !(edges_cons _ _ _ vd vd), filter_app, <- IH by done. f_equal.
    symmetry. apply filter_all. intros e ([d w] & -> & _)%list_elem_of_fmap.
    simpl. congruence.
Qed.

Lemma vertex_data_remove_edge u v g :
  vertex_data (remove_edge u v g).2 = vertex_data g.
Proof. unfold remove_edge. by destruct (PyDict.del v (adj g u)). Qed.

(** *** Reachability *)

Lemma reachable_adj g v x :
  dicts_wf g →
  rtc (λ a b : V, b ∈ PyDict.keys (adj g a)) v x ↔ reachable g v x.
Proof.
  intros Hwf. unfold reachable.
  split; apply rtc_subrel; intros a b; by apply has_edge_adj.
Qed.

(** *** Weights *)


Lemma walk_nonneg g u p v z : nonneg_weights g → walk g u p v z → 0 ≤ z.
Proof.
  intros Hnn. induction 1 as [|u p y x z w Hw IH He]; [done|].
  destruct (Hnn _ _ _ He) as (w' & [= <-] & ?). lia.
Qed.

Lemma nonneg_no_negative_cycle g s : nonneg_weights g → no_negative_cycle g s.
Proof. intros Hnn p u z c zc _ Hc _. by eapply walk_nonneg. Qed.

Lemma numeric_weights_check g :
  forallb (λ e : V * V * weight,
             match e.2 with Some _ => true | None => false end)
          (edges g) = true →
  numeric_weights g.
Proof.
  intros Hall s d w Hin. rewrite forallb_forall in Hall.
  apply list_elem_of_In, Hall in Hin. simpl in Hin.
  destruct w as [z|]; [eauto | done].
Qed.

Lemma float_weights_check g :
  forallb (λ e : V * V * weight,
             match e.2 with
             | Some z => negb (float_overflow z)
             | None => false
             end)
          (edges g) = true →
  float_weights g.
Proof.
  intros Hall s d w Hin. rewrite forallb_forall in Hall.
  apply list_elem_of_In, Hall in Hin. simpl in Hin.
  destruct w as [z|]; [|done]. apply negb_true_iff in Hin. eauto.
Qed.

Lemma run_calls_app (cs cs' : list (nat * call V D)) : ∀ g,
  run_calls (cs ++ cs') g = g' ← run_calls cs g; run_calls cs' g'.
Proof.
  induction cs as [|[fuel c] cs IH]; intros g; [done|].
  simpl. destruct (run_call fuel c g) as [g1|]; [apply IH | done].
Qed.

Lemma built_step fuel (c : call V D) g g' :
  built g → run_call fuel c g = Some g' → built g'.
Proof.
  intros [cs Hcs] Hc. exists (cs ++ [(fuel, c)]).
  rewrite run_calls_app, Hcs. simpl. by rewrite Hc.
Qed.

Lemma built_init : built (init : DirectedGraph V D).
Proof. by exists []. Qed.

Lemma built_add_vertex v value g : built g → built (add_vertex v value g).
Proof. intros Hb. by apply (built_step 0 (AddVertex v value) g). Qed.

Lemma built_add_edge u v w g : built g → built (add_edge u v w g).
Proof. intros Hb. by apply (built_step 0 (AddEdge u v w) g). Qed.

Lemma nonneg_weights_check g :
  forallb (λ e : V * V * weight,
             match e.2 with Some z => bool_decide (0 ≤ z) | None => false end)
          (edges g) = true →
  nonneg_weights g.
Proof.
  intros Hall s d w Hin. rewrite forallb_forall in Hall.
  apply list_elem_of_In, Hall in Hin. simpl in Hin.
  destruct w as [z|]; [|done]. apply bool_decide_eq_true in Hin. eauto.
Qed.

End Calls.

(** * More on the graph store *)

Section StoreMore.
Context {V : Type} `{PyVertex V} {D : Type}.
Implicit Types (g : DirectedGraph V D) (u v s d : V) (w : weight).

Import PyDictFacts.

Lemma filter_none {A} (P : A → Prop) `{∀ x, Decision (P x)} (l : list A) :
  (∀ x, x ∈ l → ¬ P x) → filter P l = [].
Proof.
  induction l as [|a l IH]; intros Hl; [done|].
  rewrite filter_cons, decide_False by (apply Hl; left).
  apply IH. intros; apply Hl; by right.
Qed.

(** *** No edge twice *)

Lemma NoDup_edge_pairs g : dicts_wf g → NoDup ((edges g).*1).
Proof.
  intros (Hoe & _ & Hinc). destruct g as [oe vd]. simpl in *.
  induction oe as [|[k inc] oe IH]; [constructor|].
  apply NoDup_cons in Hoe as [Hk Hoe]. apply Forall_cons in Hinc as [Hi Hinc].
  rewrite (edges_cons _ _ _ vd vd), fmap_app. apply NoDup_app. split_and!.
  - rewrite <- list_fmap_compose.
    assert (Heq : (fst ∘ (λ dw : V * weight, (k, dw.1, dw.2))) <$> inc
                  = (λ x, (k, x)) <$> inc.*1).
    { rewrite <- list_fmap_compose. by apply list_fmap_ext. }
    rewrite Heq. apply NoDup_fmap_2; [|done]. by intros ?? [= ->].
  - intros [s d] Hin Hin'.
    apply list_elem_of_fmap in Hin as ([[s1 d1] w1] & [= -> ->] & Hin).
    apply list_elem_of_fmap in Hin as ([d2 w2] & [= -> -> ->] & Hin).
    apply list_elem_of_fmap in Hin' as ([[s3 d3] w3] & [= -> ->] & Hin').
    apply elem_edges in Hin' as (inc' & Hin' & _). simpl in Hin'.
    apply Hk. by eapply elem_keys.
  - by apply IH.
Qed.

(** *** [edge_weight] *)

Lemma adj_add_edge u v w g u' :
  adj (add_edge u v w g) u' =
    if decide (u' = u) then PyDict.set v w (adj g u) else adj g u'.
Proof.
  unfold adj at 1. unfold add_edge. simpl. case_decide as Hu.
  - subst. by rewrite get_set_eq.
  - by rewrite get_set_ne.
Qed.

Lemma touch_present g u :
  u ∈ PyDict.keys (outgoing_edges g) → touch g u = g.
Proof.
  intros Hu. unfold touch. rewrite setdefault_present by done. by destruct g.
Qed.

Lemma edge_weight_fst u v g :
  (edge_weight u v g).1 =
    match PyDict.get v (adj g u) with
    | Some w => Return w
    | None => Raise (NoSuchEdge u v)
    end.
Proof. unfold edge_weight. by destruct (PyDict.get v (adj g u)). Qed.

Lemma edge_weight_snd u v g : (edge_weight u v g).2 = touch g u.
Proof. unfold edge_weight. by destruct (PyDict.get v (adj g u)). Qed.

(** *** [incident_edges] *)

Lemma outgoing_filter v (oe : list (V * list (V * weight)))
    (vd : list (V * option D)) :
  PyDict.wf oe →
  (λ dw : V * weight, (v, dw.1, dw.2)) <$> default [] (PyDict.get v oe) =
  filter (λ e : V * V * weight, e.1.1 = v)
    (edges {| outgoing_edges := oe; vertex_data := vd |}).
Proof.
  induction oe as [|[k inc] oe IH]; intros Hoe; [done|].
  apply NoDup_cons in Hoe as [Hk Hoe].
  rewrite (edges_cons _ _ _ vd vd), filter_app. simpl.
  case_decide as Hv.
  - subst k. simpl.
    rewrite filter_all.
    2:{ by intros e ([d w] & -> & _)%list_elem_of_fmap. }
    rewrite (filter_none (λ e : V * V * weight, e.1.1 = v)
               (edges {| outgoing_edges := oe; vertex_data := vd |}));
      [by rewrite app_nil_r|].
    intros [[s d] w] (inc' & Hin & _)%elem_edges.
    simpl in *. intros ->. apply Hk. by eapply elem_keys.
  - rewrite IH by done.
    rewrite (filter_none (λ e : V * V * weight, e.1.1 = v)
               ((λ dw : V * weight, (k, dw.1, dw.2)) <$> inc)); [done|].
    intros e ([d w] & -> & _)%list_elem_of_fmap.
    simpl. congruence.
Qed.

(** *** [edge_count] *)

Lemma edge_count_length g : edge_count g = length (edges g).
Proof.
  unfold edge_count.
  assert (Hgen : ∀ (l : list (V * V * weight)) n,
            foldl (λ count _, S count) n l = (n + length l)%nat).
  { induction l as [|e l IH]; intros n; simpl; [lia|]. rewrite IH. lia. }
  by rewrite Hgen.
Qed.

Lemma length_set {A} (k : V) (a : A) (l : list (V * A)) :
  length (PyDict.set k a l) =
    if PyDict.mem k l then length l else S (length l).
Proof.
  unfold PyDict.mem. induction l as [|[k' a'] l IH]; simpl; [done|].
  case_decide; simpl; [done|]. rewrite IH. by destruct (PyDict.get k l).
Qed.

Lemma length_edges_set u (inc' : list (V * weight))
    (oe : list (V * list (V * weight))) (vd : list (V * option D)) :
  (length (edges {| outgoing_edges := PyDict.set u inc' oe; vertex_data := vd |})
   + length (default [] (PyDict.get u oe)) =
   length (edges {| outgoing_edges := oe; vertex_data := vd |}) + length inc')%nat.
Proof.
  induction oe as [|[k inc] oe IH]; simpl.
  - unfold edges. simpl. rewrite app_nil_r, length_fmap. lia.
  - case_decide; simpl.
    + rewrite !(edges_cons _ _ _ vd vd), !length_app, !length_fmap. lia.
    + rewrite !(edges_cons _ _ _ vd vd), !length_app, !length_fmap. lia.
Qed.

Lemma edge_count_add_edge u v w g :
  edge_count (add_edge u v w g) =
    if PyDict.mem v (adj g u) then edge_count g else S (edge_count g).
Proof.
  rewrite !edge_count_length.
  pose proof (length_edges_set u (PyDict.set v w (adj g u))
                (outgoing_edges g)
                (PyDict.setdefault v None
                   (PyDict.setdefault u None (vertex_data g)))) as Hlen.
  rewrite length_set in Hlen. unfold adj in *.
  assert (Hsame : length (edges g) = length (edges
            {| outgoing_edges := outgoing_edges g;
               vertex_data := PyDict.setdefault v None
                   (PyDict.setdefault u None (vertex_data g)) |})) by done.
  unfold add_edge, adj. simpl.
  destruct (PyDict.mem v (default [] (PyDict.get u (outgoing_edges g)))); lia.
Qed.

Lemma length_filter_one {A B} `{EqDecision B} (f : A → B) (l : list A) x :
  NoDup (f <$> l) → x ∈ l →
  S (length (filter (λ e, f e ≠ f x) l)) = length l.
Proof.
  induction l as [|a l IH]; intros Hnd Hx; [by apply elem_of_nil in Hx|].
  rewrite fmap_cons in Hnd. apply NoDup_cons in Hnd as [Ha Hnd].
  rewrite filter_cons. apply elem_of_cons in Hx as [->|Hx].
  - rewrite decide_False by (by intros ?). simpl. f_equal.
    f_equal. apply filter_all. intros e He Heq. apply Ha.
    rewrite <- Heq. apply list_elem_of_fmap. by exists e.
  - rewrite decide_True.
    + simpl. f_equal. by apply IH.
    + intros Heq. apply Ha. rewrite Heq. apply list_elem_of_fmap. by exists x.
Qed.

(** *** [remove_vertex] *)

Lemma edges_drop_vertex v (oe : list (V * list (V * weight)))
    (vd vd' : list (V * option D)) :
  edges {| outgoing_edges :=
             (λ e, (e.1, drop_incoming v e.2)) <$> PyDict.remove v oe;
           vertex_data := vd |} =
  filter (λ e : V * V * weight, e.1.1 ≠ v ∧ e.1.2 ≠ v)
    (edges {| outgoing_edges := oe; vertex_data := vd' |}).
Proof.
  induction oe as [|[k inc] oe IH]; [done|].
  rewrite (edges_cons _ _ _ vd' vd'), filter_app, <- IH.
  unfold PyDict.remove at 1. rewrite filter_cons. simpl.
  case_decide as Hk.
  - rewrite fmap_cons, (edges_cons _ _ _ vd vd). simpl. f_equal.
    rewrite drop_incoming_remove. unfold PyDict.remove.
    clear IH. induction inc as [|[d w] inc IH]; [done|].
    rewrite fmap_cons, !filter_cons. simpl.
    destruct (decide (d ≠ v)).
    + rewrite decide_True by done. by rewrite fmap_cons, IH.
    + rewrite decide_False by tauto. done.
  - rewrite (filter_none (λ e : V * V * weight, e.1.1 ≠ v ∧ e.1.2 ≠ v)
               ((λ dw : V * weight, (k, dw.1, dw.2)) <$> inc));
      [reflexivity|].
    intros e ([d w] & -> & _)%list_elem_of_fmap.
    simpl. intros [? _]. done.
Qed.

Lemma remove_vertex_edges_filter v g :
  v ∈ PyDict.keys (outgoing_edges g) →
  edges (remove_vertex v g).2 =
  filter (λ e : V * V * weight, e.1.1 ≠ v ∧ e.1.2 ≠ v) (edges g).
Proof.
  intros Hv. unfold remove_vertex.
  assert (Hdel : PyDict.del v (outgoing_edges g)
                 = Some (PyDict.remove v (outgoing_edges g)))
    by (by apply del_Some).
  rewrite Hdel. destruct g as [oe vd]. simpl.
  destruct (PyDict.del v vd); simpl; apply edges_drop_vertex.
Qed.

(** *** [add_edge] written twice, and taken back *)

Lemma set_set {A} (k : V) (a b : A) (l : list (V * A)) :
  PyDict.set k a (PyDict.set k b l) = PyDict.set k a l.
Proof.
  induction l as [|[k' a'] l IH]; simpl.
  - by rewrite decide_True.
  - case_decide; simpl.
    + by rewrite decide_True.
    + rewrite decide_False by done. by rewrite IH.
Qed.

Lemma add_edge_overwrite u v w w' g :
  add_edge u v w' (add_edge u v w g) = add_edge u v w' g.
Proof.
  unfold add_edge at 1. rewrite adj_add_edge, decide_True by done.
  unfold add_edge. simpl. rewrite !set_set. f_equal.
  rewrite (setdefault_present u), (setdefault_present v); [done|..];
    rewrite !elem_keys_setdefault; tauto.
Qed.

Lemma filter_pair_set u v w (inc : list (V * weight)) :
  filter (λ e : V * V * weight, e.1 ≠ (u, v))
    ((λ dw : V * weight, (u, dw.1, dw.2)) <$> PyDict.set v w inc) =
  filter (λ e : V * V * weight, e.1 ≠ (u, v))
    ((λ dw : V * weight, (u, dw.1, dw.2)) <$> inc).
Proof.
  induction inc as [|[d w0] inc IH]; cbn [PyDict.set].
  - rewrite fmap_cons, filter_cons, decide_False; [done|]. simpl. tauto.
  - case_decide as Hd.
    + subst d. rewrite !fmap_cons, !filter_cons. simpl.
      rewrite !decide_False by tauto. done.
    + rewrite !fmap_cons, !filter_cons. simpl.
      rewrite !decide_True by congruence. by rewrite IH.
Qed.

Lemma filter_edges_add_edge u v w g :
  filter (λ e : V * V * weight, e.1 ≠ (u, v)) (edges (add_edge u v w g)) =
  filter (λ e : V * V * weight, e.1 ≠ (u, v)) (edges g).
Proof.
  unfold add_edge, adj. destruct g as [oe vd]. simpl.
  generalize (PyDict.setdefault v None (PyDict.setdefault u None vd)).
  intros vd'.
  induction oe as [|[k inc] oe IH]; cbn [PyDict.get PyDict.set].
  - rewrite (edges_cons _ _ _ vd' vd'). simpl.
    rewrite filter_cons, decide_False; [done|]. simpl. tauto.
  - destruct (decide (u = k)) as [Hk|Hk].
    + subst k. cbn [default].
      rewrite (edges_cons _ _ _ vd' vd'), (edges_cons _ _ _ vd vd').
      rewrite !filter_app. f_equal. apply filter_pair_set.
    + rewrite (edges_cons _ _ _ vd' vd'), (edges_cons _ _ _ vd vd).
      rewrite !filter_app. f_equal. apply IH.
Qed.

(** *** [add_vertex] *)

Lemma vertices_add_vertex_order v value g :
  vertices (add_vertex v value g) =
    if decide (v ∈ vertices g) then vertices g else vertices g ++ [v].
Proof.
  unfold vertices, add_vertex. simpl. rewrite keys_set.
  case_decide as Hv.
  - apply mem_keys in Hv. by rewrite Hv.
  - apply mem_false_keys in Hv. by rewrite Hv.
Qed.

End StoreMore.

(** * The paths that are returned *)

Section Paths.
Context {V : Type} `{PyVertex V} {D : Type}.
Implicit Types (g : DirectedGraph V D) (u v s x y : V) (p : list V)
  (bt : gmap V (option V)).

Import PyDictFacts.

(** *** [construct_path] *)

Lemma backtrack_shape fuel bt : ∀ last_step b rest p,
  last_step = bt !! b ≫= id → linked bt (b :: rest) →
  backtrack fuel bt last_step (b :: rest) = Some (Return p) →
  linked bt p ∧ last p = last (b :: rest) ∧
  ∃ a p', p = a :: p' ∧ (bt !! a ≫= id = None ∨
                         ∃ z, bt !! a ≫= id = Some z ∧ truthy z = false).
Proof.
  induction fuel as [|fuel IH]; intros last_step b rest p Hl Hlk;
    destruct last_step as [x|]; simpl.
  - destruct (truthy x) eqn:Ht; [done|]. intros [= <-].
    split_and!; [done | done |]. exists b, rest. split; [done|]. right. eauto.
  - intros [= <-]. split_and!; [done | done |]. exists b, rest. eauto.
  - destruct (truthy x) eqn:Ht.
    + destruct (bt !! x) as [next|] eqn:Hx; [|done].
      intros Hp. apply IH in Hp as (H1 & H2 & H3).
      * split_and!; [done | | done]. rewrite H2. by rewrite last_cons_cons.
      * by rewrite Hx.
      * simpl. split; [|done]. destruct (bt !! b) as [[?|]|]; simpl in Hl; congruence.
    + intros [= <-].
      split_and!; [done | done |]. exists b, rest. split; [done|]. right. eauto.
  - intros [= <-]. split_and!; [done | done |]. exists b, rest. eauto.
Qed.

(** A path that [construct_path] returns starts at [start], ends at
    [end_], and each of its vertices but the first has the one before it
    as recorded predecessor. *)
Lemma construct_path_shape fuel bt start end_ p :
  construct_path fuel bt start end_ = Some (Return p) →
  head p = Some start ∧ last p = Some end_ ∧ linked bt p.
Proof.
  unfold construct_path.
  destruct (backtrack fuel bt (bt !! end_ ≫= id) [end_]) as [[q|ex]|] eqn:E;
    simpl; [|done..].
  case_decide as Hh; [|done]. intros [= <-].
  apply backtrack_shape in E as (H1 & H2 & _); done.
Qed.

(** The exceptions of [construct_path]. *)
Lemma construct_path_raises fuel bt start end_ ex :
  construct_path fuel bt start end_ = Some (Raise ex) →
  ex = NoPath start end_ ∨ ∃ k, ex = KeyError k ∧ bt !! k = None.
Proof.
  unfold construct_path.
  destruct (backtrack fuel bt (bt !! end_ ≫= id) [end_]) as [[q|ex']|] eqn:E;
    simpl; [| |done].
  - case_decide; [done|]. intros [= <-]. by left.
  - intros [= <-]. right. clear -E.
    revert E. generalize (bt !! end_ ≫= id) [end_].
    induction fuel as [|fuel IH]; intros [x|] path; simpl; try done.
    + by destruct (truthy x).
    + destruct (truthy x); [|done].
      destruct (bt !! x) as [next|] eqn:Hx; [apply IH|].
      intros [= <-]. eauto.
Qed.

Lemma backtrack_fuel_mono fuel fuel' bt : ∀ last_step path r,
  (fuel ≤ fuel')%nat →
  backtrack fuel bt last_step path = Some r →
  backtrack fuel' bt last_step path = Some r.
Proof.
  revert fuel'. induction fuel as [|fuel IH]; intros fuel' [x|] path r Hle;
    simpl.
  - destruct (truthy x) eqn:Ht; [done|]. intros [= <-].
    destruct fuel'; simpl; by rewrite Ht.
  - intros [= <-]. by destruct fuel'.
  - destruct fuel' as [|fuel']; [lia|]. simpl.
    destruct (truthy x); [|done].
    destruct (bt !! x); [|done]. apply IH. lia.
  - intros [= <-]. by destruct fuel'.
Qed.

Lemma construct_path_fuel_mono fuel fuel' bt start end_ r :
  (fuel ≤ fuel')%nat →
  construct_path fuel bt start end_ = Some r →
  construct_path fuel' bt start end_ = Some r.
Proof.
  intros Hle. unfold construct_path.
  destruct (backtrack fuel bt _ _) as [q|] eqn:E; [|done].
  by rewrite (backtrack_fuel_mono _ _ _ _ _ _ Hle E).
Qed.

(** *** From recorded predecessors to edges *)

Lemma linked_path_in g bt p :
  (∀ x y, bt !! x = Some (Some y) → has_edge g y x) →
  linked bt p → path_in g p.
Proof.
  intros Hs. induction p as [|a [|b p] IH]; simpl; [done..|].
  intros [Hb Hl]. split; [by apply Hs | by apply IH].
Qed.

Lemma linked_path_weight g bt p :
  dicts_wf g →
  (∀ x y, bt !! x = Some (Some y) → ∃ w, (y, x, Some w) ∈ edges g) →
  linked bt p → is_Some (path_weight g p).
Proof.
  intros Hwf Hs. induction p as [|a [|b p] IH]; [by eexists..|].
  intros [Hb Hl]. destruct (IH Hl) as [z Hz].
  destruct (Hs _ _ Hb) as [w Hw].
  apply (edges_adj g a b (Some w) Hwf) in Hw.
  change (path_weight g (a :: b :: p)) with
    (w ← PyDict.get b (adj g a) ≫= id; z ← path_weight g (b :: p);
     Some (w + z)).
  rewrite Hw, Hz. by eexists.
Qed.

Lemma init_backtracks_no_predecessor g x y :
  init_backtracks g !! x ≠ Some (Some y).
Proof. rewrite init_backtracks_lookup. by case_decide. Qed.

(** *** The predecessors that the three algorithms record *)

Lemma spb_scan_sound g end_ v nbrs :
  ∀ (st : gset V * list V * gmap V (option V)),
  (∀ y, y ∈ nbrs → y ∈ PyDict.keys (adj g v)) →
  (∀ x y, st.2 !! x = Some (Some y) → x ∈ PyDict.keys (adj g y)) →
  ∀ x y, (spb_scan end_ v nbrs st).1.2 !! x = Some (Some y) →
         x ∈ PyDict.keys (adj g y).
Proof.
  induction nbrs as [|n nbrs IH]; intros st Hn Hs; simpl; [done|].
  assert (Hn' : ∀ y, y ∈ nbrs → y ∈ PyDict.keys (adj g v))
    by (intros; apply Hn; by right).
  assert (Hs' : ∀ x y, <[n:=Some v]> st.2 !! x = Some (Some y) →
                       x ∈ PyDict.keys (adj g y)).
  { intros x y. destruct (decide (x = n)) as [->|].
    - rewrite lookup_insert_eq. intros [= <-]. apply Hn. left.
    - rewrite lookup_insert_ne by done. apply Hs. }
  case_decide; [by apply IH|].
  case_decide; [done|]. by apply IH.
Qed.

Lemma spb_loop_sound g0 end_ fuel :
  ∀ g (visited : gset V) queue bt r,
  only_touched g0 g →
  (∀ x y, bt !! x = Some (Some y) → x ∈ PyDict.keys (adj g0 y)) →
  spb_loop fuel end_ g visited queue bt = Some r →
  ∀ x y, r.1 !! x = Some (Some y) → x ∈ PyDict.keys (adj g0 y).
Proof.
  induction fuel as [|fuel IH]; intros g visited queue bt r Hg Hs;
    destruct queue as [|v queue]; simpl; try done.
  - by intros [= <-].
  - by intros [= <-].
  - rewrite (only_touched_adj _ _ v Hg).
    pose proof (spb_scan_sound g0 end_ v (PyDict.keys (adj g0 v))
                  (visited, queue, bt) ltac:(done) Hs) as Hscan.
    destruct (spb_scan end_ v _ _) as [[[visited' queue'] bt'] found].
    simpl in *. destruct found.
    + by intros [= <-].
    + apply IH; [by apply only_touched_step | done].
Qed.

Lemma dijkstra_relax_raise src_distance src (visited : gset V)
    (items : list (V * weight)) ex :
  foldl (dijkstra_relax src_distance src visited) (Raise ex) items
    = Raise ex.
Proof. induction items as [|e items IH]; [done | apply IH]. Qed.

Lemma dijkstra_relax_sound g src_distance src (visited : gset V)
    (items : list (V * weight)) :
  ∀ (st st' : gmap V dist * gmap V (option V) * list (Z * V)),
  (∀ e, e ∈ items → e ∈ adj g src) →
  (∀ x y, st.1.2 !! x = Some (Some y) → ∃ w, (x, Some w) ∈ adj g y) →
  foldl (dijkstra_relax src_distance src visited) (Return st) items
    = Return st' →
  ∀ x y, st'.1.2 !! x = Some (Some y) → ∃ w, (x, Some w) ∈ adj g y.
Proof.
  induction items as [|[des w] items IH]; intros st st' Hi Hs; cbn [foldl].
  - by intros [= <-].
  - assert (Hi' : ∀ e, e ∈ items → e ∈ adj g src)
      by (intros; apply Hi; by right).
    unfold dijkstra_relax at 2. unfold obind. cbn [fst snd].
    case_decide; [by apply IH|].
    destruct w as [w|]; [|by rewrite dijkstra_relax_raise].
    destruct (st.1.1 !! des) as [d|]; [|by rewrite dijkstra_relax_raise].
    destruct (dist_lt (Fin (src_distance + w)) d); [|by apply IH].
    apply IH; [done|]. simpl. intros x y.
    destruct (decide (x = des)) as [->|].
    + rewrite lookup_insert_eq. intros [= <-]. exists w.
      apply Hi. left.
    + rewrite lookup_insert_ne by done. apply Hs.
Qed.

Lemma dijkstra_loop_sound g0 fuel :
  ∀ g distances bt (visited : gset V) min_heap bt' g',
  only_touched g0 g →
  (∀ x y, bt !! x = Some (Some y) → ∃ w, (x, Some w) ∈ adj g0 y) →
  dijkstra_loop fuel g distances bt visited min_heap
    = Some (Return bt', g') →
  ∀ x y, bt' !! x = Some (Some y) → ∃ w, (x, Some w) ∈ adj g0 y.
Proof.
  induction fuel as [|fuel IH];
    intros g distances bt visited min_heap bt' g' Hg Hs;
    destruct min_heap as [|[src_distance src] heap]; simpl; try done.
  - by intros [= <- _].
  - by intros [= <- _].
  - rewrite (only_touched_adj _ _ src Hg).
    destruct (foldl _ _ (adj g0 src)) as [st|ex] eqn:E; [|done].
    apply IH; [by apply only_touched_step|].
    eapply dijkstra_relax_sound; [| |exact E]; done.
Qed.

Lemma bellman_ford_relax_sound g final (es : list (V * V * weight)) :
  ∀ (st st' : gmap V dist * gmap V (option V)),
  (∀ e, e ∈ es → e ∈ edges g) →
  (∀ x y, st.2 !! x = Some (Some y) → ∃ w, (y, x, Some w) ∈ edges g) →
  foldl (bellman_ford_relax final) (Return st) es = Return st' →
  ∀ x y, st'.2 !! x = Some (Some y) → ∃ w, (y, x, Some w) ∈ edges g.
Proof.
  induction es as [|[[src des] w] es IH]; intros st st' Hi Hs; cbn [foldl].
  - by intros [= <-].
  - assert (Hi' : ∀ e, e ∈ es → e ∈ edges g)
      by (intros; apply Hi; by right).
    unfold bellman_ford_relax at 2. unfold obind. cbn [fst snd].
    destruct (st.1 !! src) as [d_src|];
      [|by rewrite bellman_ford_relax_raise].
    destruct w as [w|]; [|by rewrite bellman_ford_relax_raise].
    destruct (dist_add d_src w) as [distance_to_des|];
      [|by rewrite bellman_ford_relax_raise].
    destruct (st.1 !! des) as [d_des|];
      [|by rewrite bellman_ford_relax_raise].
    destruct (dist_lt distance_to_des d_des); [|by apply IH].
    destruct final; [by rewrite bellman_ford_relax_raise|].
    apply IH; [done|]. simpl. intros x y.
    destruct (decide (x = des)) as [->|].
    + rewrite lookup_insert_eq. intros [= <-]. exists w.
      apply Hi. left.
    + rewrite lookup_insert_ne by done. apply Hs.
Qed.

Lemma bellman_ford_passes_sound g (passes : list nat) :
  ∀ (st st' : gmap V dist * gmap V (option V)),
  (∀ x y, st.2 !! x = Some (Some y) → ∃ w, (y, x, Some w) ∈ edges g) →
  foldl (bellman_ford_pass g) (Return st) passes = Return st' →
  ∀ x y, st'.2 !! x = Some (Some y) → ∃ w, (y, x, Some w) ∈ edges g.
Proof.
  induction passes as [|i passes IH]; intros st st' Hs; cbn [foldl].
  - by intros [= <-].
  - destruct (bellman_ford_pass g (Return st) i) as [st1|ex] eqn:E.
    + apply IH. eapply bellman_ford_relax_sound; [| |exact E]; done.
    + assert (Hr : ∀ passes ex, foldl (bellman_ford_pass g) (Raise ex) passes
                            = Raise ex).
      { clear. induction passes as [|i passes IH]; intros ex; [done|].
        cbn [foldl]. unfold bellman_ford_pass at 2.
        rewrite bellman_ford_relax_raise. apply IH. }
      by rewrite Hr.
Qed.

End Paths.

(** * Bellman-Ford: when the last pass raises *)

Section BellmanFordMore.
Context {V : Type} `{PyVertex V} {D : Type}.
Implicit Types (g : DirectedGraph V D) (u v s x y : V)
  (d : gmap V dist).

Lemma relaxable_dec d (e : V * V * weight) :
  relaxable d e ∨ ¬ relaxable d e.
Proof.
  unfold relaxable.
  destruct (d !! e.1.1) as [ds|] eqn:Hs;
    [|right; by intros (? & ? & ? & ? & _)].
  destruct (e.2) as [w|] eqn:Hw;
    [|right; by intros (? & ? & ? & _ & ? & _)].
  destruct (d !! e.1.2) as [dd|] eqn:Hd;
    [|right; by intros (? & ? & ? & _ & _ & ? & _)].
  destruct (dist_lt (dist_plus ds w) dd) eqn:Hlt.
  - left. by exists ds, w, dd.
  - right. intros (ds' & w' & dd' & [= <-] & [= <-] & [= <-] & Hlt').
    congruence.
Qed.

Lemma relaxable_edge_dec d (es : list (V * V * weight)) :
  (∃ e, e ∈ es ∧ relaxable d e) ∨ (∀ e, e ∈ es → ¬ relaxable d e).
Proof.
  induction es as [|e es [(e' & He' & Hr)|IH]].
  - right. intros e He. by apply elem_of_nil in He.
  - left. exists e'. split; [by right | done].
  - destruct (relaxable_dec d e) as [Hr|Hr].
    + left. exists e. split; [left | done].
    + right. intros e' [->|He']%elem_of_cons; auto.
Qed.

(** Where no edge can be relaxed, the distances obey the triangle
    inequality along every walk. *)
Lemma no_relaxable_walk g d :
  edges_closed g →
  (∀ v, v ∈ vertices g → is_Some (d !! v)) →
  (∀ e, e ∈ edges g → ¬ relaxable d e) →
  ∀ u c v z, walk g u c v z →
  ∀ a, d !! u = Some (Fin a) → ∃ b, d !! v = Some (Fin b) ∧ b ≤ a + z.
Proof.
  intros Hcl Hdom Hno u c v z Hw.
  induction Hw as [|u p y x z w Hw IH He]; intros a Ha.
  - exists a. split; [done | lia].
  - destruct (IH a Ha) as (b & Hb & Hle).
    destruct (Hcl _ _ _ He) as [_ Hx].
    destruct (Hdom x Hx) as [dx Hdx].
    destruct (dist_lt (Fin (b + w)) dx) eqn:Hlt.
    + destruct (Hno _ He). by exists (Fin b), w, dx.
    + destruct dx as [b'|]; [|done]. simpl in Hlt.
      apply bool_decide_eq_false in Hlt. exists b'. split; [done | lia].
Qed.

Lemma no_relaxable_no_negative_cycle g s d :
  edges_closed g →
  (∀ v, v ∈ vertices g → is_Some (d !! v)) →
  (∀ e, e ∈ edges g → ¬ relaxable d e) →
  (∃ a, d !! s = Some (Fin a)) →
  no_negative_cycle g s.
Proof.
  intros Hcl Hdom Hno [a Ha] p u z c zc Hp Hc _.
  destruct (no_relaxable_walk g d Hcl Hdom Hno _ _ _ _ Hp a Ha)
    as (b & Hb & _).
  destruct (no_relaxable_walk g d Hcl Hdom Hno _ _ _ _ Hc b Hb)
    as (b' & Hb' & Hle).
  assert (b' = b) by congruence. lia.
Qed.

(** With weights that are numbers, the passes raise [NegativeCycles]
    when a cycle of negative weight can be reached from [s], and return
    otherwise. *)
Lemma bellman_ford_passes_raise g s :
  edges_closed g → float_weights g →
  ¬ no_negative_cycle g s →
  bellman_ford_passes s g = Raise NegativeCycles.
Proof.
  intros Hcl Hnum Hneg.
  destruct (bellman_ford_outcome_all g s Hcl Hnum) as (st & Hst & Hr & _).
  destruct (relaxable_edge_dec st.1 (edges g)) as [Hex|Hno]; [auto|].
  destruct Hneg.
  destruct (relax_passes_spec g s Hcl Hnum (vertex_count g - 1))
    as (st' & Hst' & Hdom & _ & Hle & _).
  assert (st' = st) as -> by congruence.
  apply (no_relaxable_no_negative_cycle g s st.1); [done..|].
  destruct (Hle [] s 0 (walk_nil g s)) as (y & Hy & _); [simpl; lia|].
  eauto.
Qed.

Lemma walk_start_vertex g s p v z :
  edges_closed g → walk g s p v z → v ∈ vertices g → s ∈ vertices g.
Proof.
  intros Hcl. induction 1 as [|u p y x z w Hw IH He]; [done|].
  intros _. apply IH. by apply Hcl in He as [? _].
Qed.

Lemma bellman_ford_passes_return g s :
  edges_closed g → float_weights g →
  no_negative_cycle g s →
  ∃ st, bellman_ford_passes s g = Return st.
Proof.
  intros Hcl Hnum Hnnc.
  destruct (bellman_ford_outcome_all g s Hcl Hnum) as (st & Hst & _ & Hr).
  exists st. apply Hr.
  destruct (decide (s ∈ vertices g)) as [Hs|Hs].
  - destruct (no_relaxable_edge g s Hcl Hnum Hs Hnnc) as (st' & Hst' & Hno & _).
    by assert (st' = st) as -> by congruence.
  - intros [[u x] w'] He (ds & w & dd & Hds & Hw & Hdd & Hlt).
    simpl in *. subst w'.
    destruct (relax_passes_spec g s Hcl Hnum (vertex_count g - 1))
      as (st' & Hst' & _ & I2 & _).
    assert (st' = st) as -> by congruence.
    destruct ds as [a|]; simpl in Hlt; [|done].
    destruct (I2 u a Hds) as [p Hp].
    apply Hs. eapply walk_start_vertex; [done..|].
    by apply Hcl in He as [? _].
Qed.

End BellmanFordMore.

(** * Breadth-first shortest paths *)

Section BfsPaths.
Context {V : Type} `{PyVertex V} {D : Type}.
Implicit Types (g : DirectedGraph V D) (u v s x y : V) (p q : list V)
  (bt : gmap V (option V)) (visited : gset V) (n m k : nat).

(** *** Counting edges *)

Lemma hops_zero_inv g s v : hops g s v 0 → v = s.
Proof. by inversion 1. Qed.

Lemma hops_succ_inv g s x n :
  hops g s x (S n) → ∃ y, hops g s y n ∧ has_edge g y x.
Proof. inversion 1; subst. eauto. Qed.

Lemma hops_reachable g s v n : hops g s v n → reachable g s v.
Proof.
  induction 1 as [|u v x n _ IH He]; [apply rtc_refl|].
  eapply rtc_r; [exact IH | exact He].
Qed.

Lemma depth_start g s : depth g s s 0.
Proof. split; [constructor | lia]. Qed.

Lemma depth_unique g s v n m : depth g s v n → depth g s v m → n = m.
Proof. intros [H1 H2] [H3 H4]. apply H2 in H3. apply H4 in H1. lia. Qed.

Lemma depth_zero_inv g s v : depth g s v 0 → v = s.
Proof. intros [Hh _]. by apply hops_zero_inv in Hh. Qed.

Lemma hops_path_in g u : ∀ q a n,
  hops g u a n → path_in g (a :: q) →
  ∃ b, last (a :: q) = Some b ∧ hops g u b (n + length q).
Proof.
  induction q as [|c q IH]; intros a n Hh Hp.
  - exists a. split; [done|]. by rewrite Nat.add_0_r.
  - destruct Hp as [He Hp].
    destruct (IH c (S n) (hops_snoc g u a c n Hh He) Hp) as (b & Hb & Hhb).
    exists b. split; [by rewrite last_cons_cons|].
    simpl. by rewrite Nat.add_succ_r.
Qed.

Lemma path_from_to_hops g s e q :
  path_from_to g s e q → ∃ n, length q = S n ∧ hops g s e n.
Proof.
  intros (Hh & Hl & Hp). destruct q as [|a q]; [done|].
  simpl in Hh. injection Hh as ->.
  destruct (hops_path_in g s q s 0 (hops_nil g s) Hp) as (b & Hb & Hhb).
  exists (length q). split; [done|]. simpl in Hhb. congruence.
Qed.

(** *** The loop keeps its invariant *)

Lemma spb_inv_next g s k visited q2 bt :
  spb_inv g s k None visited q2 bt →
  Forall (λ v, depth g s v (S k)) q2 →
  spb_inv g s (S k) None visited q2 bt.
Proof.
  intros (Ia & _ & Ih & Ic & Id & Ie & If) Hq2.
  split_and!; try done.
  - exists q2, []. by rewrite app_nil_r.
  - intros x m Hx Hm.
    destruct (decide (m ≤ k)%nat) as [Hle|Hgt]; [by eapply Ic|].
    assert (m = S k) as -> by lia.
    apply hops_succ_inv in Hx as (y & Hy & He).
    apply (Id y); [by eapply Ic | | done | done].
    intros Hin. rewrite Forall_forall in Hq2.
    destruct (Hq2 y Hin) as [_ Hmin]. apply Hmin in Hy. lia.
Qed.

Lemma spb_scan_inv g s end_ k v nbrs :
  ∀ (st : gset V * list V * gmap V (option V)),
  (∀ y, y ∈ nbrs → has_edge g v y) →
  v ∈ st.1.1 → depth g s v k →
  spb_inv g s k (Some v) st.1.1 st.1.2 st.2 →
  (end_ ∈ st.1.1 → end_ = s) →
  let r := spb_scan end_ v nbrs st in
  spb_inv g s k (Some v) r.1.1.1 r.1.1.2 r.1.2 ∧
  st.1.1 ⊆ r.1.1.1 ∧
  (if r.2 then end_ ∈ r.1.1.1
   else (∀ y, y ∈ nbrs → y ∈ r.1.1.1) ∧ (end_ ∈ r.1.1.1 → end_ = s)).
Proof.
  induction nbrs as [|y nbrs IH]; intros st Hn Hv Hk Hinv Hend; simpl.
  - split_and!; [done | done | | done].
    intros y Hy. by apply elem_of_nil in Hy.
  - assert (Hn' : ∀ y, y ∈ nbrs → has_edge g v y)
      by (intros; apply Hn; by right).
    case_decide as Hy.
    { destruct (IH st Hn' Hv Hk Hinv Hend) as (I1 & I2 & I3).
      split_and!; [done | done |].
      destruct (spb_scan end_ v nbrs st).2; [done|].
      destruct I3 as [I3 I4]. split; [|done].
      intros y' [->|Hy']%elem_of_cons; [by apply I2 | auto]. }
    destruct st as [[visited queue] bt]. simpl in *.
    assert (Hyy : y ∈ visited ∪ {[y]})
      by (by apply elem_of_union_r, elem_of_singleton).
    assert (Hinv' : spb_inv g s k (Some v) (visited ∪ {[y]}) (queue ++ [y])
                      (<[y:=Some v]> bt)).
    { destruct Hinv as (Ia & (q1 & q2 & -> & Hq1 & Hq2) & Ih & Ic & Id & Ie & If).
      assert (Hys : y ≠ s) by (by intros ->).
      assert (Hdy : depth g s y (S k)).
      { split.
        - econstructor; [apply Hk | apply Hn; left].
        - intros m Hm. destruct (decide (m ≤ k)%nat) as [Hle|]; [|lia].
          destruct Hy. by eapply Ic. }
      assert (Hold : ∀ x, x ∈ visited ∪ {[y]} → x ≠ y → x ∈ visited).
      { intros x [?| ->%elem_of_singleton]%elem_of_union ?; done. }
      split_and!.
      - by apply elem_of_union_l.
      - exists q1, (q2 ++ [y]). rewrite app_assoc. split; [done|].
        split; [done|]. apply Forall_app. split; [done|].
        by apply Forall_singleton.
      - intros x [Hx| ->%list_elem_of_singleton]%elem_of_app; [|done].
        by apply elem_of_union_l, Ih.
      - intros x m Hx Hm. apply elem_of_union_l. by eapply Ic.
      - intros u Hu Hq Hc x Hx.
        assert (u ≠ y).
        { intros ->. apply Hq. apply elem_of_app. right. left. }
        apply elem_of_union_l. apply (Id u); [by apply Hold | | done | done].
        intros Hin. apply Hq. apply elem_of_app. by left.
      - intros x Hx Hxs. destruct (decide (x = y)) as [->|Hxy].
        + exists v, k. rewrite lookup_insert_eq.
          split_and!; [done | by apply elem_of_union_l | apply Hn; left
                      | done | done].
        + rewrite lookup_insert_ne by done.
          destruct (Ie x) as (y0 & n & ? & ? & ? & ? & ?);
            [by apply Hold | done |].
          exists y0, n.
          split_and!; [done | by apply elem_of_union_l | done..].
      - intros x Hx. rewrite lookup_insert_ne; [apply If|].
        + destruct Hx as [Hx|Hx]; [left | by right].
          intros ?. by apply Hx, elem_of_union_l.
        + intros <-. destruct Hx as [Hx|Hx]; [by apply Hx | done]. }
    case_decide as Hye; simpl.
    + subst y. split_and!; [done | apply union_subseteq_l | done].
    + destruct (IH (visited ∪ {[y]}, queue ++ [y], <[y:=Some v]> bt))
        as (I1 & I2 & I3);
        [done | by apply elem_of_union_l | done | done | |].
      { simpl. intros [?| ->%elem_of_singleton]%elem_of_union; [auto | done]. }
      simpl in *. split_and!; [done | |].
      { etrans; [apply union_subseteq_l | exact I2]. }
      destruct (spb_scan end_ v nbrs _).2; [done|].
      destruct I3 as [I3 I4]. split; [|done].
      intros y' [->|Hy']%elem_of_cons; [by apply I2 | auto].
Qed.

Lemma spb_loop_inv g0 s end_ fuel :
  ∀ g k visited queue bt r,
  dicts_wf g0 → only_touched g0 g →
  spb_inv g0 s k None visited queue bt →
  (end_ ∈ visited → end_ = s) →
  spb_loop fuel end_ g visited queue bt = Some r →
  ∃ k' cur visited' queue',
    spb_inv g0 s k' cur visited' queue' r.1 ∧
    (reachable g0 s end_ → end_ ∈ visited').
Proof.
  induction fuel as [|fuel IH]; intros g k visited queue bt r Hwf Hg Hinv Hend;
    destruct queue as [|v queue]; simpl; try done.
  1,2: intros [= <-]; exists k, None, visited, []; split; [done|];
       destruct Hinv as (Ia & _ & _ & _ & Id & _);
       intros Hr; revert Hr; unfold reachable;
       apply (rtc_ind_r (λ x, x ∈ visited)); [done|];
       intros a b _ Hab Ha;
       apply (Id a); [done | by intros ?%elem_of_nil | done | done].
  (* the head of the queue has depth [k], or the level changes *)
  assert (∃ k0, spb_inv g0 s k0 None visited (v :: queue) bt ∧
                depth g0 s v k0) as (k0 & Hinv0 & Hk0).
  { pose proof Hinv as (_ & ([|a q1] & q2 & Hq & Hq1 & Hq2) & _).
    - simpl in Hq. subst q2. exists (S k).
      split; [by apply spb_inv_next|].
      by apply Forall_cons in Hq2 as [? _].
    - injection Hq as <- ->. exists k. split; [done|].
      by apply Forall_cons in Hq1 as [? _]. }
  clear Hinv k. rename k0 into k.
  rewrite (only_touched_adj _ _ v Hg).
  assert (Hpop : spb_inv g0 s k (Some v) visited queue bt).
  { destruct Hinv0 as (Ia & (q1 & q2 & Hq & Hq1 & Hq2) & Ih & Ic & Id & Ie & If).
    split_and!; try done.
    - destruct q1 as [|a q1].
      + simpl in Hq. subst q2. apply Forall_cons in Hq2 as [Hv2 Hq2].
        pose proof (depth_unique _ _ _ _ _ Hk0 Hv2). lia.
      + injection Hq as <- ->. apply Forall_cons in Hq1 as [_ Hq1].
        by exists q1, q2.
    - intros x Hx. apply Ih. by right.
    - intros u Hu Hq' Hc. apply Id; [done | | done].
      intros [->|?]%elem_of_cons; [by destruct Hc | done]. }
  assert (Hvv : v ∈ visited).
  { destruct Hinv0 as (_ & _ & Ih & _). apply Ih. left. }
  pose proof (spb_scan_inv g0 s end_ k v (PyDict.keys (adj g0 v))
                (visited, queue, bt)
                ltac:(by intros y Hy; apply has_edge_adj)
                Hvv Hk0 Hpop Hend) as Hscan.
  destruct (spb_scan end_ v _ _) as [[[visited' queue'] bt'] found].
  simpl in *. destruct Hscan as (I1 & I2 & I3). destruct found.
  - intros [= <-]. by exists k, (Some v), visited', queue'.
  - destruct I3 as [I3 I4].
    apply (IH (touch g v) k visited' queue' bt' r);
      [done | by apply only_touched_step | | done].
    destruct I1 as (Ia & Ib & Ih & Ic & Id & Ie & If).
    split_and!; try done.
    intros u Hu Hq _ x Hx.
    destruct (decide (u = v)) as [->|Huv].
    + apply I3. by apply has_edge_adj.
    + apply (Id u); [done | done | congruence | done].
Qed.

Lemma spb_loop_fuel_mono end_ fuel : ∀ fuel' g visited queue bt r,
  (fuel ≤ fuel')%nat →
  spb_loop fuel end_ g visited queue bt = Some r →
  spb_loop fuel' end_ g visited queue bt = Some r.
Proof.
  induction fuel as [|fuel IH]; intros fuel' g visited queue bt r Hle;
    destruct queue as [|v queue]; simpl; try done.
  - intros [= <-]. by destruct fuel'.
  - intros [= <-]. by destruct fuel'.
  - destruct fuel' as [|fuel']; [lia|]. simpl.
    destruct (spb_scan end_ v _ _) as [[[visited' queue'] bt'] found].
    simpl. destruct found; [done|]. apply IH. lia.
Qed.

(** *** Walking back along the predecessors *)

Lemma backtrack_tree g s visited bt :
  edges_closed g →
  (∀ v, v ∈ vertices g → truthy v = true) →
  s ∈ visited →
  (∀ x, x ∈ visited → x ≠ s →
     ∃ y n, bt !! x = Some (Some y) ∧ y ∈ visited ∧
            has_edge g y x ∧ depth g s y n ∧ depth g s x (S n)) →
  (∀ x, x ∉ visited ∨ x = s → bt !! x = init_backtracks g !! x) →
  ∀ n x rest fuel,
    x ∈ visited → depth g s x n → (n ≤ fuel)%nat →
    ∃ p, backtrack fuel bt (bt !! x ≫= id) (x :: rest)
           = Some (Return (p ++ x :: rest)) ∧
         length p = n ∧ head (p ++ x :: rest) = Some s.
Proof.
  intros Hcl Htr Hs Ie If.
  induction n as [|n IH]; intros x rest fuel Hx Hd Hf.
  - apply depth_zero_inv in Hd as ->. exists [].
    rewrite (If s) by (by right). rewrite init_backtracks_get.
    by destruct fuel.
  - assert (Hxs : x ≠ s).
    { intros ->. pose proof (depth_unique _ _ _ _ _ Hd (depth_start g s)).
      lia. }
    destruct (Ie x Hx Hxs) as (y & n' & Hbx & Hy & He & Hdy & Hdx).
    assert (n' = n) as ->
      by (pose proof (depth_unique _ _ _ _ _ Hd Hdx); lia).
    assert (Hyv : y ∈ vertices g).
    { destruct He as [w Hw]. by apply Hcl in Hw as [? _]. }
    destruct fuel as [|fuel]; [lia|].
    rewrite Hbx. simpl. rewrite (Htr y Hyv).
    assert (∃ next, bt !! y = Some next) as [next Hnext].
    { destruct (decide (y = s)) as [->|Hys].
      - rewrite (If s) by (by right). rewrite init_backtracks_lookup.
        rewrite decide_True by done. eauto.
      - destruct (Ie y Hy Hys) as (? & ? & -> & _). eauto. }
    rewrite Hnext.
    destruct (IH y (x :: rest) fuel Hy Hdy ltac:(lia))
      as (p & Hp & Hlen & Hh).
    rewrite Hnext in Hp. simpl in Hp.
    exists (p ++ [y]). rewrite <- app_assoc. simpl.
    split_and!; [done | rewrite length_app; simpl; lia | done].
Qed.

(** *** [find_shortest_path_bfs] *)

Lemma spb_inv_init g s :
  spb_inv g s 0 None {[s]} [s] (init_backtracks g).
Proof.
  split_and!.
  - set_solver.
  - exists [s], []. split_and!; [done | | done].
    apply Forall_singleton, depth_start.
  - intros v ->%list_elem_of_singleton. set_solver.
  - intros v m Hv Hm. assert (m = 0%nat) as -> by lia.
    apply hops_zero_inv in Hv as ->. set_solver.
  - intros u ->%elem_of_singleton Hq. destruct Hq. left.
  - intros x ->%elem_of_singleton. done.
  - done.
Qed.

Lemma spb_loop_result g s end_ :
  dicts_wf g →
  ∃ r visited k cur queue,
    (∀ fuel, (2 * size (universe g s ∖ {[s]}) + 1 ≤ fuel)%nat →
       spb_loop fuel end_ g {[s]} [s] (init_backtracks g) = Some r) ∧
    spb_inv g s k cur visited queue r.1 ∧
    (reachable g s end_ → end_ ∈ visited).
Proof.
  intros Hwf.
  destruct (spb_loop_spec g s end_ (2 * size (universe g s ∖ {[s]}) + 1)
              g {[s]} [s] (init_backtracks g))
    as (r & Hr & _); [apply only_touched_refl | set_solver | simpl; lia |].
  destruct (spb_loop_inv g s end_ _ g 0 {[s]} [s] (init_backtracks g) r Hwf
              (only_touched_refl g) (spb_inv_init g s)
              ltac:(by intros ->%elem_of_singleton) Hr)
    as (k & cur & visited & queue & Hinv & Hreach).
  exists r, visited, k, cur, queue. split_and!; [|done..].
  intros fuel Hf. by eapply spb_loop_fuel_mono.
Qed.

Lemma spb_inv_reachable g s k cur visited queue bt x :
  spb_inv g s k cur visited queue bt → x ∈ visited → reachable g s x.
Proof.
  intros (_ & _ & _ & _ & _ & Ie & _) Hx.
  destruct (decide (x = s)) as [->|Hxs]; [apply rtc_refl|].
  destruct (Ie x Hx Hxs) as (y & n & _ & _ & _ & _ & [Hh _]).
  by eapply hops_reachable.
Qed.

Lemma spb_inv_edges g s k cur visited queue bt x y :
  spb_inv g s k cur visited queue bt →
  bt !! x = Some (Some y) → has_edge g y x.
Proof.
  intros (_ & _ & _ & _ & _ & Ie & If) Hxy.
  destruct (decide (x ∈ visited ∧ x ≠ s)) as [[Hx Hxs]|Hn].
  - destruct (Ie x Hx Hxs) as (y' & n & Hb & _ & He & _). congruence.
  - rewrite If in Hxy.
    + by apply init_backtracks_no_predecessor in Hxy.
    + destruct (decide (x = s)); [by right|]. left. tauto.
Qed.

Lemma find_shortest_path_bfs_unreachable g s end_ :
  dicts_wf g → ¬ reachable g s end_ →
  ∃ n, ∀ fuel, (n ≤ fuel)%nat →
    fst <$> find_shortest_path_bfs fuel s end_ g
      = Some (Raise (NoPath s end_)).
Proof.
  intros Hwf Hno.
  destruct (spb_loop_result g s end_ Hwf)
    as (r & visited & k & cur & queue & Hr & Hinv & _).
  exists (2 * size (universe g s ∖ {[s]}) + 1)%nat. intros fuel Hf.
  unfold find_shortest_path_bfs. rewrite (Hr fuel Hf). simpl.
  assert (Hend : end_ ∉ visited).
  { intros Hin. apply Hno. by eapply spb_inv_reachable. }
  destruct Hinv as (_ & _ & _ & _ & _ & _ & If).
  unfold construct_path. rewrite (If end_) by (by left).
  rewrite init_backtracks_get.
  assert (backtrack fuel r.1 None [end_] = Some (Return [end_])) as ->
    by (by destruct fuel).
  simpl. rewrite decide_False; [done|].
  intros [= ->]. apply Hno, rtc_refl.
Qed.

Lemma find_shortest_path_bfs_shortest g s end_ :
  dicts_wf g → edges_closed g →
  (∀ v, v ∈ vertices g → truthy v = true) →
  reachable g s end_ →
  ∃ n path,
    (∀ fuel, (n ≤ fuel)%nat →
       fst <$> find_shortest_path_bfs fuel s end_ g = Some (Return path)) ∧
    path_from_to g s end_ path ∧
    ∀ q, path_from_to g s end_ q → (length path ≤ length q)%nat.
Proof.
  intros Hwf Hcl Htr Hreach.
  destruct (spb_loop_result g s end_ Hwf)
    as (r & visited & k & cur & queue & Hr & Hinv & Hend).
  specialize (Hend Hreach).
  assert (∃ n, depth g s end_ n) as [n Hn].
  { destruct (decide (end_ = s)) as [->|Hes].
    - exists 0%nat. apply depth_start.
    - destruct Hinv as (_ & _ & _ & _ & _ & Ie & _).
      destruct (Ie end_ Hend Hes) as (? & n & _ & _ & _ & _ & ?). eauto. }
  pose proof Hinv as (Ia & _ & _ & _ & _ & Ie & If).
  destruct (backtrack_tree g s visited r.1 Hcl Htr Ia Ie If n end_ [] n
              Hend Hn ltac:(lia)) as (p & Hp & Hlen & Hh).
  assert (Hcp : construct_path n r.1 s end_ = Some (Return (p ++ [end_]))).
  { unfold construct_path. rewrite Hp. simpl. by rewrite decide_True. }
  exists (2 * size (universe g s ∖ {[s]}) + 1 + n)%nat, (p ++ [end_]).
  split_and!.
  - intros fuel Hf. unfold find_shortest_path_bfs.
    rewrite (Hr fuel) by lia. simpl.
    by rewrite (construct_path_fuel_mono n fuel _ _ _ _ ltac:(lia) Hcp).
  - apply construct_path_shape in Hcp as (H1 & H2 & H3).
    split_and!; [done | done |].
    eapply linked_path_in; [|done].
    intros x y. by eapply spb_inv_edges.
  - intros q (m & Hm & Hhm)%path_from_to_hops.
    destruct Hn as [_ Hmin]. apply Hmin in Hhm.
    rewrite length_app. simpl. lia.
Qed.


(** *** Checks on a given graph *)

Lemma unreachable_check g s end_ (S : gset V) :
  s ∈ S → end_ ∉ S →
  forallb (λ e : V * V * weight,
             implb (bool_decide (e.1.1 ∈ S)) (bool_decide (e.1.2 ∈ S)))
          (edges g) = true →
  ¬ reachable g s end_.
Proof.
  intros Hs He Hall Hr. apply He. revert Hr. unfold reachable.
  apply (rtc_ind_r (λ x, x ∈ S)); [done|].
  intros a b _ [w Hab] Ha. rewrite forallb_forall in Hall.
  apply list_elem_of_In, Hall in Hab. simpl in Hab.
  rewrite (bool_decide_eq_true_2 _ Ha) in Hab.
  by apply bool_decide_eq_true in Hab.
Qed.

Lemma truthy_check g :
  forallb truthy (vertices g) = true →
  ∀ v, v ∈ vertices g → truthy v = true.
Proof.
  intros Hall v Hv. rewrite forallb_forall in Hall.
  by apply Hall, list_elem_of_In.
Qed.

End BfsPaths.

(** * Bellman-Ford returns a lightest path *)

Section BellmanFordShortest.
Context {V : Type} `{PyVertex V} {D : Type}.
Implicit Types (g : DirectedGraph V D) (u v s x y : V) (p q : list V)
  (bt : gmap V (option V)) (d : gmap V dist).

(** *** Chains of predecessors *)

Lemma linked_app_inv bt p q :
  linked bt (p ++ q) → linked bt p ∧ linked bt q.
Proof.
  induction p as [|a [|b p] IH]; simpl.
  - done.
  - intros Hl. split; [done|]. destruct q as [|c q]; [done|]. by destruct Hl.
  - intros [Hb Hl]. destruct (IH Hl) as [H1 H2]. done.
Qed.

Lemma linked_snoc bt p a x :
  last p = Some a → linked bt p → bt !! x = Some (Some a) →
  linked bt (p ++ [x]).
Proof.
  induction p as [|b p IH]; [done|]. destruct p as [|c p].
  - simpl. by intros [= ->] _ ?.
  - intros Hl [Hc Hp] Hx. rewrite last_cons_cons in Hl.
    split; [done|]. by apply IH.
Qed.

Lemma linked_join bt p v q :
  linked bt (p ++ [v]) → linked bt (v :: q) → linked bt (p ++ v :: q).
Proof.
  induction p as [|a [|b p] IH]; simpl; [done| |].
  - intros [Hv _] Hq. done.
  - intros [Hb Hl] Hq. split; [done|]. by apply IH.
Qed.

Lemma linked_insert bt p v a :
  v ∉ tail p → linked bt p → linked (<[v:=a]> bt) p.
Proof.
  induction p as [|b [|c p] IH]; simpl; [done..|].
  intros Hv [Hc Hl]. split.
  - rewrite lookup_insert_ne; [done|]. intros ->. apply Hv. left.
  - apply IH; [|done]. simpl. intros Hin. apply Hv. by right.
Qed.

Lemma linked_tail_lookup bt p x :
  linked bt p → x ∈ tail p → ∃ y, bt !! x = Some (Some y).
Proof.
  induction p as [|a [|b p] IH]; simpl.
  - by intros _ ?%elem_of_nil.
  - by intros _ ?%elem_of_nil.
  - intros [Hb Hl] [->|Hx]%elem_of_cons; [eauto|]. by apply IH.
Qed.

(** *** Walks and the weight of a path *)

Lemma walk_cons g u x p v z w :
  (u, x, Some w) ∈ edges g → walk g x p v z → walk g u (x :: p) v (w + z).
Proof.
  intros He Hw. apply (walk_app g u [x] x w p v z); [|done].
  by apply walk_edge.
Qed.

Lemma walk_cons_inv g u x p v z :
  walk g u (x :: p) v z →
  ∃ w z', (u, x, Some w) ∈ edges g ∧ walk g x p v z' ∧ z = w + z'.
Proof.
  intros Hw.
  destruct (walk_split g u [x] p v z Hw) as (y & z1 & z2 & H1 & H2 & ->).
  apply (walk_snoc_inv g u [] x y z1) in H1
    as (-> & y' & z' & w & Hn & He & ->).
  apply walk_nil_inv in Hn as [-> ->].
  exists w, z2. split_and!; [done | done | lia].
Qed.

Lemma walk_path_weight g : dicts_wf g →
  ∀ p u v z, walk g u p v z →
  path_weight g (u :: p) = Some z ∧ last (u :: p) = Some v ∧
  path_in g (u :: p).
Proof.
  intros Hwf. induction p as [|x p IH]; intros u v z Hw.
  - by apply walk_nil_inv in Hw as [-> ->].
  - apply walk_cons_inv in Hw as (w & z' & He & Hw & ->).
    destruct (IH x v z' Hw) as (H1 & H2 & H3).
    split_and!.
    + change (path_weight g (u :: x :: p)) with
        (w ← PyDict.get x (adj g u) ≫= id; z ← path_weight g (x :: p);
         Some (w + z)).
      apply (edges_adj g u x (Some w) Hwf) in He. by rewrite He, H1.
    + by rewrite last_cons_cons.
    + split; [by exists (Some w) | done].
Qed.

Lemma path_weight_walk g : dicts_wf g →
  ∀ p u z, path_weight g (u :: p) = Some z →
  ∃ v, last (u :: p) = Some v ∧ walk g u p v z.
Proof.
  intros Hwf. induction p as [|x p IH]; intros u z.
  - intros [= <-]. exists u. split; [done | constructor].
  - change (path_weight g (u :: x :: p)) with
      (w ← PyDict.get x (adj g u) ≫= id; z ← path_weight g (x :: p);
       Some (w + z)).
    destruct (PyDict.get x (adj g u)) as [[w|]|] eqn:E; [|by simpl..].
    destruct (path_weight g (x :: p)) as [z'|] eqn:E'; [|by simpl].
    cbn [mbind option_bind id].
    intros [= <-]. destruct (IH x z' E') as (v & Hl & Hw).
    exists v. split; [by rewrite last_cons_cons|].
    apply walk_cons; [|done]. by apply (edges_adj g u x (Some w) Hwf).
Qed.

(** Along a chain of predecessors the distances grow at least by the
    weights, and by the weights exactly where no edge can be relaxed. *)
Lemma linked_walk g s (st : gmap V dist * gmap V (option V)) :
  pred_tree g s st →
  ∀ q a da, linked st.2 (a :: q) → st.1 !! a = Some (Fin da) →
  ∃ b db z, last (a :: q) = Some b ∧ st.1 !! b = Some (Fin db) ∧
            walk g a q b z ∧ da + z ≤ db ∧
            ((∀ e, e ∈ edges g → ¬ relaxable st.1 e) → da + z = db).
Proof.
  intros (_ & Hedge & _).
  induction q as [|c q IH]; intros a da Hl Ha.
  - exists a, da, 0. split_and!; [done | done | constructor | lia | lia].
  - destruct Hl as [Hc Hl].
    destruct (Hedge c a Hc) as (w & dy & dx & He & Hdy & Hdx & Hle).
    assert (dy = da) as -> by congruence.
    destruct (IH c dx Hl Hdx) as (b & db & z & Hb & Hdb & Hw & Hle' & Heq).
    exists b, db, (w + z).
    split_and!; [by rewrite last_cons_cons | done | by apply walk_cons
                | lia |].
    intros Hno. specialize (Heq Hno).
    destruct (decide (da + w < dx)) as [Hlt|]; [|lia].
    destruct (Hno _ He). exists (Fin da), w, (Fin dx).
    split_and!; [done..|]. simpl. by apply bool_decide_eq_true.
Qed.

(** *** One relaxation keeps the invariant *)

Lemma pred_tree_init g s : pred_tree g s (init_distances s g, init_backtracks g).
Proof.
  split_and!; simpl.
  - rewrite init_distances_lookup. by rewrite decide_True.
  - done.
  - intros x y Hxy. by apply init_backtracks_no_predecessor in Hxy.
  - intros x dx. rewrite init_distances_lookup.
    case_decide as Hx; [|by case_decide]. subst x. intros _. by exists [s].
Qed.

Lemma pred_tree_relax g s st e st' :
  no_negative_cycle g s → e ∈ edges g →
  pred_tree g s st →
  bellman_ford_relax false (Return st) e = Return st' →
  pred_tree g s st'.
Proof.
  intros Hnnc He Hinv. destruct e as [[u v] w0].
  unfold bellman_ford_relax, obind. cbn [fst snd].
  destruct (st.1 !! u) as [du|] eqn:Hu; [|done].
  destruct w0 as [w|]; [|done].
  destruct du as [a|]; cbv beta iota delta [dist_add].
  2:{ destruct (float_overflow w); simpl; [done|].
      destruct (st.1 !! v); simpl; [|done].
      intros Heq. injection Heq as <-. done. }
  destruct (st.1 !! v) as [dv|] eqn:Hv; [|done].
  destruct (dist_lt (Fin (a + w)) dv) eqn:Hlt; [|by intros [= <-]].
  intros [= <-]. simpl in Hlt.
  pose proof Hinv as ((Hs0 & Hsb) & Hedge & Hchain).
  destruct (Hchain u a Hu) as (pu & Hhead & Hlast & Hlk).
  (* [v] is not on the chain of [u]: that would close a negative cycle *)
  assert (Hvpu : v ∉ pu).
  { intros Hin. apply list_elem_of_split in Hin as (p1 & p2 & ->).
    pose proof Hlk as [_ Hlk2]%linked_app_inv.
    assert (∃ dv', st.1 !! v = Some (Fin dv')) as [dv' Hdv'].
    { destruct p1 as [|b p1].
      - simpl in Hhead. injection Hhead as ->. eauto.
      - assert (Hlk1 : linked st.2 ((b :: p1) ++ [v])).
        { eapply proj1, (linked_app_inv st.2 ((b :: p1) ++ [v]) p2).
          by rewrite <- app_assoc. }
        destruct (linked_tail_lookup st.2 _ v Hlk1) as [y Hy].
        { simpl. apply elem_of_app. right. left. }
        destruct (Hedge v y Hy) as (? & ? & ? & _ & _ & ? & _). eauto. }
    destruct (linked_walk g s st Hinv p2 v dv' Hlk2 Hdv')
      as (b & db & z & Hb & Hdb & Hw & Hle & _).
    rewrite last_app in Hlast. simpl in Hlast.
    assert (b = u) as ->.
    { destruct (last (v :: p2)) eqn:E; simplify_eq. done. }
    assert (db = a) as -> by congruence.
    assert (dv = Fin dv') as -> by congruence.
    simpl in Hlt. apply bool_decide_eq_true in Hlt.
    assert (Hcyc : walk g v (p2 ++ [v]) v (z + w)) by (by econstructor).
    destruct (Hchain v dv' Hdv') as (pv & Hhv & Hlv & Hlkv).
    destruct pv as [|h pv]; [done|]. simpl in Hhv. injection Hhv as ->.
    destruct (linked_walk g s st Hinv pv s 0 Hlkv Hs0)
      as (b' & db' & z' & Hb' & _ & Hw' & _ & _).
    assert (b' = v) as -> by congruence.
    pose proof (no_negative_closed_walk g s _ _ _ _ _ Hnnc Hw' Hcyc). lia. }
  assert (Hvs : v ≠ s).
  { intros ->. apply Hvpu. destruct pu; [done|].
    simpl in Hhead. injection Hhead as ->. left. }
  assert (Hvu : v ≠ u).
  { intros ->. apply Hvpu. by apply last_Some_elem_of. }
  assert (Hlk' : linked (<[v:=Some u]> st.2) (pu ++ [v])).
  { eapply linked_snoc.
    - done.
    - apply linked_insert; [|done]. intros Hin. apply Hvpu.
      destruct pu; [done|]. by right.
    - by rewrite lookup_insert_eq. }
  split_and!; simpl.
  - by rewrite lookup_insert_ne.
  - by rewrite lookup_insert_ne.
  - intros x y. destruct (decide (x = v)) as [->|Hxv].
    + rewrite lookup_insert_eq. intros [= <-].
      exists w, a, (a + w). rewrite lookup_insert_eq.
      rewrite lookup_insert_ne by done. split_and!; [done..|lia].
    + rewrite lookup_insert_ne by done. intros Hxy.
      destruct (Hedge x y Hxy) as (w' & dy & dx & He' & Hdy & Hdx & Hle).
      rewrite (lookup_insert_ne _ v x) by done.
      destruct (decide (y = v)) as [->|Hyv].
      * rewrite lookup_insert_eq. exists w', (a + w), dx.
        split_and!; [done..|].
        assert (dv = Fin dy) as -> by congruence.
        simpl in Hlt. apply bool_decide_eq_true in Hlt. lia.
      * rewrite lookup_insert_ne by done. by exists w', dy, dx.
  - intros x dx. destruct (decide (x = v)) as [->|Hxv].
    + intros _. exists (pu ++ [v]). split_and!; [|by rewrite last_snoc|done].
      destruct pu; [done|]. done.
    + rewrite lookup_insert_ne by done. intros Hx.
      destruct (Hchain x dx Hx) as (px & Hhx & Hlx & Hlkx).
      destruct (decide (v ∈ px)) as [Hin|Hnin].
      * apply list_elem_of_split_r in Hin as (p1 & p2 & -> & Hv2).
        apply linked_app_inv in Hlkx as [_ Hlk2].
        exists (pu ++ v :: p2). split_and!.
        -- destruct pu; [done|]. done.
        -- rewrite last_app in Hlx |- *.
           destruct (last (v :: p2)) eqn:E; [done|].
           by apply last_None in E.
        -- apply linked_join; [done|].
           by apply linked_insert.
      * exists px. split_and!; [done..|].
        apply linked_insert; [|done]. intros Hin. apply Hnin.
        destruct px; [done|]. by right.
Qed.

(** *** The passes keep the invariant *)

Lemma pred_tree_pass g s (es : list (V * V * weight)) :
  no_negative_cycle g s →
  ∀ st st', (∀ e, e ∈ es → e ∈ edges g) → pred_tree g s st →
  foldl (bellman_ford_relax false) (Return st) es = Return st' →
  pred_tree g s st'.
Proof.
  intros Hnnc. induction es as [|e es IH]; intros st st' Hes Hinv; cbn [foldl].
  - by intros [= <-].
  - destruct (bellman_ford_relax false (Return st) e) as [st1|ex] eqn:E.
    + apply IH; [intros; apply Hes; by right|].
      eapply pred_tree_relax; [done | apply Hes; left | done | done].
    + by rewrite bellman_ford_relax_raise.
Qed.

Lemma pred_tree_passes g s k :
  no_negative_cycle g s →
  ∀ st, Nat.iter k (relax_all g)
          (Return (init_distances s g, init_backtracks g)) = Return st →
  pred_tree g s st.
Proof.
  intros Hnnc. induction k as [|k IH]; intros st; simpl.
  - intros [= <-]. apply pred_tree_init.
  - destruct (Nat.iter k _ _) as [st0|ex]; unfold relax_all at 1.
    + intros E. eapply pred_tree_pass; [done | | by apply IH | exact E]. done.
    + by rewrite bellman_ford_relax_raise.
Qed.

(** What the passes leave where no negative cycle can be reached. *)
Lemma bellman_ford_final g s :
  edges_closed g → float_weights g → no_negative_cycle g s →
  ∃ st, bellman_ford_passes s g = Return st ∧
        (∀ v, v ∈ vertices g → is_Some (st.1 !! v)) ∧
        (∀ e, e ∈ edges g → ¬ relaxable st.1 e) ∧
        pred_tree g s st.
Proof.
  intros Hcl Hnum Hnnc.
  destruct (bellman_ford_outcome_all g s Hcl Hnum) as (st & Hst & _ & Hr).
  destruct (relax_passes_spec g s Hcl Hnum (vertex_count g - 1))
    as (st' & Hst' & Hdom & I2 & _).
  assert (st' = st) as -> by congruence.
  assert (Hno : ∀ e, e ∈ edges g → ¬ relaxable st.1 e).
  { destruct (decide (s ∈ vertices g)) as [Hs|Hs].
    - destruct (no_relaxable_edge g s Hcl Hnum Hs Hnnc)
        as (st' & Hst'' & Hno & _).
      by assert (st' = st) as -> by congruence.
    - intros [[u x] w'] He (ds & w & dd & Hds & Hw & Hdd & Hlt).
      simpl in *. subst w'.
      destruct ds as [a|]; simpl in Hlt; [|done].
      destruct (I2 u a Hds) as [p Hp].
      apply Hs. eapply walk_start_vertex; [done..|].
      by apply Hcl in He as [? _]. }
  exists st. split_and!; [by apply Hr | done | done |].
  by eapply pred_tree_passes.
Qed.

(** *** [construct_path] on a chain of predecessors *)

Lemma linked_last_link bt q y x :
  linked bt (q ++ [y; x]) →
  bt !! x = Some (Some y) ∧ linked bt (q ++ [y]).
Proof.
  induction q as [|a q IH].
  - simpl. by intros [? _].
  - destruct q as [|b q].
    + simpl. intros (? & ? & _). done.
    + intros [Hb Hl]. destruct (IH Hl) as [? ?]. split; [done|].
      split; done.
Qed.

Lemma backtrack_linked bt s :
  bt !! s ≫= id = None →
  ∀ pre x rest fuel,
    head (pre ++ [x]) = Some s → linked bt (pre ++ [x]) →
    (∀ y, y ∈ pre → truthy y = true ∧ is_Some (bt !! y)) →
    (length pre ≤ fuel)%nat →
    backtrack fuel bt (bt !! x ≫= id) (x :: rest)
      = Some (Return (pre ++ x :: rest)).
Proof.
  intros Hs. induction pre as [|y pre IH] using rev_ind;
    intros x rest fuel Hh Hl Hy Hf.
  - simpl in Hh. injection Hh as ->. rewrite Hs. by destruct fuel.
  - rewrite <- app_assoc in Hl. simpl in Hl.
    apply linked_last_link in Hl as [Hx Hl].
    destruct (Hy y) as [Ht [next Hnext]]; [apply elem_of_app; right; left|].
    rewrite length_app in Hf. simpl in Hf.
    destruct fuel as [|fuel]; [lia|].
    rewrite Hx. simpl. rewrite Ht, Hnext.
    rewrite <- app_assoc. simpl.
    specialize (IH y (x :: rest) fuel). rewrite Hnext in IH. simpl in IH.
    apply IH; [|done| |lia].
    + rewrite <- app_assoc in Hh. destruct pre; done.
    + intros y' Hy'. apply Hy. apply elem_of_app. by left.
Qed.

Lemma reachable_walk g s e :
  numeric_weights g → reachable g s e → ∃ p z, walk g s p e z.
Proof.
  intros Hnum. unfold reachable.
  apply (rtc_ind_r (λ x, ∃ p z, walk g s p x z)).
  - exists [], 0. constructor.
  - intros a b _ [w Hab] (p & z & Hw).
    destruct (Hnum _ _ _ Hab) as [w' ->].
    exists (p ++ [b]), (z + w'). by econstructor.
Qed.

Lemma walk_reachable g u p v z : walk g u p v z → reachable g u v.
Proof.
  induction 1 as [|u p y x z w Hw IH He]; [apply rtc_refl|].
  eapply rtc_r; [exact IH|]. by exists (Some w).
Qed.

Lemma linked_pred bt pre e y :
  linked bt (pre ++ [e]) → y ∈ pre → ∃ x, bt !! x = Some (Some y).
Proof.
  induction pre as [|a pre IH]; [by intros _ ?%elem_of_nil|].
  intros Hl Hy.
  assert (∃ b rest, pre ++ [e] = b :: rest) as (b & rest & Hb)
    by (destruct pre; simpl; eauto).
  simpl in Hl. rewrite Hb in Hl. destruct Hl as [Hba Hl].
  apply elem_of_cons in Hy as [->|Hy]; [eauto|].
  apply IH; [by rewrite Hb | done].
Qed.

(** *** Where the relaxations have come to rest *)

(** A state that nothing can relax: no path to [end_], no predecessor of
    [end_]. *)
Lemma settled_unreachable g s end_ st fuel :
  pred_tree g s st → ¬ reachable g s end_ →
  construct_path fuel st.2 s end_ = Some (Raise (NoPath s end_)).
Proof.
  intros Hinv Hno.
  assert (Hend : st.2 !! end_ ≫= id = None).
  { destruct (st.2 !! end_) as [[y|]|] eqn:E; [|done..].
    destruct Hno. pose proof Hinv as ((Hs0 & _) & Hedge & Hchain).
    destruct (Hedge end_ y E) as (w & dy & dx & _ & _ & Hdx & _).
    destruct (Hchain end_ dx Hdx) as (p & Hh & Hl & Hlk).
    destruct p as [|a q]; [done|]. simpl in Hh. injection Hh as ->.
    destruct (linked_walk g s st Hinv q s 0 Hlk Hs0)
      as (b & db & z & Hb & _ & Hw & _).
    assert (b = end_) as -> by congruence.
    by eapply walk_reachable. }
  unfold construct_path. rewrite Hend.
  assert (backtrack fuel st.2 None [end_] = Some (Return [end_])) as ->
    by (by destruct fuel).
  simpl. rewrite decide_False; [done|].
  intros [= ->]. apply Hno, rtc_refl.
Qed.

(** A state that nothing can relax: the chain of predecessors of [end_]
    is a lightest path, and [construct_path] returns it. *)
Lemma settled_shortest g s end_ st :
  dicts_wf g → edges_closed g → numeric_weights g →
  (∀ v, v ∈ vertices g → truthy v = true) →
  (∀ v, v ∈ vertices g → is_Some (st.1 !! v)) →
  (∀ e, e ∈ edges g → ¬ relaxable st.1 e) →
  pred_tree g s st →
  reachable g s end_ →
  ∃ path z,
    (∀ fuel, (length path ≤ fuel)%nat →
       construct_path fuel st.2 s end_ = Some (Return path)) ∧
    path_from_to g s end_ path ∧
    path_weight g path = Some z ∧
    ∀ q zq, path_from_to g s end_ q → path_weight g q = Some zq → z ≤ zq.
Proof.
  intros Hwf Hcl Hnum Htr Hdom Hno Hinv Hreach.
  pose proof Hinv as ((Hs0 & Hsb) & Hedge & Hchain).
  destruct (reachable_walk g s end_ Hnum Hreach) as (p0 & z0 & Hw0).
  destruct (no_relaxable_walk g st.1 Hcl Hdom Hno _ _ _ _ Hw0 0 Hs0)
    as (de & Hde & _).
  destruct (Hchain end_ de Hde) as (p & Hh & Hl & Hlk).
  destruct p as [|a q]; [done|]. simpl in Hh. injection Hh as ->.
  destruct (linked_walk g s st Hinv q s 0 Hlk Hs0)
    as (b & db & z & Hb & Hdb & Hw & _ & Heq).
  assert (b = end_) as -> by congruence.
  assert (db = de) as -> by congruence.
  specialize (Heq Hno).
  destruct (walk_path_weight g Hwf q s end_ z Hw) as (Hpw & _ & Hpin).
  exists (s :: q), z. split_and!; [| |done|].
  - intros fuel Hf.
    apply last_Some in Hl as [pre Hpre].
    assert (Hbt : backtrack fuel st.2 (st.2 !! end_ ≫= id) [end_]
                  = Some (Return (pre ++ [end_]))).
    { apply (backtrack_linked st.2 s).
      - rewrite Hsb. apply init_backtracks_get.
      - rewrite <- Hpre. done.
      - by rewrite <- Hpre.
      - intros y Hy.
        destruct (linked_pred st.2 pre end_ y) as [x Hx];
          [by rewrite <- Hpre | done |].
        destruct (Hedge x y Hx) as (w & dy & dx & He & Hdy & _).
        assert (Hyv : y ∈ vertices g) by (by apply Hcl in He as [? _]).
        split; [by apply Htr|].
        destruct (decide (y = s)) as [->|Hys].
        + rewrite Hsb, init_backtracks_lookup, decide_True by done. eauto.
        + destruct (Hchain y dy Hdy) as (py & Hhy & Hly & Hlky).
          destruct (linked_tail_lookup st.2 py y Hlky) as [y' ->]; [|eauto].
          destruct py as [|c py]; [done|]. simpl in Hhy. injection Hhy as ->.
          simpl. destruct py as [|c' py]; [simpl in Hly; congruence|].
          rewrite last_cons_cons in Hly. by apply last_Some_elem_of.
      - assert (length (s :: q) = length (pre ++ [end_])) as Hlen
          by (by rewrite Hpre).
        rewrite length_app in Hlen. simpl in *. lia. }
    unfold construct_path. rewrite Hbt. simpl.
    rewrite <- Hpre. simpl. by rewrite decide_True.
  - by split_and!.
  - intros q' zq (Hh' & Hl' & _) Hq'.
    destruct q' as [|a q']; [done|]. simpl in Hh'. injection Hh' as ->.
    destruct (path_weight_walk g Hwf q' s zq Hq') as (v & Hv & Hwq).
    assert (v = end_) as -> by congruence.
    destruct (no_relaxable_walk g st.1 Hcl Hdom Hno _ _ _ _ Hwq 0 Hs0)
      as (de' & Hde' & Hle).
    assert (de' = de) as -> by congruence. lia.
Qed.

(** *** [find_shortest_path_bellman_ford] *)

Lemma find_shortest_path_bellman_ford_unreachable g s end_ fuel :
  edges_closed g → float_weights g → no_negative_cycle g s →
  ¬ reachable g s end_ →
  find_shortest_path_bellman_ford fuel s end_ g
    = Some (Raise (NoPath s end_), g).
Proof.
  intros Hcl Hnum Hnnc Hno.
  destruct (bellman_ford_final g s Hcl Hnum Hnnc)
    as (st & Hpass & _ & _ & Hinv).
  unfold find_shortest_path_bellman_ford. rewrite Hpass.
  by rewrite (settled_unreachable g s end_ st fuel Hinv Hno).
Qed.

Lemma find_shortest_path_bellman_ford_shortest g s end_ :
  dicts_wf g → edges_closed g → float_weights g →
  no_negative_cycle g s →
  (∀ v, v ∈ vertices g → truthy v = true) →
  reachable g s end_ →
  ∃ path z,
    (∀ fuel, (length path ≤ fuel)%nat →
       find_shortest_path_bellman_ford fuel s end_ g
         = Some (Return path, g)) ∧
    path_from_to g s end_ path ∧
    path_weight g path = Some z ∧
    ∀ q zq, path_from_to g s end_ q → path_weight g q = Some zq → z ≤ zq.
Proof.
  intros Hwf Hcl Hnum Hnnc Htr Hreach.
  destruct (bellman_ford_final g s Hcl Hnum Hnnc)
    as (st & Hpass & Hdom & Hno & Hinv).
  destruct (settled_shortest g s end_ st Hwf Hcl (float_numeric g Hnum)
              Htr Hdom Hno Hinv Hreach)
    as (path & z & Hcp & Hpath & Hz & Hmin).
  exists path, z. split_and!; [|done..].
  intros fuel Hf. unfold find_shortest_path_bellman_ford.
  by rewrite Hpass, (Hcp fuel Hf).
Qed.

End BellmanFordShortest.

(** * Dijkstra returns a lightest path *)

Section DijkstraShortest.
Context {V : Type} `{PyVertex V} {D : Type}.
Implicit Types (u v s x y : V) (p q : list V)
  (bt : gmap V (option V)) (d : gmap V dist) (visited : gset V)
  (heap : list (Z * V)).

(** *** The heap *)



Section Loop.
Variable g : DirectedGraph V D.
Variable s : V.
Hypothesis Hwf : dicts_wf g.
Hypothesis Hcl : edges_closed g.
Hypothesis Hnn : nonneg_weights g.

(** *** A walk ends at a visited vertex or passes an entry of the heap *)




(** *** Scanning the edges of a vertex that is visited for the first
    time *)



(** *** A vertex that comes out of the heap again changes nothing *)




(** *** The loop keeps its invariant *)




(** *** [find_shortest_path_dijkstra] *)





End Loop.
End DijkstraShortest.

(** * The recursive traversal on a chain *)

Lemma built_chain n : built (chain n).
Proof.
  induction n as [|n IH]; simpl.
  - apply built_add_vertex, built_init.
  - by apply built_add_edge.
Qed.

(** No edge leaves the last vertex of a chain, or a vertex beyond it. *)
Lemma adj_chain_end n j : (n ≤ j)%nat → adj (chain n) (Z.of_nat j) = [].
Proof.
  induction n as [|n IH]; intros Hj; [done|].
  cbn [chain]. rewrite adj_add_edge.
  case_decide as Heq; [lia|]. apply IH. lia.
Qed.

(** One edge leaves every other vertex, to the next one. *)
Lemma adj_chain n i :
  (i < n)%nat → adj (chain n) (Z.of_nat i) = [(Z.of_nat (S i), Some 1)].
Proof.
  induction n as [|n IH]; intros Hi; [lia|].
  cbn [chain]. rewrite adj_add_edge. case_decide as Heq.
  - assert (i = n) as -> by lia. by rewrite adj_chain_end.
  - apply IH. lia.
Qed.

Lemma vertices_chain n : 0 ∈ vertices (chain n).
Proof.
  induction n as [|n IH].
  - unfold vertices. simpl. by left.
  - cbn [chain]. apply vertices_add_edge. auto.
Qed.

(** On a chain the recursion goes one activation deeper at every vertex:
    started at vertex [i] with room for [depth] activations, it runs out of
    room when more than [depth] vertices lie ahead. *)
Lemma dfs_visit_chain n depth : ∀ i (visited : gset Z) g,
  only_touched (chain n) g →
  (i + depth ≤ n)%nat →
  (∀ j, (i < j)%nat → Z.of_nat j ∉ visited) →
  (dfs_visit depth (Z.of_nat i) (visited, g)).1 = Raise RecursionError.
Proof.
  induction depth as [|depth IH]; intros i visited g Hg Hi Hnew; [done|].
  cbn [dfs_visit]. simpl. rewrite (only_touched_adj _ _ _ Hg).
  rewrite adj_chain by lia. simpl.
  rewrite decide_False.
  - apply IH.
    + by apply only_touched_step.
    + lia.
    + intros j Hj [Hin|Hin%elem_of_singleton]%elem_of_union.
      * apply (Hnew j); [lia | done].
      * lia.
  - intros [Hin|Hin%elem_of_singleton]%elem_of_union.
    + apply (Hnew (S i)); [lia | done].
    + lia.
Qed.

(** * Bellman-Ford and weights that do not fit a float *)

Section Overflow.
Context {V : Type} `{PyVertex V} {D : Type}.
Variable g : DirectedGraph V D.
Variable s : V.
Hypothesis Hclosed : edges_closed g.
Hypothesis Hnum : numeric_weights g.

Lemma tame_init : tame g s (init_distances s g, init_backtracks g).
Proof.
  split; simpl.
  - intros x Hx. rewrite init_distances_lookup.
    case_decide; [eauto|]. rewrite decide_True by done. eauto.
  - intros x z. rewrite init_distances_lookup.
    case_decide as Hx; [|by case_decide].
    intros _. subst x. apply rtc_refl.
Qed.

Lemma tame_unreachable st u :
  tame g s st → u ∈ vertices g → ¬ reachable g s u → st.1 !! u = Some Inf.
Proof.
  intros [Hdom Hfin] Hu Hno. destruct (Hdom u Hu) as [[z|] Hd]; [|done].
  destruct Hno. by eapply Hfin.
Qed.

(** One edge: the tables stay tame, or the sum overflows, or the last
    pass finds an edge to relax, and then one that leaves a vertex that
    can be reached. *)
Lemma relax_tame final st e :
  e ∈ edges g → tame g s st →
  (∃ st', bellman_ford_relax final (Return st) e = Return st' ∧
          tame g s st') ∨
  bellman_ford_relax final (Return st) e = Raise OverflowError ∨
  (final = true ∧ reachable g s e.1.1).
Proof.
  destruct e as [[a b] w']. intros He Ht.
  destruct (Hclosed a b w' He) as [Ha Hb].
  destruct (Hnum a b w' He) as [z ->].
  pose proof Ht as [Hdom Hfin].
  destruct (Hdom a Ha) as [da Hda]. destruct (Hdom b Hb) as [db Hdb].
  unfold bellman_ford_relax, obind. cbn [fst snd]. rewrite Hda.
  destruct da as [za|]; cbv beta iota delta [dist_add].
  - rewrite Hdb.
    destruct (dist_lt (Fin (za + z)) db); [|left; by exists st].
    destruct final; [right; right; split; [done|]; by eapply Hfin|].
    left. eexists. split; [done|]. split; cbn [fst snd].
    + intros x Hx. apply lookup_insert_is_Some'. right. by apply Hdom.
    + intros x zx. destruct (decide (x = b)) as [->|Hne].
      * intros _. eapply rtc_r; [by eapply Hfin|]. by exists (Some z).
      * rewrite lookup_insert_ne by done. apply Hfin.
  - destruct (float_overflow z); [by right; left|].
    rewrite Hdb. left. by exists st.
Qed.

Lemma pass_overflow final u v w (es : list (V * V * weight)) :
  (∀ e, e ∈ es → e ∈ edges g) →
  (u, v, Some w) ∈ es → float_overflow w = true → ¬ reachable g s u →
  ∀ st, tame g s st →
  foldl (bellman_ford_relax final) (Return st) es = Raise OverflowError ∨
  (final = true ∧ ∃ e, e ∈ edges g ∧ reachable g s e.1.1).
Proof.
  intros Hes Hin Hov Hno. induction es as [|e es IH]; intros st Ht.
  { by apply elem_of_nil in Hin. }
  cbn [foldl]. apply elem_of_cons in Hin as [<-|Hin].
  - left. assert (Hu : u ∈ vertices g).
    { apply (Hclosed u v (Some w)), Hes. left. }
    unfold bellman_ford_relax at 2. unfold obind. cbn [fst snd].
    rewrite (tame_unreachable st u Ht Hu Hno).
    cbv beta iota delta [dist_add]. rewrite Hov.
    apply bellman_ford_relax_raise.
  - assert (He : e ∈ edges g) by (apply Hes; left).
    destruct (relax_tame final st e He Ht)
      as [(st' & -> & Ht')|[-> |[Hf Hr]]].
    + apply IH; [|done..]. intros e' He'. apply Hes. by right.
    + left. apply bellman_ford_relax_raise.
    + right. split; [done|]. by exists e.
Qed.

Lemma bellman_ford_pass_raise (ex : exn V) (passes : list nat) :
  foldl (bellman_ford_pass g) (Raise ex) passes = Raise ex.
Proof.
  induction passes as [|i passes IH]; [done|]. cbn [foldl].
  unfold bellman_ford_pass at 2. by rewrite bellman_ford_relax_raise.
Qed.

(** The first pass reaches the edge with its source at distance [inf]. *)
Lemma bellman_ford_passes_overflow u v w :
  (u, v, Some w) ∈ edges g → float_overflow w = true →
  ¬ reachable g s u →
  bellman_ford_passes s g = Raise OverflowError.
Proof.
  intros Hin Hov Hno. unfold bellman_ford_passes.
  destruct (Hclosed u v (Some w) Hin) as [Hu _].
  pose proof (vertex_count_pos g u Hu) as Hpos.
  destruct (vertex_count g) as [|m] eqn:Hm; [lia|].
  cbn [seq foldl]. unfold bellman_ford_pass at 2.
  destruct (pass_overflow (bool_decide (0%nat = (vertex_count g - 1)%nat))
              u v w (edges g)) with (st := (init_distances s g, init_backtracks g))
    as [->|[Hf (e & He & Hr)]]; [done..|apply tame_init| |].
  - apply bellman_ford_pass_raise.
  - exfalso. apply bool_decide_eq_true in Hf.
    destruct (Hclosed e.1.1 e.1.2 e.2) as [He1 _].
    { by destruct e as [[a b] w']. }
    unfold vertex_count, vertices in *.
    destruct (PyDict.keys (vertex_data g)) as [|x [|y l]]; simpl in *;
      [done| |lia].
    apply list_elem_of_singleton in Hu, He1. apply Hno. congruence.
Qed.

End Overflow.

(** * The specification, claim by claim *)

Local Open Scope string_scope.

(** C1.  [remove_vertex] does not succeed for every vertex of the vertex
    set: for a vertex that has no adjacency entry (a vertex that was only
    added, or one that is only the destination of edges) it raises
    [KeyError] at its first statement and leaves the graph as it was. *)
Theorem remove_vertex_without_adjacency_entry :
  "A" ∈ vertices isolated_vertex ∧
  remove_vertex "A" isolated_vertex = (Raise (KeyError "A"), isolated_vertex) ∧
  "B" ∈ vertices one_edge ∧
  remove_vertex "B" one_edge = (Raise (KeyError "B"), one_edge).
Proof.
  split_and!; [|done| |done]; apply (bool_decide_unpack _); by vm_compute.
Qed.

(** C2.  On the graph with the single edge 0 -> 1 a path from 0 to 1
    exists, and the three shortest-path functions raise [NoPath]:
    [construct_path] stops at the predecessor 0, which Python takes for
    false. *)
Theorem shortest_path_from_falsy_vertex :
  0 ∈ vertices from_zero ∧
  reachable from_zero 0 1 ∧
  nonneg_weights from_zero ∧
  fst <$> find_shortest_path_bfs 10 0 1 from_zero = Some (Raise (NoPath 0 1)) ∧
  fst <$> find_shortest_path_dijkstra 10 0 1 from_zero
    = Some (Raise (NoPath 0 1)) ∧
  fst <$> find_shortest_path_bellman_ford 10 0 1 from_zero
    = Some (Raise (NoPath 0 1)).
Proof.
  split_and!; try by vm_compute.
  - apply (bool_decide_unpack _). by vm_compute.
  - apply rtc_once. exists (Some 1). apply (bool_decide_unpack _). by vm_compute.
  - by apply nonneg_weights_check.
Qed.

(** C5.  The Dijkstra scenario: the path is A, B, C, D and its edges weigh
    4 in total. *)
Theorem dijkstra_scenario :
  vertices four_vertices = ["A"; "B"; "C"; "D"] ∧
  edges four_vertices =
    [("A", "B", Some 1); ("A", "C", Some 4); ("B", "C", Some 2);
     ("C", "D", Some 1)] ∧
  fst <$> find_shortest_path_dijkstra 10 "A" "D" four_vertices
    = Some (Return ["A"; "B"; "C"; "D"]) ∧
  path_weight four_vertices ["A"; "B"; "C"; "D"] = Some 4.
Proof. split_and!; by vm_compute. Qed.

(** C6.  All weights of [through_zero] are non-negative; from 1 to 3
    Bellman-Ford returns the path 1, 2, 3 and Dijkstra raises [NoPath]: it
    records 0 as the predecessor of 3, and [construct_path] stops there. *)
Theorem dijkstra_and_bellman_ford_disagree :
  nonneg_weights through_zero ∧
  fst <$> find_shortest_path_bellman_ford 10 1 3 through_zero
    = Some (Return [1; 2; 3]) ∧
  path_weight through_zero [1; 2; 3] = Some 2 ∧
  fst <$> find_shortest_path_dijkstra 10 1 3 through_zero
    = Some (Raise (NoPath 1 3)).
Proof.
  split_and!; try by vm_compute. by apply nonneg_weights_check.
Qed.

(** C3, as stated, fails: [breadth_first_search] from A on the graph with
    the edge A -> B leaves an adjacency entry for B that was not there. *)
Lemma breadth_first_search_creates_entry :
  ∃ g',
    run_read 5 (BreadthFirstSearch "A") one_edge = Some g' ∧
    g' ≠ one_edge ∧
    PyDict.mem "B" (outgoing_edges one_edge) = false ∧
    PyDict.get "B" (outgoing_edges g') = Some [].
Proof.
  eexists. split; [by vm_compute|]. split_and!; [|done..].
  intros [= Heq].
Qed.

(** C3, amended.  Traversals, shortest-path functions and read accessors
    leave the payloads, the vertex set and the edges with their weights as
    they were, and every adjacency entry that existed; all they can add are
    empty adjacency entries, at the end of [outgoing_edges]. *)
Theorem read_operations_frame `{PyVertex V} {D : Type}
    (fuel : nat) (op : read_op V) (g g' : DirectedGraph V D) :
  run_read fuel op g = Some g' →
  vertex_data g' = vertex_data g ∧
  vertices g' = vertices g ∧
  edges g' = edges g ∧
  (∀ u, adj g' u = adj g u) ∧
  ∃ ks : list V,
    outgoing_edges g' = (outgoing_edges g ++ ((λ k, (k, [])) <$> ks))%list.
Proof.
  intros Hr%run_read_touched. split_and!.
  - by destruct Hr.
  - by apply only_touched_vertices.
  - by apply only_touched_edges.
  - intros u. by apply only_touched_adj.
  - by destruct Hr.
Qed.

Lemma read_operations_frame_witness :
  vertex_data (touch one_edge "B") = vertex_data one_edge ∧
  vertices (touch one_edge "B") = vertices one_edge ∧
  edges (touch one_edge "B") = edges one_edge ∧
  (∀ u, adj (touch one_edge "B") u = adj one_edge u) ∧
  ∃ ks : list string,
    outgoing_edges (touch one_edge "B") =
    (outgoing_edges one_edge ++ ((λ k, (k, [])) <$> ks))%list.
Proof.
  apply (read_operations_frame 5 (BreadthFirstSearch "A") one_edge).
  vm_compute. reflexivity.
Defined.

(** C7, as stated, fails: [remove_edge] of an edge that does not exist,
    from a vertex without adjacency entry, raises and leaves a new entry. *)
Lemma remove_edge_failure_changes_graph :
  ¬ has_edge isolated_vertex "A" "Z" ∧
  (remove_edge "A" "Z" isolated_vertex).1 = Raise (NoSuchEdge "A" "Z") ∧
  (remove_edge "A" "Z" isolated_vertex).2 ≠ isolated_vertex ∧
  outgoing_edges isolated_vertex = [] ∧
  outgoing_edges (remove_edge "A" "Z" isolated_vertex).2 = [("A", [])].
Proof.
  split_and!; try done.
  intros [w Hw]. by apply elem_of_nil in Hw.
Qed.

(** C7, amended.  [remove_edge u v] raises [NoSuchEdge] exactly when there
    is no edge from [u] to [v]; otherwise it deletes that edge and no other;
    when it raises, payloads, vertices and edges are as before, and the only
    change is the adjacency entry that subscripting [outgoing_edges] with
    [u] creates when [u] has none. *)
Theorem remove_edge_spec `{PyVertex V} {D : Type}
    (g : DirectedGraph V D) (u v : V) :
  built g →
  ((remove_edge u v g).1 = Raise (NoSuchEdge u v) ↔ ¬ has_edge g u v) ∧
  (has_edge g u v →
     (remove_edge u v g).1 = Return tt ∧
     edges (remove_edge u v g).2 =
       filter (λ e : V * V * weight, e.1 ≠ (u, v)) (edges g) ∧
     vertex_data (remove_edge u v g).2 = vertex_data g) ∧
  (¬ has_edge g u v →
     (remove_edge u v g).2 = touch g u ∧
     edges (remove_edge u v g).2 = edges g ∧
     vertex_data (remove_edge u v g).2 = vertex_data g).
Proof.
  intros [Hwf _]%built_wf.
  pose proof (has_edge_adj g u v Hwf) as Hadj.
  split_and!.
  - rewrite remove_edge_raises. by rewrite Hadj.
  - intros He%Hadj. split_and!.
    + by apply remove_edge_returns.
    + by apply edges_remove_edge.
    + apply vertex_data_remove_edge.
  - intros He. rewrite Hadj in He.
    rewrite (remove_edge_failed u v g He). split_and!; [done | | done].
    apply only_touched_edges, only_touched_touch.
Qed.

Lemma remove_edge_spec_witness :
  ((remove_edge "A" "B" one_edge).1 = Raise (NoSuchEdge "A" "B") ↔
     ¬ has_edge one_edge "A" "B") ∧
  (has_edge one_edge "A" "B" →
     (remove_edge "A" "B" one_edge).1 = Return tt ∧
     edges (remove_edge "A" "B" one_edge).2 =
       filter (λ e : string * string * weight, e.1 ≠ ("A", "B"))
         (edges one_edge) ∧
     vertex_data (remove_edge "A" "B" one_edge).2 = vertex_data one_edge) ∧
  (¬ has_edge one_edge "A" "B" →
     (remove_edge "A" "B" one_edge).2 = touch one_edge "A" ∧
     edges (remove_edge "A" "B" one_edge).2 = edges one_edge ∧
     vertex_data (remove_edge "A" "B" one_edge).2 = vertex_data one_edge).
Proof.
  apply (remove_edge_spec one_edge "A" "B").
  exists [(0%nat, AddEdge "A" "B" None)]. reflexivity.
Defined.

(** C8.  After every sequence of calls, each with whatever fuel it is
    given and whether it returns or raises, both ends of every edge that
    [edges()] produces are in the vertex set; [add_edge u v w] puts [u] and
    [v] into the vertex set, with payload [None] when they were not in it. *)
Theorem edges_join_vertices `{PyVertex V} {D : Type}
    (cs : list (nat * call V D)) (g : DirectedGraph V D) :
  run_calls cs init = Some g →
  (∀ s d w, (s, d, w) ∈ edges g → s ∈ vertices g ∧ d ∈ vertices g) ∧
  (∀ (g0 : DirectedGraph V D) u v w,
     u ∈ vertices (add_edge u v w g0) ∧
     v ∈ vertices (add_edge u v w g0) ∧
     (∀ x, x = u ∨ x = v → x ∉ vertices g0 →
        PyDict.get x (vertex_data (add_edge u v w g0)) = Some None) ∧
     (∀ x, x ∈ vertices g0 →
        PyDict.get x (vertex_data (add_edge u v w g0)) =
        PyDict.get x (vertex_data g0))).
Proof.
  intros Hcs. split.
  - assert (Hb : built g) by (by exists cs).
    apply built_wf in Hb as [_ Hcl]. exact Hcl.
  - intros g0 u v w. split_and!.
    + apply vertices_add_edge. by left.
    + apply vertices_add_edge. right. by left.
    + intros x Hx Hn. rewrite add_edge_payload.
      apply PyDictFacts.get_None_keys in Hn. rewrite Hn.
      by rewrite decide_True.
    + intros x Hx. rewrite add_edge_payload.
      destruct (PyDict.get x (vertex_data g0)) eqn:E; [done|].
      by apply PyDictFacts.get_None_keys in E.
Qed.

Lemma edges_join_vertices_witness :
  (∀ s d w, (s, d, w) ∈ edges four_vertices →
     s ∈ vertices four_vertices ∧ d ∈ vertices four_vertices) ∧
  (∀ (g0 : DirectedGraph string ()) u v w,
     u ∈ vertices (add_edge u v w g0) ∧
     v ∈ vertices (add_edge u v w g0) ∧
     (∀ x, x = u ∨ x = v → x ∉ vertices g0 →
        PyDict.get x (vertex_data (add_edge u v w g0)) = Some None) ∧
     (∀ x, x ∈ vertices g0 →
        PyDict.get x (vertex_data (add_edge u v w g0)) =
        PyDict.get x (vertex_data g0))).
Proof.
  apply (edges_join_vertices
           [(0%nat, AddVertex "A" None); (0%nat, AddVertex "B" None);
            (0%nat, AddVertex "C" None); (0%nat, AddVertex "D" None);
            (0%nat, AddEdge "A" "B" (Some 1)); (0%nat, AddEdge "B" "C" (Some 2));
            (0%nat, AddEdge "A" "C" (Some 4)); (0%nat, AddEdge "C" "D" (Some 1))]).
  reflexivity.
Defined.

(** C9, as stated, fails for [depth_first_search]: on the chain
    0 -> 1 -> ... -> 1000, whose 1001 vertices can all be reached from 0,
    the recursion needs an activation for every vertex, and with room for
    1000 activations or fewer on the call stack it raises [RecursionError]
    instead of returning a set. *)
Lemma depth_first_search_exceeds_call_stack :
  built (chain 1000) ∧
  0%Z ∈ vertices (chain 1000) ∧
  ∀ depth, (depth ≤ 1000)%nat →
    (depth_first_search depth 0%Z None (chain 1000)).1 = Raise RecursionError.
Proof.
  split_and!.
  - apply built_chain.
  - apply vertices_chain.
  - intros depth Hdepth. unfold depth_first_search.
    apply (dfs_visit_chain 1000 depth 0).
    + apply only_touched_refl.
    + lia.
    + intros j _. apply not_elem_of_empty.
Qed.

(** C9, amended.  The vertices that can be reached from [v] along edges,
    [v] itself among them (whether or not [v] is in the vertex set), form a
    set that the two breadth-first searches and the iterative depth-first
    search from [v] return, with enough fuel.  The recursive
    [depth_first_search] returns the same set when the call stack has room
    for as many activations as that set has vertices; with less room it
    returns that set or raises [RecursionError], nothing else. *)
Theorem traversals_return_reachable_set `{PyVertex V} {D : Type}
    (g : DirectedGraph V D) (v : V) :
  built g →
  ∃ (S : gset V) (n : nat),
    (∀ x, x ∈ S ↔ reachable g v x) ∧
    v ∈ S ∧
    (∀ fuel, (n ≤ fuel)%nat →
      fst <$> breadth_first_search fuel v g = Some S ∧
      fst <$> breadth_first_search_queue fuel v g = Some S ∧
      fst <$> depth_first_search_iterate fuel v g = Some S) ∧
    (∀ depth, (size S ≤ depth)%nat →
      (depth_first_search depth v None g).1 = Return S) ∧
    (∀ depth,
      (depth_first_search depth v None g).1 = Return S ∨
      (depth_first_search depth v None g).1 = Raise RecursionError).
Proof.
  intros [Hwf _]%built_wf.
  pose proof (only_touched_refl g) as Hg.
  assert (Hv : rtc (λ a b : V, b ∈ PyDict.keys (adj g a)) v v) by done.
  destruct (dfsi_loop_spec g v (size (universe g v ∖ ∅)) 0 g ∅ [v])
    as [n0 Hn0]; [done | by right; left | | set_solver | done | done |].
  { intros x [?| ->%list_elem_of_singleton]; [set_solver | done]. }
  pose (n := (2 * size (universe g v) + 1 + n0)%nat).
  assert (Hsize : (size (universe g v ∖ ∅) ≤ size (universe g v))%nat)
    by (apply subseteq_size; set_solver).
  assert (Hsize' : (size (universe g v ∖ {[v]}) ≤ size (universe g v))%nat)
    by (apply subseteq_size; set_solver).
  assert (Hall : ∀ fuel, (n ≤ fuel)%nat →
    ∃ r1 r2 r4,
      (bfs_levels fuel g ∅ [v] = Some r1 ∧
       bfsq_loop fuel g {[v]} [v] = Some r2 ∧
       dfsi_loop fuel g ∅ [v] = Some r4) ∧
      (∀ x, x ∈ r1.1 ↔ reachable g v x) ∧
      (∀ x, x ∈ r2.1 ↔ reachable g v x) ∧
      (∀ x, x ∈ r4.1 ↔ reachable g v x)).
  { intros fuel Hfuel. subst n.
    destruct (bfs_levels_spec g v fuel g ∅ [v] ∅) as (r1 & Hr1 & Hs1);
      [done | by right; left | | set_solver | done | set_solver | lia |].
    { intros x [?| ->%list_elem_of_singleton]; [set_solver | done]. }
    destruct (bfsq_loop_spec g v fuel g {[v]} [v]) as (r2 & Hr2 & Hs2);
      [done | set_solver | set_solver | | | simpl; lia |].
    { by intros x ->%elem_of_singleton. }
    { intros x y ->%elem_of_singleton _. left. left. }
    destruct (Hn0 fuel) as (r4 & Hr4 & Hs4); [lia|].
    exists r1, r2, r4. split; [done|].
    split_and!; intros x; by rewrite <- (reachable_adj g v x Hwf). }
  destruct (Hall n) as (r1 & _ & _ & _ & Hs1 & _); [done|].
  assert (Hdfs : ∀ depth,
    ((depth_first_search depth v None g).1 = Raise RecursionError ∧
     (depth < size r1.1)%nat) ∨
    (depth_first_search depth v None g).1 = Return r1.1).
  { intros depth. unfold depth_first_search. simpl.
    destruct (dfs_visit_spec g v r1.1 depth) with (v := v) (S := ∅ : gset V)
      (g := g) as [[Hraise Hlt]|(r3 & Hr3 & _ & Hv3 & Hs3 & Hc3)];
      [|done | set_solver | done | |].
    - intros x Hx. apply Hs1. by apply (reachable_adj g v x Hwf).
    - left. split; [done|].
      eapply Nat.lt_le_trans; [done|]. apply subseteq_size. set_solver.
    - right. rewrite Hr3. f_equal. apply set_eq. intros x.
      rewrite Hs1, <- (reachable_adj g v x Hwf). split.
      + intros [?|?]%Hs3; [set_solver | done].
      + apply closed_reach; [done|]. intros a b Ha Hb.
        eapply Hc3; [done | set_solver | done]. }
  exists r1.1, n. split; [done|]. split; [by apply Hs1|]. split_and!.
  - intros fuel Hfuel.
    destruct (Hall fuel Hfuel)
      as (q1 & q2 & q4 & (Hq1 & Hq2 & Hq4) & Ht1 & Ht2 & Ht4).
    unfold breadth_first_search, breadth_first_search_queue,
      depth_first_search_iterate. simpl.
    rewrite Hq1, Hq2, Hq4. simpl.
    split_and!; f_equal; apply set_eq; intros x.
    + by rewrite Ht1, Hs1.
    + by rewrite Ht2, Hs1.
    + by rewrite Ht4, Hs1.
  - intros depth Hdepth. destruct (Hdfs depth) as [[_ Hlt]|Hret]; [lia | done].
  - intros depth. destruct (Hdfs depth) as [[Hraise _]|Hret]; auto.
Qed.

Lemma traversals_return_reachable_set_witness :
  ∃ (S : gset string) (n : nat),
    (∀ x, x ∈ S ↔ reachable four_vertices "B" x) ∧
    "B" ∈ S ∧
    (∀ fuel, (n ≤ fuel)%nat →
      fst <$> breadth_first_search fuel "B" four_vertices = Some S ∧
      fst <$> breadth_first_search_queue fuel "B" four_vertices = Some S ∧
      fst <$> depth_first_search_iterate fuel "B" four_vertices = Some S) ∧
    (∀ depth, (size S ≤ depth)%nat →
      (depth_first_search depth "B" None four_vertices).1 = Return S) ∧
    (∀ depth,
      (depth_first_search depth "B" None four_vertices).1 = Return S ∨
      (depth_first_search depth "B" None four_vertices).1
        = Raise RecursionError).
Proof.
  apply (traversals_return_reachable_set four_vertices "B").
  exists [(0%nat, AddVertex "A" None); (0%nat, AddVertex "B" None);
          (0%nat, AddVertex "C" None); (0%nat, AddVertex "D" None);
          (0%nat, AddEdge "A" "B" (Some 1)); (0%nat, AddEdge "B" "C" (Some 2));
          (0%nat, AddEdge "A" "C" (Some 4)); (0%nat, AddEdge "C" "D" (Some 1))].
  reflexivity.
Defined.

(** C4.  Bellman-Ford makes [vertex_count] passes over all the edges:
    [vertex_count - 1] passes that relax, then one that checks.  At an
    edge u -> v of weight w whose sum [distances[u] + w] is computed and is
    less than [distances[v]], a relaxing pass stores the sum as the
    distance of v and u as its predecessor, and the last pass raises
    [NegativeCycles]; otherwise both leave the tables as they are.  So the
    last pass never updates the tables: it leaves them as they are or
    raises.  When the weights are numbers that fit a float, k relaxing
    passes return tables in which every finite distance is the weight of a
    walk from the start, and no more than the weight of any walk of at most
    k edges; an edge that can still be relaxed in the last pass makes the
    function raise [NegativeCycles]; if there is none, the last pass
    changes nothing, so that the tables are those of [vertex_count]
    relaxing passes, and the path is built from them.  On the cycle
    A -> B (-3), B -> A (1) the function raises [NegativeCycles] from A,
    whatever the end. *)
Theorem bellman_ford_passes_and_check `{PyVertex V} {D : Type}
    (g : DirectedGraph V D) (s : V) :
  built g →
  bellman_ford_passes s g =
    foldl (bellman_ford_relax true)
      (Nat.iter (vertex_count g - 1) (relax_all g)
         (Return (init_distances s g, init_backtracks g)))
      (edges g) ∧
  (∀ (st : gmap V dist * gmap V (option V)) u v w
     d_src d_des distance_to_des,
     st.1 !! u = Some d_src →
     dist_add (V:=V) d_src w = Return distance_to_des →
     st.1 !! v = Some d_des →
     bellman_ford_relax false (Return st) (u, v, Some w) =
       (if dist_lt distance_to_des d_des
        then Return (<[v := distance_to_des]> st.1, <[v := Some u]> st.2)
        else Return st) ∧
     bellman_ford_relax true (Return st) (u, v, Some w) =
       (if dist_lt distance_to_des d_des
        then Raise NegativeCycles
        else Return st)) ∧
  (∀ st : gmap V dist * gmap V (option V),
     foldl (bellman_ford_relax true) (Return st) (edges g) = Return st ∨
     ∃ ex, foldl (bellman_ford_relax true) (Return st) (edges g) = Raise ex) ∧
  (float_weights g →
   (∀ k, ∃ st,
      Nat.iter k (relax_all g)
        (Return (init_distances s g, init_backtracks g)) = Return st ∧
      (∀ v z, st.1 !! v = Some (Fin z) → ∃ p, walk g s p v z) ∧
      (∀ p v z, walk g s p v z → (length p ≤ k)%nat →
         ∃ y, st.1 !! v = Some (Fin y) ∧ (y ≤ z)%Z)) ∧
   ∃ st,
     Nat.iter (vertex_count g - 1) (relax_all g)
       (Return (init_distances s g, init_backtracks g)) = Return st ∧
     ((∃ e, e ∈ edges g ∧ relaxable st.1 e) →
        ∀ fuel end_,
          find_shortest_path_bellman_ford fuel s end_ g
          = Some (Raise NegativeCycles, g)) ∧
     ((∀ e, e ∈ edges g → ¬ relaxable st.1 e) →
        Nat.iter (vertex_count g) (relax_all g)
          (Return (init_distances s g, init_backtracks g)) = Return st ∧
        ∀ fuel end_,
          find_shortest_path_bellman_ford fuel s end_ g
          = (p ← construct_path fuel st.2 s end_; Some (p, g)))) ∧
  (∀ fuel end_,
     find_shortest_path_bellman_ford fuel "A" end_ negative_cycle
     = Some (Raise NegativeCycles, negative_cycle)).
Proof.
  intros [_ Hcl]%built_wf. split_and!.
  - by apply bellman_ford_passes_structure.
  - intros st u v w d_src d_des distance_to_des Hu Hadd Hv.
    unfold bellman_ford_relax. simpl. rewrite Hu, Hadd. simpl.
    by rewrite Hv.
  - intros st. apply final_pass_no_update.
  - intros Hfloat. split.
    + intros k.
      destruct (relax_passes_spec g s Hcl Hfloat k)
        as (st & Hst & _ & Hwalk & Hle & _).
      by exists st.
    + destruct (bellman_ford_outcome_all g s Hcl Hfloat)
        as (st & Hst & H1 & H2).
      exists st. split; [done|]. split.
      * intros Hrel fuel end_. unfold find_shortest_path_bellman_ford.
        by rewrite (H1 Hrel).
      * intros Hno. destruct (H2 Hno) as [Hp Hiter]. split; [done|].
        intros fuel end_. unfold find_shortest_path_bellman_ford.
        by rewrite Hp.
  - intros fuel end_. unfold find_shortest_path_bellman_ford.
    assert (bellman_ford_passes "A" negative_cycle = Raise NegativeCycles)
      as -> by (by vm_compute).
    done.
Qed.

Lemma bellman_ford_passes_and_check_witness :
  bellman_ford_passes "A" negative_cycle =
    foldl (bellman_ford_relax true)
      (Nat.iter (vertex_count negative_cycle - 1) (relax_all negative_cycle)
         (Return (init_distances "A" negative_cycle,
                  init_backtracks negative_cycle)))
      (edges negative_cycle) ∧
  (∀ st : gmap string dist * gmap string (option string),
     foldl (bellman_ford_relax true) (Return st) (edges negative_cycle)
       = Return st ∨
     ∃ ex, foldl (bellman_ford_relax true) (Return st) (edges negative_cycle)
             = Raise ex) ∧
  (∀ k, ∃ st,
     Nat.iter k (relax_all negative_cycle)
       (Return (init_distances "A" negative_cycle,
                init_backtracks negative_cycle)) = Return st ∧
     (∀ v z, st.1 !! v = Some (Fin z) → ∃ p, walk negative_cycle "A" p v z) ∧
     (∀ p v z, walk negative_cycle "A" p v z → (length p ≤ k)%nat →
        ∃ y, st.1 !! v = Some (Fin y) ∧ (y ≤ z)%Z)) ∧
  (∃ st,
     Nat.iter (vertex_count negative_cycle - 1) (relax_all negative_cycle)
       (Return (init_distances "A" negative_cycle,
                init_backtracks negative_cycle)) = Return st ∧
     ((∃ e, e ∈ edges negative_cycle ∧ relaxable st.1 e) →
        ∀ fuel end_,
          find_shortest_path_bellman_ford fuel "A" end_ negative_cycle
          = Some (Raise NegativeCycles, negative_cycle)) ∧
     ((∀ e, e ∈ edges negative_cycle → ¬ relaxable st.1 e) →
        Nat.iter (vertex_count negative_cycle) (relax_all negative_cycle)
          (Return (init_distances "A" negative_cycle,
                   init_backtracks negative_cycle)) = Return st ∧
        ∀ fuel end_,
          find_shortest_path_bellman_ford fuel "A" end_ negative_cycle
          = (p ← construct_path fuel st.2 "A" end_;
             Some (p, negative_cycle)))) ∧
  (∀ fuel end_,
     find_shortest_path_bellman_ford fuel "A" end_ negative_cycle
     = Some (Raise NegativeCycles, negative_cycle)).
Proof.
  assert (Hb : built negative_cycle).
  { exists [(0%nat, AddEdge "A" "B" (Some (-3)%Z));
            (0%nat, AddEdge "B" "A" (Some 1%Z))].
    reflexivity. }
  assert (Hfloat : float_weights negative_cycle).
  { apply float_weights_check. reflexivity. }
  destruct (bellman_ford_passes_and_check negative_cycle "A" Hb)
    as (H1 & _ & H2 & H3 & H4).
  destruct (H3 Hfloat) as [H3a H3b].
  split_and!.
  - exact H1.
  - exact H2.
  - exact H3a.
  - exact H3b.
  - exact H4.
Defined.




(** * Further properties of the code *)

(** X1.  In a graph that calls have built, [vertices()] yields no vertex
    twice and [edges()] yields at most one triple for an ordered pair of
    vertices. *)
Theorem built_no_duplicates `{PyVertex V} {D : Type} (g : DirectedGraph V D) :
  built g → NoDup (vertices g) ∧ NoDup ((edges g).*1).
Proof.
  intros [Hwf _]%built_wf. split; [|by apply NoDup_edge_pairs].
  by destruct Hwf as (_ & ? & _).
Qed.

Lemma built_no_duplicates_witness :
  NoDup (vertices four_vertices) ∧ NoDup ((edges four_vertices).*1).
Proof.
  apply (built_no_duplicates four_vertices).
  exists [(0%nat, AddVertex "A" None); (0%nat, AddVertex "B" None);
          (0%nat, AddVertex "C" None); (0%nat, AddVertex "D" None);
          (0%nat, AddEdge "A" "B" (Some 1)); (0%nat, AddEdge "B" "C" (Some 2));
          (0%nat, AddEdge "A" "C" (Some 4)); (0%nat, AddEdge "C" "D" (Some 1))].
  reflexivity.
Defined.

(** X2.  After [add_edge u v w], [edge_weight u v] returns [w] and leaves
    the graph as it is; the weight that [edge_weight] finds, or its failure,
    for any other pair is what it was before. *)
Theorem edge_weight_after_add_edge `{PyVertex V} {D : Type}
    (g : DirectedGraph V D) (u v : V) (w : weight) :
  edge_weight u v (add_edge u v w g) = (Return w, add_edge u v w g) ∧
  ∀ u' v', (u', v') ≠ (u, v) →
    (edge_weight u' v' (add_edge u v w g)).1 = (edge_weight u' v' g).1.
Proof.
  split.
  - apply injective_projections.
    + rewrite edge_weight_fst, adj_add_edge, decide_True by done.
      by rewrite PyDictFacts.get_set_eq.
    + rewrite edge_weight_snd. apply touch_present.
      unfold add_edge. simpl. apply PyDictFacts.elem_keys_set. by left.
  - intros u' v' Hne. rewrite !edge_weight_fst, adj_add_edge.
    case_decide as Hu; [|done]. subst u'.
    rewrite PyDictFacts.get_set_ne; [done|]. congruence.
Qed.

(** X3.  In a graph that calls have built, [edge_weight u v] returns [w]
    exactly when [edges()] yields [(u, v, w)], and raises [NoSuchEdge]
    exactly when there is no edge from [u] to [v]. *)
Theorem edge_weight_spec `{PyVertex V} {D : Type}
    (g : DirectedGraph V D) (u v : V) :
  built g →
  (∀ w, (edge_weight u v g).1 = Return w ↔ (u, v, w) ∈ edges g) ∧
  ((edge_weight u v g).1 = Raise (NoSuchEdge u v) ↔ ¬ has_edge g u v).
Proof.
  intros [Hwf _]%built_wf. rewrite edge_weight_fst. split.
  - intros w. rewrite (edges_adj g u v w Hwf).
    destruct (PyDict.get v (adj g u)); split; congruence.
  - unfold has_edge. setoid_rewrite (edges_adj g u v _ Hwf).
    destruct (PyDict.get v (adj g u)) as [w|]; split; try done.
    + intros Hno. destruct Hno. eauto.
    + by intros _ [w Hw].
Qed.

Lemma edge_weight_spec_witness :
  (∀ w, (edge_weight "A" "C" four_vertices).1 = Return w ↔
        ("A", "C", w) ∈ edges four_vertices) ∧
  ((edge_weight "A" "C" four_vertices).1 = Raise (NoSuchEdge "A" "C") ↔
   ¬ has_edge four_vertices "A" "C").
Proof.
  apply (edge_weight_spec four_vertices "A" "C").
  exists [(0%nat, AddVertex "A" None); (0%nat, AddVertex "B" None);
          (0%nat, AddVertex "C" None); (0%nat, AddVertex "D" None);
          (0%nat, AddEdge "A" "B" (Some 1)); (0%nat, AddEdge "B" "C" (Some 2));
          (0%nat, AddEdge "A" "C" (Some 4)); (0%nat, AddEdge "C" "D" (Some 1))].
  reflexivity.
Defined.

(** X4.  In a graph that calls have built, [incident_edges v] yields, in
    the order of [edges()], the edges that leave [v] when asked for
    'outgoing' and the edges that enter [v] when asked for 'incoming'; for
    any other [edge_type] it yields nothing and leaves the graph alone. *)
Theorem incident_edges_spec `{PyVertex V} {D : Type}
    (g : DirectedGraph V D) (v : V) :
  built g →
  (incident_edges v "outgoing" g).1 =
    filter (λ e : V * V * weight, e.1.1 = v) (edges g) ∧
  (incident_edges v "incoming" g).1 =
    filter (λ e : V * V * weight, e.1.2 = v) (edges g) ∧
  (∀ edge_type, edge_type ≠ "outgoing" → edge_type ≠ "incoming" →
     incident_edges v edge_type g = ([], g)).
Proof.
  intros [Hwf _]%built_wf. split_and!.
  - destruct Hwf as (Hoe & _ & _). destruct g as [oe vd].
    apply (outgoing_filter v oe vd Hoe).
  - done.
  - intros t H1 H2. unfold incident_edges.
    apply String.eqb_neq in H1, H2. by rewrite H1, H2.
Qed.

Lemma incident_edges_spec_witness :
  (incident_edges "C" "outgoing" four_vertices).1 =
    filter (λ e : string * string * weight, e.1.1 = "C") (edges four_vertices) ∧
  (incident_edges "C" "incoming" four_vertices).1 =
    filter (λ e : string * string * weight, e.1.2 = "C") (edges four_vertices) ∧
  (∀ edge_type, edge_type ≠ "outgoing" → edge_type ≠ "incoming" →
     incident_edges "C" edge_type four_vertices = ([], four_vertices)).
Proof.
  apply (incident_edges_spec four_vertices "C").
  exists [(0%nat, AddVertex "A" None); (0%nat, AddVertex "B" None);
          (0%nat, AddVertex "C" None); (0%nat, AddVertex "D" None);
          (0%nat, AddEdge "A" "B" (Some 1)); (0%nat, AddEdge "B" "C" (Some 2));
          (0%nat, AddEdge "A" "C" (Some 4)); (0%nat, AddEdge "C" "D" (Some 1))].
  reflexivity.
Defined.

(** X5.  [edge_count()] is the number of triples of [edges()].  In a graph
    that calls have built, [add_edge u v w] leaves it as it is when there
    is an edge from [u] to [v] already (the weight is overwritten) and
    raises it by one otherwise; a [remove_edge] that returns lowers it by
    one. *)
Theorem edge_count_changes `{PyVertex V} {D : Type}
    (g : DirectedGraph V D) (u v : V) (w : weight) :
  built g →
  edge_count g = length (edges g) ∧
  (has_edge g u v → edge_count (add_edge u v w g) = edge_count g) ∧
  (¬ has_edge g u v → edge_count (add_edge u v w g) = S (edge_count g)) ∧
  (has_edge g u v → S (edge_count (remove_edge u v g).2) = edge_count g).
Proof.
  intros [Hwf _]%built_wf.
  pose proof (has_edge_adj g u v Hwf) as Hadj.
  split_and!.
  - apply edge_count_length.
  - intros He%Hadj%PyDictFacts.mem_keys.
    by rewrite edge_count_add_edge, He.
  - intros He. rewrite Hadj in He. apply PyDictFacts.mem_false_keys in He.
    by rewrite edge_count_add_edge, He.
  - intros He. pose proof He as [w0 Hw0]. apply Hadj in He.
    rewrite !edge_count_length, (edges_remove_edge u v g Hwf He).
    apply (length_filter_one fst (edges g) (u, v, w0)); [|done].
    by apply NoDup_edge_pairs.
Qed.

Lemma edge_count_changes_witness :
  edge_count four_vertices = length (edges four_vertices) ∧
  (has_edge four_vertices "A" "C" →
     edge_count (add_edge "A" "C" (Some 7) four_vertices)
     = edge_count four_vertices) ∧
  (¬ has_edge four_vertices "A" "C" →
     edge_count (add_edge "A" "C" (Some 7) four_vertices)
     = S (edge_count four_vertices)) ∧
  (has_edge four_vertices "A" "C" →
     S (edge_count (remove_edge "A" "C" four_vertices).2)
     = edge_count four_vertices).
Proof.
  apply (edge_count_changes four_vertices "A" "C" (Some 7)).
  exists [(0%nat, AddVertex "A" None); (0%nat, AddVertex "B" None);
          (0%nat, AddVertex "C" None); (0%nat, AddVertex "D" None);
          (0%nat, AddEdge "A" "B" (Some 1)); (0%nat, AddEdge "B" "C" (Some 2));
          (0%nat, AddEdge "A" "C" (Some 4)); (0%nat, AddEdge "C" "D" (Some 1))].
  reflexivity.
Defined.

(** X6.  [remove_vertex v] returns exactly when [v] has an adjacency entry
    and a payload entry.  When it returns, [edges()] yields the former
    edges that neither leave nor enter [v], in their order, and the payload
    entries are the former ones without that of [v], in their order. *)
Theorem remove_vertex_returning `{PyVertex V} {D : Type}
    (g : DirectedGraph V D) (v : V) :
  ((remove_vertex v g).1 = Return tt ↔
     v ∈ PyDict.keys (outgoing_edges g) ∧ v ∈ vertices g) ∧
  ((remove_vertex v g).1 = Return tt →
     edges (remove_vertex v g).2 =
       filter (λ e : V * V * weight, e.1.1 ≠ v ∧ e.1.2 ≠ v) (edges g) ∧
     vertex_data (remove_vertex v g).2 =
       filter (λ e : V * option D, e.1 ≠ v) (vertex_data g) ∧
     vertices (remove_vertex v g).2 = filter (λ x, x ≠ v) (vertices g)).
Proof.
  split; [apply remove_vertex_returns|].
  intros Hret. pose proof Hret as [Hoe Hvd]%remove_vertex_returns.
  split; [by apply remove_vertex_edges_filter|].
  unfold remove_vertex, vertices in *.
  destruct (PyDict.del v (outgoing_edges g)) as [oe|]; [|done].
  destruct (PyDict.del v (vertex_data g)) as [vd|] eqn:E; [|done]. simpl.
  apply PyDictFacts.del_Some in E as [_ ->].
  split; [done | apply PyDictFacts.keys_remove].
Qed.

Lemma remove_vertex_returning_witness :
  edges (remove_vertex "C" four_vertices).2 =
    filter (λ e : string * string * weight, e.1.1 ≠ "C" ∧ e.1.2 ≠ "C")
      (edges four_vertices) ∧
  vertex_data (remove_vertex "C" four_vertices).2 =
    filter (λ e : string * option (), e.1 ≠ "C") (vertex_data four_vertices) ∧
  vertices (remove_vertex "C" four_vertices).2 =
    filter (λ x, x ≠ "C") (vertices four_vertices).
Proof.
  apply (proj2 (remove_vertex_returning four_vertices "C")). reflexivity.
Defined.

(** X7.  In a graph that calls have built, [remove_vertex] of a vertex that
    is not in the vertex set raises [KeyError] and leaves the vertex set,
    the payloads and the edges as they were. *)
Theorem remove_vertex_absent `{PyVertex V} {D : Type}
    (g : DirectedGraph V D) (v : V) :
  built g → v ∉ vertices g →
  (remove_vertex v g).1 = Raise (KeyError v) ∧
  vertex_data (remove_vertex v g).2 = vertex_data g ∧
  edges (remove_vertex v g).2 = edges g.
Proof.
  intros [_ Hcl]%built_wf Hv. split_and!.
  - apply remove_vertex_raises. tauto.
  - unfold remove_vertex, vertices in *.
    destruct (PyDict.del v (outgoing_edges g)); [|done].
    destruct (PyDict.del v (vertex_data g)) eqn:E; [|done].
    apply PyDictFacts.del_Some in E as [? _]. done.
  - destruct (decide (v ∈ PyDict.keys (outgoing_edges g))) as [Hoe|Hoe].
    + rewrite remove_vertex_edges_filter by done.
      apply filter_all. intros [[s d] w] Hin. simpl.
      destruct (Hcl s d w Hin). split; by intros ->.
    + unfold remove_vertex.
      by apply PyDictFacts.del_None in Hoe as ->.
Qed.

Lemma remove_vertex_absent_witness :
  (remove_vertex "Q" four_vertices).1 = Raise (KeyError "Q") ∧
  vertex_data (remove_vertex "Q" four_vertices).2 = vertex_data four_vertices ∧
  edges (remove_vertex "Q" four_vertices).2 = edges four_vertices.
Proof.
  apply (remove_vertex_absent four_vertices "Q").
  - exists [(0%nat, AddVertex "A" None); (0%nat, AddVertex "B" None);
            (0%nat, AddVertex "C" None); (0%nat, AddVertex "D" None);
            (0%nat, AddEdge "A" "B" (Some 1)); (0%nat, AddEdge "B" "C" (Some 2));
            (0%nat, AddEdge "A" "C" (Some 4)); (0%nat, AddEdge "C" "D" (Some 1))].
    reflexivity.
  - apply (bool_decide_unpack _). vm_compute. reflexivity.
Defined.

Lemma four_vertices_built : built four_vertices.
Proof.
  exists [(0%nat, AddVertex "A" None); (0%nat, AddVertex "B" None);
          (0%nat, AddVertex "C" None); (0%nat, AddVertex "D" None);
          (0%nat, AddEdge "A" "B" (Some 1)); (0%nat, AddEdge "B" "C" (Some 2));
          (0%nat, AddEdge "A" "C" (Some 4)); (0%nat, AddEdge "C" "D" (Some 1))].
  reflexivity.
Qed.

(** X8.  [add_vertex v value] stores [value] as the payload of [v] and
    leaves every other payload and all edges as they are.  A vertex that is
    new comes last in [vertices()] and raises [vertex_count()] by one; a
    vertex that is there keeps its place, and the count stays. *)
Theorem add_vertex_spec `{PyVertex V} {D : Type}
    (g : DirectedGraph V D) (v : V) (value : option D) :
  PyDict.get v (vertex_data (add_vertex v value g)) = Some value ∧
  (∀ u, u ≠ v → PyDict.get u (vertex_data (add_vertex v value g))
                = PyDict.get u (vertex_data g)) ∧
  vertices (add_vertex v value g) =
    (if decide (v ∈ vertices g) then vertices g else (vertices g ++ [v])%list) ∧
  vertex_count (add_vertex v value g) =
    (if decide (v ∈ vertices g) then vertex_count g
     else S (vertex_count g)) ∧
  edges (add_vertex v value g) = edges g.
Proof.
  split_and!.
  - apply PyDictFacts.get_set_eq.
  - intros u Hu. by apply PyDictFacts.get_set_ne.
  - apply vertices_add_vertex_order.
  - change (length (vertices (add_vertex v value g)) =
            if decide (v ∈ vertices g) then length (vertices g)
            else S (length (vertices g))).
    rewrite vertices_add_vertex_order. case_decide; [done|].
    rewrite length_app. simpl. lia.
  - done.
Qed.

(** X9.  In a graph that calls have built: a second [add_edge u v] with
    another weight gives the graph that the second call alone gives;
    [remove_edge u v] after [add_edge u v] returns, and the edges left are
    those the graph had before, the one from [u] to [v] apart. *)
Theorem add_edge_then_remove_edge `{PyVertex V} {D : Type}
    (g : DirectedGraph V D) (u v : V) (w w' : weight) :
  built g →
  add_edge u v w' (add_edge u v w g) = add_edge u v w' g ∧
  (remove_edge u v (add_edge u v w g)).1 = Return () ∧
  edges (remove_edge u v (add_edge u v w g)).2 =
    filter (λ e : V * V * weight, e.1 ≠ (u, v)) (edges g) ∧
  (¬ has_edge g u v →
   edges (remove_edge u v (add_edge u v w g)).2 = edges g).
Proof.
  intros [Hwf _]%built_wf.
  assert (Hin : v ∈ PyDict.keys (adj (add_edge u v w g) u)).
  { rewrite adj_add_edge, decide_True by done.
    apply PyDictFacts.elem_keys_set. by left. }
  assert (Hedges : edges (remove_edge u v (add_edge u v w g)).2 =
            filter (λ e : V * V * weight, e.1 ≠ (u, v)) (edges g)).
  { rewrite edges_remove_edge; [|by apply dicts_wf_add_edge | done].
    apply filter_edges_add_edge. }
  split_and!.
  - apply add_edge_overwrite.
  - by apply remove_edge_returns.
  - done.
  - intros Hno. rewrite Hedges. apply filter_all.
    intros [[s d] w0] He. simpl. intros [= -> ->]. apply Hno. by exists w0.
Qed.

Lemma add_edge_then_remove_edge_witness :
  add_edge "D" "A" (Some 7) (add_edge "D" "A" (Some 5) four_vertices)
    = add_edge "D" "A" (Some 7) four_vertices ∧
  (remove_edge "D" "A" (add_edge "D" "A" (Some 5) four_vertices)).1
    = Return () ∧
  edges (remove_edge "D" "A" (add_edge "D" "A" (Some 5) four_vertices)).2 =
    filter (λ e : string * string * weight, e.1 ≠ ("D", "A"))
      (edges four_vertices) ∧
  (¬ has_edge four_vertices "D" "A" →
   edges (remove_edge "D" "A" (add_edge "D" "A" (Some 5) four_vertices)).2
     = edges four_vertices).
Proof.
  apply (add_edge_then_remove_edge four_vertices "D" "A" (Some 5) (Some 7)).
  exact four_vertices_built.
Defined.

(** X10.  A list that [construct_path] returns starts with [start], ends
    with [end], and each vertex in it but the first has the vertex before it
    as its entry of [backtracks].  The exceptions it raises are the
    [ValueError] for [start] and [end], and [KeyError] for a vertex that
    [backtracks] does not hold. *)
Theorem construct_path_result `{PyVertex V}
    (fuel : nat) (backtracks : gmap V (option V)) (start end_ : V) :
  (∀ path, construct_path fuel backtracks start end_ = Some (Return path) →
     head path = Some start ∧ last path = Some end_ ∧
     linked backtracks path) ∧
  (∀ ex, construct_path fuel backtracks start end_ = Some (Raise ex) →
     ex = NoPath start end_ ∨
     ∃ k, ex = KeyError k ∧ backtracks !! k = None).
Proof.
  split.
  - intros path. apply construct_path_shape.
  - intros ex. apply construct_path_raises.
Qed.

(** X11.  In a graph that calls have built, a list that
    [find_shortest_path_bfs], [find_shortest_path_dijkstra] or
    [find_shortest_path_bellman_ford] returns for [start] and [end] is a
    path of the graph: it starts with [start], ends with [end], and every
    two vertices that follow each other in it are joined by an edge.  On a
    path that Dijkstra or Bellman-Ford returns every edge has a number as
    weight. *)
Theorem shortest_paths_are_paths `{PyVertex V} {D : Type}
    (g : DirectedGraph V D) (fuel : nat) (start end_ : V) (path : list V) :
  built g →
  (fst <$> find_shortest_path_bfs fuel start end_ g = Some (Return path) →
   path_from_to g start end_ path) ∧
  (fst <$> find_shortest_path_dijkstra fuel start end_ g
     = Some (Return path) →
   path_from_to g start end_ path ∧ is_Some (path_weight g path)) ∧
  (fst <$> find_shortest_path_bellman_ford fuel start end_ g
     = Some (Return path) →
   path_from_to g start end_ path ∧ is_Some (path_weight g path)).
Proof.
  intros [Hwf _]%built_wf. split_and!.
  - unfold find_shortest_path_bfs.
    destruct (spb_loop _ _ _ _ _ _) as [r|] eqn:E; [|done]. simpl.
    destruct (construct_path _ _ _ _) as [[p|ex]|] eqn:Ep; [|done..].
    simpl. intros [= <-].
    apply construct_path_shape in Ep as (Hh & Hl & Hlk).
    split_and!; [done..|].
    eapply linked_path_in; [|done].
    intros x y Hxy. apply (has_edge_adj g y x Hwf).
    eapply (spb_loop_sound g); [apply only_touched_refl| |exact E|exact Hxy].
    intros x' y' Hi. by apply init_backtracks_no_predecessor in Hi.
  - unfold find_shortest_path_dijkstra.
    destruct (dijkstra_loop _ _ _ _ _ _) as [[[bt|ex] g']|] eqn:E; [|done..].
    simpl.
    destruct (construct_path _ _ _ _) as [[p|ex]|] eqn:Ep; [|done..].
    simpl. intros [= <-].
    apply construct_path_shape in Ep as (Hh & Hl & Hlk).
    assert (Hs : ∀ x y, bt !! x = Some (Some y) →
                        ∃ w, (y, x, Some w) ∈ edges g).
    { intros x y Hxy.
      assert (∃ w, (x, Some w) ∈ adj g y) as [w Hw].
      { eapply (dijkstra_loop_sound g);
          [apply only_touched_refl| |exact E|exact Hxy].
        intros x' y' Hi. by apply init_backtracks_no_predecessor in Hi. }
      exists w. apply (edges_adj g y x (Some w) Hwf).
      apply PyDictFacts.elem_get; [by apply wf_adj | done]. }
    split; [|by eapply linked_path_weight].
    split_and!; [done..|].
    eapply linked_path_in; [|done].
    intros x y [w Hw]%Hs. by eexists.
  - unfold find_shortest_path_bellman_ford.
    destruct (bellman_ford_passes start g) as [st|ex] eqn:E; [|done].
    simpl.
    destruct (construct_path _ _ _ _) as [[p|ex]|] eqn:Ep; [|done..].
    simpl. intros [= <-].
    apply construct_path_shape in Ep as (Hh & Hl & Hlk).
    assert (Hs : ∀ x y, st.2 !! x = Some (Some y) →
                        ∃ w, (y, x, Some w) ∈ edges g).
    { eapply bellman_ford_passes_sound; [|exact E].
      intros x' y' Hi. by apply init_backtracks_no_predecessor in Hi. }
    split; [|by eapply linked_path_weight].
    split_and!; [done..|].
    eapply linked_path_in; [|done].
    intros x y [w Hw]%Hs. by eexists.
Qed.

Lemma shortest_paths_are_paths_witness :
  path_from_to four_vertices "A" "D" ["A"; "C"; "D"] ∧
  (path_from_to four_vertices "A" "D" ["A"; "B"; "C"; "D"] ∧
   is_Some (path_weight four_vertices ["A"; "B"; "C"; "D"])).
Proof.
  split.
  - apply (proj1 (shortest_paths_are_paths four_vertices 10 "A" "D"
                    ["A"; "C"; "D"] four_vertices_built)).
    vm_compute. reflexivity.
  - apply (proj1 (proj2 (shortest_paths_are_paths four_vertices 10 "A" "D"
                           ["A"; "B"; "C"; "D"] four_vertices_built))).
    vm_compute. reflexivity.
Defined.

(** X12.  In a graph that calls have built and whose weights are all
    numbers that fit a float, [find_shortest_path_bellman_ford] raises the
    [ValueError] for negative weight cycles exactly when a cycle of
    negative weight can be reached from [start]: it raises it for every
    [end] then, and for no [end] otherwise. *)
Theorem bellman_ford_detects_negative_cycles `{PyVertex V} {D : Type}
    (g : DirectedGraph V D) (fuel : nat) (start end_ : V) :
  built g → float_weights g →
  (¬ no_negative_cycle g start →
   find_shortest_path_bellman_ford fuel start end_ g
     = Some (Raise NegativeCycles, g)) ∧
  (no_negative_cycle g start →
   fst <$> find_shortest_path_bellman_ford fuel start end_ g
     ≠ Some (Raise NegativeCycles)).
Proof.
  intros [_ Hcl]%built_wf Hnum. unfold find_shortest_path_bellman_ford. split.
  - intros Hneg. by rewrite bellman_ford_passes_raise.
  - intros Hnnc.
    destruct (bellman_ford_passes_return g start Hcl Hnum Hnnc) as [st ->].
    destruct (construct_path _ _ _ _) as [[p|ex]|] eqn:E; simpl; [done| |done].
    apply construct_path_raises in E as [->|(k & -> & _)]; done.
Qed.

Lemma bellman_ford_detects_negative_cycles_witness :
  find_shortest_path_bellman_ford 5 "A" "B" negative_cycle
    = Some (Raise NegativeCycles, negative_cycle) ∧
  fst <$> find_shortest_path_bellman_ford 5 "A" "D" four_vertices
    ≠ Some (Raise NegativeCycles).
Proof.
  split.
  - apply (bellman_ford_detects_negative_cycles negative_cycle 5 "A" "B").
    + exists [(0%nat, AddEdge "A" "B" (Some (-3)));
              (0%nat, AddEdge "B" "A" (Some 1))].
      reflexivity.
    + apply float_weights_check. reflexivity.
    + intros Hn.
      assert (Hc : walk negative_cycle "A" ["B"; "A"] "A" (-2)).
      { apply (walk_snoc negative_cycle "A" ["B"] "B" "A" (-3) 1).
        - apply walk_edge. apply (bool_decide_unpack _). vm_compute.
          reflexivity.
        - apply (bool_decide_unpack _). vm_compute. reflexivity. }
      pose proof (Hn [] "A" 0 ["B"; "A"] (-2) (walk_nil _ _) Hc) as Hz.
      assert (Hnd : NoDup ["B"; "A"]).
      { apply (bool_decide_unpack _). vm_compute. reflexivity. }
      specialize (Hz Hnd). lia.
  - apply (bellman_ford_detects_negative_cycles four_vertices 5 "A" "D"
             four_vertices_built).
    + apply float_weights_check. reflexivity.
    + apply nonneg_no_negative_cycle, nonneg_weights_check. reflexivity.
Defined.

(** X13.  In a graph that calls have built, [find_shortest_path_bfs]
    raises the [ValueError] for [start] and [end] when no path leads from
    [start] to [end].  When one does, and Python takes no vertex of the
    graph for false, it returns a path from [start] to [end], and no path
    from [start] to [end] has fewer vertices. *)
Theorem find_shortest_path_bfs_correct `{PyVertex V} {D : Type}
    (g : DirectedGraph V D) (start end_ : V) :
  built g →
  (¬ reachable g start end_ →
   ∃ n, ∀ fuel, (n ≤ fuel)%nat →
     fst <$> find_shortest_path_bfs fuel start end_ g
       = Some (Raise (NoPath start end_))) ∧
  ((∀ v, v ∈ vertices g → truthy v = true) →
   reachable g start end_ →
   ∃ n path,
     (∀ fuel, (n ≤ fuel)%nat →
        fst <$> find_shortest_path_bfs fuel start end_ g
          = Some (Return path)) ∧
     path_from_to g start end_ path ∧
     ∀ q, path_from_to g start end_ q → (length path ≤ length q)%nat).
Proof.
  intros [Hwf Hcl]%built_wf. split.
  - by apply find_shortest_path_bfs_unreachable.
  - by apply find_shortest_path_bfs_shortest.
Qed.

Lemma find_shortest_path_bfs_correct_witness :
  (∃ n, ∀ fuel, (n ≤ fuel)%nat →
     fst <$> find_shortest_path_bfs fuel "D" "A" four_vertices
       = Some (Raise (NoPath "D" "A"))) ∧
  (∃ n path,
     (∀ fuel, (n ≤ fuel)%nat →
        fst <$> find_shortest_path_bfs fuel "A" "D" four_vertices
          = Some (Return path)) ∧
     path_from_to four_vertices "A" "D" path ∧
     ∀ q, path_from_to four_vertices "A" "D" q →
          (length path ≤ length q)%nat).
Proof.
  split.
  - apply (find_shortest_path_bfs_correct four_vertices "D" "A"
             four_vertices_built).
    apply (unreachable_check four_vertices "D" "A" {["D"]}).
    + apply elem_of_singleton. reflexivity.
    + intros Hin%elem_of_singleton. discriminate Hin.
    + vm_compute. reflexivity.
  - apply (find_shortest_path_bfs_correct four_vertices "A" "D"
             four_vertices_built).
    + apply truthy_check. reflexivity.
    + apply (rtc_l _ _ "C").
      * exists (Some 4). apply (bool_decide_unpack _). vm_compute.
        reflexivity.
      * apply rtc_once. exists (Some 1). apply (bool_decide_unpack _).
        vm_compute. reflexivity.
Defined.

(** X14.  In a graph that calls have built, with numbers that fit a float
    as weights and no cycle of negative weight that can be reached from
    [start]:
    [find_shortest_path_bellman_ford] raises the [ValueError] for [start]
    and [end] when no path leads from [start] to [end]; when one does, and
    Python takes no vertex of the graph for false, it returns a path from
    [start] to [end] whose weight no path from [start] to [end] undercuts.
    The graph is left as it is. *)
Theorem find_shortest_path_bellman_ford_correct `{PyVertex V} {D : Type}
    (g : DirectedGraph V D) (start end_ : V) :
  built g → float_weights g → no_negative_cycle g start →
  (¬ reachable g start end_ →
   ∀ fuel, find_shortest_path_bellman_ford fuel start end_ g
             = Some (Raise (NoPath start end_), g)) ∧
  ((∀ v, v ∈ vertices g → truthy v = true) →
   reachable g start end_ →
   ∃ path z,
     (∀ fuel, (length path ≤ fuel)%nat →
        find_shortest_path_bellman_ford fuel start end_ g
          = Some (Return path, g)) ∧
     path_from_to g start end_ path ∧
     path_weight g path = Some z ∧
     ∀ q zq, path_from_to g start end_ q → path_weight g q = Some zq →
             (z ≤ zq)%Z).
Proof.
  intros [Hwf Hcl]%built_wf Hnum Hnnc. split.
  - intros Hno fuel. by apply find_shortest_path_bellman_ford_unreachable.
  - intros Htr Hreach. by apply find_shortest_path_bellman_ford_shortest.
Qed.

Lemma find_shortest_path_bellman_ford_correct_witness :
  (∀ fuel, find_shortest_path_bellman_ford fuel "D" "A" four_vertices
             = Some (Raise (NoPath "D" "A"), four_vertices)) ∧
  (∃ path z,
     (∀ fuel, (length path ≤ fuel)%nat →
        find_shortest_path_bellman_ford fuel "A" "D" four_vertices
          = Some (Return path, four_vertices)) ∧
     path_from_to four_vertices "A" "D" path ∧
     path_weight four_vertices path = Some z ∧
     ∀ q zq, path_from_to four_vertices "A" "D" q →
             path_weight four_vertices q = Some zq → (z ≤ zq)%Z).
Proof.
  assert (Hnn : nonneg_weights four_vertices).
  { apply nonneg_weights_check. reflexivity. }
  assert (Hfloat : float_weights four_vertices).
  { apply float_weights_check. reflexivity. }
  split.
  - apply (find_shortest_path_bellman_ford_correct four_vertices "D" "A"
             four_vertices_built Hfloat
             (nonneg_no_negative_cycle _ "D" Hnn)).
    apply (unreachable_check four_vertices "D" "A" {["D"]}).
    + apply elem_of_singleton. reflexivity.
    + intros Hin%elem_of_singleton. discriminate Hin.
    + vm_compute. reflexivity.
  - apply (find_shortest_path_bellman_ford_correct four_vertices "A" "D"
             four_vertices_built Hfloat
             (nonneg_no_negative_cycle _ "A" Hnn)).
    + apply truthy_check. reflexivity.
    + apply (rtc_l _ _ "C").
      * exists (Some 4). apply (bool_decide_unpack _). vm_compute.
        reflexivity.
      * apply rtc_once. exists (Some 1). apply (bool_decide_unpack _).
        vm_compute. reflexivity.
Defined.





(** X17.  In a graph that calls have built and whose weights are all
    numbers, an edge whose weight does not fit a float and whose source
    cannot be reached from [start] makes
    [find_shortest_path_bellman_ford] raise [OverflowError], whatever the
    end: in its first pass the function adds the weight to the distance
    [inf] of the source.  The graph is left as it is. *)
Theorem bellman_ford_overflow `{PyVertex V} {D : Type}
    (g : DirectedGraph V D) (fuel : nat) (start end_ u v : V) (w : Z) :
  built g → numeric_weights g →
  (u, v, Some w) ∈ edges g → float_overflow w = true →
  ¬ reachable g start u →
  find_shortest_path_bellman_ford fuel start end_ g
    = Some (Raise OverflowError, g).
Proof.
  intros [_ Hcl]%built_wf Hnum Hin Hov Hno.
  unfold find_shortest_path_bellman_ford.
  by rewrite (bellman_ford_passes_overflow g start Hcl Hnum u v w).
Qed.

Lemma bellman_ford_overflow_witness :
  find_shortest_path_bellman_ford 5 "A" "B" huge_weight
    = Some (Raise OverflowError, huge_weight).
Proof.
  apply (bellman_ford_overflow huge_weight 5 "A" "B" "C" "D" (10 ^ 400)).
  - exists [(0%nat, AddEdge "A" "B" (Some 1%Z));
            (0%nat, AddEdge "C" "D" (Some (10 ^ 400)%Z))].
    reflexivity.
  - apply numeric_weights_check. vm_compute. reflexivity.
  - apply (bool_decide_unpack _). vm_compute. reflexivity.
  - vm_compute. reflexivity.
  - apply (unreachable_check huge_weight "A" "C" {["A"; "B"]}).
    + apply elem_of_union_l, elem_of_singleton. reflexivity.
    + apply (bool_decide_unpack _). vm_compute. reflexivity.
    + vm_compute. reflexivity.
Defined.

